(** * Bhaii AI Studio: session controller, AI gateway, preference store
      and slideshow player, embedded from the TypeScript sources.

    Sources embedded here:
    - [src/services/geminiService.ts]: the three gateway operations
      (module [Gemini]);
    - [src/components/SlideshowGenerator.tsx]: the [SlideshowGenerator]
      component (module [Slideshow]) and the [ChatInterface] component
      (module [Chat]);
    - [src/unnamed/part_001]: the [App] shell and its load effect
      (module [App]);
    - [src/unnamed/part_000] (constants) and [src/unnamed/part_002]
      (types);
    - [src/components/HDImageGenerator.tsx]: the [HDImageGenerator]
      component (module [HDView]);
    - [src/components/ImageEditor.tsx]: the [ImageEditor] component
      (module [EditorView]).

    JavaScript strings are sequences of UTF-16 code units; they are kept
    as lists of code units so that [trim], [split], [includes] and the
    truthiness of a string behave as they do in the engine.  Arrays that
    are passed by reference live in a store.  The built-ins of the host
    that the sources call ([JSON.parse], [JSON.stringify], [Date]) are a
    parameter, [Platform]; module [Reference] gives one host, on which
    the examples are evaluated and for which the assumptions made on a
    host are proved.

    The file has two parts: the definitions, then their properties. *)

From Stdlib Require Import ZArith NArith List String Ascii Bool Lia.
From Stdlib Require Import DecimalString DecimalZ DecimalPos.
From stdpp Require Import base gmap list.
Import ListNotations.
Open Scope Z_scope.
Set Warnings "-register-all".

(* ================================================================== *)
(** * JavaScript strings *)
(* ================================================================== *)

Module JS.

Definition char16 := N.
Definition jsstring := list char16.

(** An ASCII literal of the source as a code-unit sequence. *)
Definition js (s : string) : jsstring :=
  List.map N_of_ascii (list_ascii_of_string s).

Definition str_eqb (a b : jsstring) : bool :=
  bool_decide (a = b).

(** ECMAScript [WhiteSpace] and [LineTerminator] code points, the set
    stripped by [String.prototype.trim]. *)
Definition is_white_space (c : char16) : bool :=
  ((c =? 9) || (c =? 10) || (c =? 11) || (c =? 12) || (c =? 13) ||
   (c =? 32) || (c =? 160) || (c =? 5760) ||
   ((8192 <=? c) && (c <=? 8202)) ||
   (c =? 8232) || (c =? 8233) || (c =? 8239) || (c =? 8287) ||
   (c =? 12288) || (c =? 65279))%N.

Fixpoint trimStart (s : jsstring) : jsstring :=
  match s with
  | [] => []
  | c :: s' => if is_white_space c then trimStart s' else s
  end.

Definition trimEnd (s : jsstring) : jsstring :=
  rev (trimStart (rev s)).

(** [s.trim()] *)
Definition trim (s : jsstring) : jsstring := trimEnd (trimStart s).

(** [s.split(sep)] for a one-code-unit separator.  The result is never
    empty: the empty string splits into one empty piece. *)
Fixpoint split (sep : char16) (s : jsstring) : list jsstring :=
  match s with
  | [] => [[]]
  | c :: s' =>
      if (c =? sep)%N then [] :: split sep s'
      else match split sep s' with
           | piece :: pieces => (c :: piece) :: pieces
           | [] => [[c]]
           end
  end.

(** [pieces.join(sep)] *)
Fixpoint join (sep : char16) (pieces : list jsstring) : jsstring :=
  match pieces with
  | [] => []
  | [p] => p
  | p :: rest => p ++ sep :: join sep rest
  end.

Fixpoint starts_with (p s : jsstring) : bool :=
  match p, s with
  | [], _ => true
  | _ :: _, [] => false
  | a :: p', b :: s' => (a =? b)%N && starts_with p' s'
  end.

(** [s.includes(p)] *)
Fixpoint includes (s p : jsstring) : bool :=
  starts_with p s ||
  match s with
  | [] => false
  | _ :: s' => includes s' p
  end.

(** Truthiness of a string value: only the empty string is falsy. *)
Definition truthy (s : jsstring) : bool :=
  match s with [] => false | _ :: _ => true end.

(** [n.toString()] for an integer-valued number. *)
Definition toString (n : Z) : jsstring :=
  js (NilZero.string_of_int (Z.to_int n)).

Definition NL : char16 := 10%N.

End JS.
Import JS.

(* ================================================================== *)
(** * Slideshow player ([SlideshowGenerator] component) *)
(* ================================================================== *)

Module Slideshow.

Definition SLIDE_DURATION_MS : Z := 2500.
Definition MAX_SLIDES : nat := 6.

(** A timer armed with [window.setTimeout]: its handle, a positive
    integer, and its delay. *)
Record Timer := { handle : positive; delay : Z }.

(** Component state ([useState] cells and the [timeoutRef] ref) together
    with the browser's table of armed timers. *)
Record State := {
  inputText : jsstring;
  slides : list jsstring;
  currentSlideIndex : nat;
  isPlaying : bool;
  loading : bool;
  error : option jsstring;
  statusMessage : jsstring;
  timeoutRef : option positive;
  armed : list Timer;
  nextHandle : positive
}.

Definition initial : State := {|
  inputText := [];
  slides := [];
  currentSlideIndex := 0;
  isPlaying := false;
  loading := false;
  error := None;
  statusMessage := js "Enter text to create your animated slideshow!";
  timeoutRef := None;
  armed := [];
  nextHandle := 1%positive
|}.

Definition setInputText v (s : State) : State :=
  {| inputText := v; slides := slides s;
     currentSlideIndex := currentSlideIndex s; isPlaying := isPlaying s;
     loading := loading s; error := error s;
     statusMessage := statusMessage s; timeoutRef := timeoutRef s;
     armed := armed s; nextHandle := nextHandle s |}.

Definition setSlides v (s : State) : State :=
  {| inputText := inputText s; slides := v;
     currentSlideIndex := currentSlideIndex s; isPlaying := isPlaying s;
     loading := loading s; error := error s;
     statusMessage := statusMessage s; timeoutRef := timeoutRef s;
     armed := armed s; nextHandle := nextHandle s |}.

Definition setCurrentSlideIndex v (s : State) : State :=
  {| inputText := inputText s; slides := slides s;
     currentSlideIndex := v; isPlaying := isPlaying s;
     loading := loading s; error := error s;
     statusMessage := statusMessage s; timeoutRef := timeoutRef s;
     armed := armed s; nextHandle := nextHandle s |}.

Definition setIsPlaying v (s : State) : State :=
  {| inputText := inputText s; slides := slides s;
     currentSlideIndex := currentSlideIndex s; isPlaying := v;
     loading := loading s; error := error s;
     statusMessage := statusMessage s; timeoutRef := timeoutRef s;
     armed := armed s; nextHandle := nextHandle s |}.

Definition setLoading v (s : State) : State :=
  {| inputText := inputText s; slides := slides s;
     currentSlideIndex := currentSlideIndex s; isPlaying := isPlaying s;
     loading := v; error := error s;
     statusMessage := statusMessage s; timeoutRef := timeoutRef s;
     armed := armed s; nextHandle := nextHandle s |}.

Definition setError v (s : State) : State :=
  {| inputText := inputText s; slides := slides s;
     currentSlideIndex := currentSlideIndex s; isPlaying := isPlaying s;
     loading := loading s; error := v;
     statusMessage := statusMessage s; timeoutRef := timeoutRef s;
     armed := armed s; nextHandle := nextHandle s |}.

Definition setStatusMessage v (s : State) : State :=
  {| inputText := inputText s; slides := slides s;
     currentSlideIndex := currentSlideIndex s; isPlaying := isPlaying s;
     loading := loading s; error := error s;
     statusMessage := v; timeoutRef := timeoutRef s;
     armed := armed s; nextHandle := nextHandle s |}.

Definition setTimeoutRef v (s : State) : State :=
  {| inputText := inputText s; slides := slides s;
     currentSlideIndex := currentSlideIndex s; isPlaying := isPlaying s;
     loading := loading s; error := error s;
     statusMessage := statusMessage s; timeoutRef := v;
     armed := armed s; nextHandle := nextHandle s |}.

(** [clearTimeout(h)]: disarm the timer with that handle, if any. *)
Definition clearTimeout (h : positive) (s : State) : State :=
  {| inputText := inputText s; slides := slides s;
     currentSlideIndex := currentSlideIndex s; isPlaying := isPlaying s;
     loading := loading s; error := error s;
     statusMessage := statusMessage s; timeoutRef := timeoutRef s;
     armed := List.filter (fun t => negb (Pos.eqb (handle t) h)) (armed s);
     nextHandle := nextHandle s |}.

(** [window.setTimeout(cb, d)]: arm a timer and return its handle.  The
    only callback this component ever arms is the slide advance, so the
    table records the handle and the delay. *)
Definition setTimeout (d : Z) (s : State) : positive * State :=
  (nextHandle s,
   {| inputText := inputText s; slides := slides s;
      currentSlideIndex := currentSlideIndex s; isPlaying := isPlaying s;
      loading := loading s; error := error s;
      statusMessage := statusMessage s; timeoutRef := timeoutRef s;
      armed := armed s ++ [{| handle := nextHandle s; delay := d |}];
      nextHandle := Pos.succ (nextHandle s) |}).

(** [if (timeoutRef.current) clearTimeout(timeoutRef.current)] *)
Definition clearRef (s : State) : State :=
  match timeoutRef s with
  | Some h => clearTimeout h s
  | None => s
  end.

Definition startSlideshow (newSlides : list jsstring) (s : State) : State :=
  match newSlides with
  | [] =>
      setIsPlaying false
        (setError (Some (js "No valid slides generated. Please enter some text.")) s)
  | _ :: _ =>
      setStatusMessage (js "Slideshow playing...")
        (setIsPlaying true
           (setCurrentSlideIndex 0%nat
              (setSlides newSlides s)))
  end.

Definition stopSlideshow (s : State) : State :=
  let s1 := match timeoutRef s with
            | Some h => setTimeoutRef None (clearTimeout h s)
            | None => s
            end in
  setStatusMessage (js "Slideshow stopped. Ready for new input!")
    (setIsPlaying false s1).

(** The state updater run by the timer callback:
    [prevIndex < slides.length - 1 ? prevIndex + 1 : (stop, 0)]. *)
Definition advanceIndex (s : State) : State :=
  let prevIndex := currentSlideIndex s in
  if Z.of_nat prevIndex <? Z.of_nat (length (slides s)) - 1
  then setCurrentSlideIndex (prevIndex + 1)%nat s
  else
    setCurrentSlideIndex 0%nat
      (setStatusMessage (js "Slideshow finished! You can generate another one.")
         (stopSlideshow s)).

(** Body of the timer [useEffect]. *)
Definition timerEffect (s : State) : State :=
  if isPlaying s && (0 <? Z.of_nat (length (slides s)))
  then
    let s1 := clearRef s in
    let '(h, s2) := setTimeout SLIDE_DURATION_MS s1 in
    setTimeoutRef (Some h) s2
  else
    match timeoutRef s with
    | Some h => if negb (isPlaying s)
                then setTimeoutRef None (clearTimeout h s)
                else s
    | None => s
    end.

(** Cleanup function returned by the timer [useEffect]. *)
Definition timerCleanup (s : State) : State := clearRef s.

(** The effect's dependency list [isPlaying, currentSlideIndex, slides]
    ([stopSlideshow] is a stable callback). *)
Definition depsChanged (old new : State) : bool :=
  negb (bool_decide (isPlaying old = isPlaying new
                     /\ currentSlideIndex old = currentSlideIndex new
                     /\ slides old = slides new)).

(** A committed render: when a dependency changed, the previous effect
    is cleaned up and the effect body runs again. *)
Definition commit (old new : State) : State :=
  if depsChanged old new then timerEffect (timerCleanup new) else new.

(** The browser fires the armed timer with handle [h] (a timer that was
    cleared never fires). *)
Definition fire (h : positive) (s : State) : State :=
  if existsb (fun t => Pos.eqb (handle t) h) (armed s)
  then commit s (advanceIndex (clearTimeout h s))
  else s.

(** One timer advance: the timer currently held by [timeoutRef] fires. *)
Definition tick (s : State) : State :=
  match timeoutRef s with
  | Some h => fire h s
  | None => s
  end.

(** The slides computed by [handleGenerate] from the text area. *)
Definition generatedSlides (text : jsstring) : list jsstring :=
  let rawLines :=
    List.filter (fun line => 0 <? Z.of_nat (length line))
      (List.map trim (split NL text)) in
  firstn MAX_SLIDES rawLines.

Definition handleGenerate (s : State) : State :=
  let s1 := stopSlideshow (setError None (setLoading true s)) in
  let gen := generatedSlides (inputText s) in
  match gen with
  | [] =>
      setLoading false
        (setError (Some (js "Please enter some text for your slideshow.")) s1)
  | _ :: _ => setLoading false (startSlideshow gen s1)
  end.

(** The click on "Generate Slideshow" followed by the committed render. *)
Definition generate (s : State) : State := commit s (handleGenerate s).

Definition handleClear (s : State) : State :=
  setLoading false
    (setStatusMessage (js "Enter text to create your animated slideshow!")
       (setError None
          (setCurrentSlideIndex 0%nat
             (setSlides []
                (setInputText [] (stopSlideshow s)))))).

Fixpoint ticks (n : nat) (s : State) : State :=
  match n with
  | O => s
  | S n' => ticks n' (tick s)
  end.

(** The player is showing slide [k]: it is playing and the timer held
    by [timeoutRef] is armed. *)
Definition Playing (s : State) (k : nat) : Prop :=
  isPlaying s = true /\ currentSlideIndex s = k /\
  exists h, timeoutRef s = Some h /\
            existsb (fun t => Pos.eqb (handle t) h) (armed s) = true.

(** The player is at rest: not playing, no timer held. *)
Definition Idle (s : State) : Prop :=
  isPlaying s = false /\ timeoutRef s = None.

(** The lines of a text that are not empty once trimmed, trimmed and in
    order of appearance. *)
Definition trimmedLines (text : jsstring) : list jsstring :=
  filter (fun line => line <> []) (trim <$> split NL text).

(** A line of the text area that yields a slide. *)
Definition slideLine (line : jsstring) : Prop :=
  trim line <> [] /\ ~ In NL line.

End Slideshow.

(* ================================================================== *)
(** * Data model ([types.ts]) and constants ([constants.ts]) *)
(* ================================================================== *)

Module Types.

(** [sender: 'user' | 'bhaii'] *)
Inductive Sender := user | bhaii.

(** A [Date] object: its time value in milliseconds since the epoch, or
    the "Invalid Date" whose time value is NaN. *)
Inductive Date := ValidDate (t : Z) | InvalidDate.

Record ChatMessage := {
  id : jsstring;
  sender : Sender;
  text : jsstring;
  timestamp : Date
}.

Record UserPreferences := {
  name : jsstring;
  rememberMe : bool;
  lastChat : list ChatMessage
}.

Record InlineData := { mimeType : option jsstring; data : option jsstring }.
Record ImagePart := { inlineData : InlineData }.

Global Instance Sender_eq_dec : EqDecision Sender.
Proof. solve_decision. Defined.
Global Instance Date_eq_dec : EqDecision Date.
Proof. solve_decision. Defined.
Global Instance ChatMessage_eq_dec : EqDecision ChatMessage.
Proof. solve_decision. Defined.

Definition sender_string (s : Sender) : jsstring :=
  match s with user => js "user" | bhaii => js "bhaii" end.

End Types.
Import Types.

Module Constants.

(** The double quote, and a literal written with apostrophes standing
    for double quotes. *)
Definition dquote : char16 := 34%N.
Definition jsq (s : string) : jsstring :=
  List.map (fun c => if (c =? 39)%N then dquote else c) (js s).

Definition CHAT_MODEL_NAME := js "gemini-flash-latest".
Definition IMAGE_EDIT_MODEL_NAME := js "gemini-2.5-flash-image".
Definition HD_IMAGE_GEN_MODEL_NAME := js "imagen-4.0-generate-001".

Definition BHAI_SYSTEM_INSTRUCTION : jsstring :=
  js "You are a supportive, friendly, and helpful elder brother ('bhaii'). "
  ++ [NL] ++
  js "You respond quickly with short, clear, and encouraging messages. "
  ++ [NL] ++
  js "You use common Hindi/Marathi phrases naturally to add a local touch, for example, "
  ++ jsq "'Kya haal hai?', 'Theek hai?', 'Bilkul!', 'Chal ab!', 'Koi nahi', 'Shabaash!', 'Khush raho!'."
  ++ [NL] ++
  js "Remember the user's name if they've provided it."
  ++ [NL] ++
  js "Keep answers concise and to the point.".

Definition WELCOME_MESSAGES : list jsstring :=
  [ js "Namaste! Kya haal hai, mere bhai/behen? Kaise ho tum?";
    js "Hello there! Everything alright? How are you doing today?" ].

Definition STORAGE_KEY_USER_PREFS := js "bhaii_ai_user_prefs".

Inductive Modality := IMAGE.
Definition IMAGE_RESPONSE_MODALITIES : list Modality := [IMAGE].

End Constants.
Import Constants.

(* ================================================================== *)
(** * AI gateway ([geminiService.ts]) *)
(* ================================================================== *)

Module Gemini.

(** A thrown value, as far as the service inspects it: [error.message],
    which may be missing. *)
Record JsError := { message : option jsstring }.

Definition mkError (m : string) : JsError := {| message := Some (js m) |}.

Inductive Outcome (A : Type) :=
| Ret (a : A)
| Throw (e : JsError).
Arguments Ret {A} a.
Arguments Throw {A} e.

(** ** Request and response shapes of the SDK *)

Record TextPart := { part_text : jsstring }.
Record Content := { role : jsstring; parts : list TextPart }.

Record CreateChatParameters := {
  chat_model : jsstring;
  systemInstruction : jsstring;
  history : list Content
}.

(** A chunk of the response stream: [chunk.text] may be undefined. *)
Definition Chunk := option jsstring.

(** A response stream: the chunks it yields and, possibly, the error
    with which the iteration ends. *)
Record Stream := { chunks : list Chunk; failure : option JsError }.

Record File := { file_type : jsstring; file_name : jsstring }.

Record ResponsePart := { part_inlineData : option InlineData }.
Record ResponseContent := { content_parts : option (list ResponsePart) }.
Record Candidate := { content : option ResponseContent }.
Record GenerateContentResponse := { candidates : option (list Candidate) }.

Record GenerateContentParameters := {
  gc_model : jsstring;
  gc_image : ImagePart;
  gc_prompt : jsstring;
  responseModalities : list Modality
}.

Inductive AspectRatio := ar_1_1 | ar_3_4 | ar_4_3 | ar_9_16 | ar_16_9.

Record Image := { imageBytes : option jsstring; image_mimeType : option jsstring }.
Record GeneratedImage := { image : option Image }.
Record GenerateImagesResponse := { generatedImages : option (list GeneratedImage) }.

Record GenerateImagesParameters := {
  gi_model : jsstring;
  gi_prompt : jsstring;
  numberOfImages : Z;
  outputMimeType : jsstring;
  aspectRatio : AspectRatio
}.

(** ** Results returned by the three operations *)

Record GeminiChatResponse := { text : jsstring; error : option jsstring }.
Record GeminiImageEditResponse :=
  { edit_imageUrl : option jsstring; edit_error : option jsstring }.
Record GeminiHDImageGenerationResponse :=
  { imageUrl : option jsstring; hd_error : option jsstring }.

(** ** The world outside the service *)

(** What the service hands to [console.error] after the label. *)
Inductive Logged :=
| LoggedError (e : JsError)
| LoggedContentResponse (r : GenerateContentResponse)
| LoggedImagesResponse (r : GenerateImagesResponse).

Inductive Event :=
| ConsoleError (label : jsstring) (detail : Logged)
| ChatsCreate (p : CreateChatParameters)
| SendMessageStream (p : CreateChatParameters) (msg : jsstring)
| ReadAsDataURL (f : File)
| GenerateContent (p : GenerateContentParameters)
| GenerateImages (p : GenerateImagesParameters)
| OpenSelectKey.

(** The events that are a round trip to the remote AI service. *)
Definition is_remote_call (e : Event) : bool :=
  match e with
  | SendMessageStream _ _ | GenerateContent _ | GenerateImages _ => true
  | _ => false
  end.

(** Behaviour of the environment: the configured credential and what
    each outside call answers. *)
Record Env := {
  API_KEY : option jsstring;
  chats_create : CreateChatParameters -> option JsError;
  sendMessageStream : CreateChatParameters -> jsstring -> Outcome Stream;
  (** What the chat instance leaves in the history array it was created
      with, which it keeps and updates as it records the exchange. *)
  chat_history : CreateChatParameters -> jsstring -> list Content;
  readAsDataURL : File -> Outcome jsstring;
  generateContent : GenerateContentParameters -> Outcome GenerateContentResponse;
  generateImages : GenerateImagesParameters -> Outcome GenerateImagesResponse;
  openSelectKey : option JsError
}.

(** Arrays live in a store and are passed by reference. *)
Definition loc := positive.

Inductive Cell :=
| MessageArray (l : list ChatMessage)
| ContentArray (l : list Content).

Record World := {
  heap : gmap loc Cell;
  trace : list Event
}.

(** ** The monad of the service: state over [World], with exceptions *)

Definition M (A : Type) : Type := World -> Outcome A * World.

Definition ret {A} (a : A) : M A := fun w => (Ret a, w).
Definition throw {A} (e : JsError) : M A := fun w => (Throw e, w).
Definition bind {A B} (m : M A) (k : A -> M B) : M B :=
  fun w => match m w with
           | (Ret a, w') => k a w'
           | (Throw e, w') => (Throw e, w')
           end.
(** Run [m] and hand its completion, normal or abrupt, to the caller. *)
Definition attempt {A} (m : M A) : M (Outcome A) :=
  fun w => match m w with (o, w') => (Ret o, w') end.
Definition try_catch {A} (m : M A) (handler : JsError -> M A) : M A :=
  fun w => match m w with
           | (Ret a, w') => (Ret a, w')
           | (Throw e, w') => handler e w'
           end.

Global Instance M_ret : MRet M := @ret.
Global Instance M_bind : MBind M := fun A B k m => bind m k.

Definition emit (e : Event) : M unit :=
  fun w => (Ret tt, {| heap := heap w; trace := trace w ++ [e] |}).

Definition console_error (label : string) (d : Logged) : M unit :=
  emit (ConsoleError (js label) d).

(** Lift the answer of an outside call. *)
Definition answer {A} (o : Outcome A) : M A :=
  match o with Ret a => ret a | Throw e => throw e end.

Definition alloc (c : Cell) : M loc :=
  fun w => let l := fresh (dom (heap w)) in
           (Ret l, {| heap := <[l := c]> (heap w); trace := trace w |}).

Definition store (l : loc) (c : Cell) : M unit :=
  fun w => (Ret tt, {| heap := <[l := c]> (heap w); trace := trace w |}).

(** Reading the chat history through its reference.  Anything but a
    message array is a [TypeError] (the caller's types exclude it). *)
Definition read_messages (l : loc) : M (list ChatMessage) :=
  fun w => match heap w !! l with
           | Some (MessageArray ms) => (Ret ms, w)
           | _ => (Throw (mkError "history.map is not a function"), w)
           end.

(** ** [getGeminiClient] *)

Record GoogleGenAI := { apiKey : jsstring }.

Definition getGeminiClient (env : Env) : M GoogleGenAI :=
  match API_KEY env with
  | Some k =>
      if truthy k then ret {| apiKey := k |}
      else throw (mkError "API_KEY is not set. Please ensure it is configured in your environment.")
  | None =>
      throw (mkError "API_KEY is not set. Please ensure it is configured in your environment.")
  end.

(** [error.message && error.message.includes(needle)] *)
Definition message_includes (e : JsError) (needle : jsstring) : bool :=
  match message e with
  | Some m => truthy m && includes m needle
  | None => false
  end.

(** [window.aistudio.openSelectKey()] *)
Definition aistudio_openSelectKey (env : Env) : M unit :=
  emit OpenSelectKey ;;
  match openSelectKey env with
  | None => ret tt
  | Some e => throw e
  end.

(** ** [chatWithBhaii] *)

(** The callback of [history.map]. *)
Definition formatMessage (msg : ChatMessage) : Content :=
  {| role := match sender msg with user => js "user" | bhaii => js "model" end;
     parts := [ {| part_text := Types.text msg |} ] |}.

(** Draining the stream: [if (c.text) fullText += c.text]. *)
Definition collect (fullText : jsstring) (cs : list Chunk) : jsstring :=
  fold_left (fun acc c =>
               match c with
               | Some t => if truthy t then acc ++ t else acc
               | None => acc
               end) cs fullText.

Definition personalize (userName message : jsstring) : jsstring :=
  if truthy userName then userName ++ js " says: " ++ message else message.

(** The argument of [ai.chats.create]. *)
Definition chatParameters (msgs : list ChatMessage) : CreateChatParameters :=
  {| chat_model := CHAT_MODEL_NAME;
     systemInstruction := BHAI_SYSTEM_INSTRUCTION;
     history := List.map formatMessage msgs |}.

(** The formatted history is a new array; the chat instance created
    with it keeps that array and may update it while the message is
    sent. *)
Definition chatTry (env : Env) (message : jsstring) (history : loc)
    (userName : jsstring) : M GeminiChatResponse :=
  ai ← getGeminiClient env;
  msgs ← read_messages history;
  formattedHistory ← alloc (ContentArray (List.map formatMessage msgs));
  let params := chatParameters msgs in
  emit (ChatsCreate params) ;;
  match chats_create env params with Some e => throw e | None => ret tt end ;;
  let personalizedMessage := personalize userName message in
  emit (SendMessageStream params personalizedMessage) ;;
  store formattedHistory
        (ContentArray (chat_history env params personalizedMessage)) ;;
  streamResponse ← answer (sendMessageStream env params personalizedMessage);
  let fullText := collect [] (chunks streamResponse) in
  match failure streamResponse with Some e => throw e | None => ret tt end ;;
  ret {| text := trim fullText; error := None |}.

Definition chatCatch (env : Env) (error : JsError) : M GeminiChatResponse :=
  console_error "Error chatting with Bhaii:" (LoggedError error) ;;
  if message_includes error (js "Requested entity was not found")
  then
    aistudio_openSelectKey env ;;
    ret {| text := [];
           error := Some (js "API key issue. Please select your API key again from the dialog.") |}
  else
    ret {| text := [];
           error := Some (js "Sorry, kuch gadbad ho gayi. Can you please try again?") |}.

Definition chatWithBhaii (env : Env) (message : jsstring) (history : loc)
    (userName : jsstring) : M GeminiChatResponse :=
  try_catch (chatTry env message history userName) (chatCatch env).

(** ** [editImageWithGemini] *)

(** Interpolation of a possibly undefined string in a template literal. *)
Definition interpolate (o : option jsstring) : jsstring :=
  match o with Some s => s | None => js "undefined" end.

(** [blobToBase64]: the part of the data URL after the first comma,
    [result.split(',')[1]], undefined when there is no comma. *)
Definition blobToBase64 (env : Env) (blob : File) : M (option jsstring) :=
  emit (ReadAsDataURL blob) ;;
  result ← answer (readAsDataURL env blob);
  ret (nth_error (split 44%N result) 1).

(** [response.candidates?.[0]?.content?.parts?.[0]?.inlineData] *)
Definition firstInlineData (response : GenerateContentResponse)
    : option InlineData :=
  match candidates response with
  | Some (c :: _) =>
      match content c with
      | Some ct =>
          match content_parts ct with
          | Some (p :: _) => part_inlineData p
          | _ => None
          end
      | None => None
      end
  | _ => None
  end.

Definition editTry (env : Env) (imageFile : File) (prompt : jsstring)
    : M GeminiImageEditResponse :=
  ai ← getGeminiClient env;
  base64ImageData ← blobToBase64 env imageFile;
  let imagePart := {| inlineData := {| data := base64ImageData;
                                       mimeType := Some (file_type imageFile) |} |} in
  let request := {| gc_model := IMAGE_EDIT_MODEL_NAME;
                    gc_image := imagePart;
                    gc_prompt := prompt;
                    responseModalities := IMAGE_RESPONSE_MODALITIES |} in
  emit (GenerateContent request) ;;
  response ← answer (generateContent env request);
  match firstInlineData response with
  | Some editedImagePart =>
      ret {| edit_imageUrl :=
               Some (js "data:" ++ interpolate (mimeType editedImagePart)
                     ++ js ";base64," ++ interpolate (data editedImagePart));
             edit_error := None |}
  | None =>
      console_error "No image data received from Gemini:"
        (LoggedContentResponse response) ;;
      ret {| edit_imageUrl := None;
             edit_error := Some (js "Could not generate edited image. Please try a different prompt.") |}
  end.

Definition editCatch (env : Env) (error : JsError) : M GeminiImageEditResponse :=
  console_error "Error editing image with Gemini:" (LoggedError error) ;;
  if message_includes error (js "Requested entity was not found")
  then
    aistudio_openSelectKey env ;;
    ret {| edit_imageUrl := None;
           edit_error := Some (js "API key issue. Please select your API key again from the dialog.") |}
  else
    ret {| edit_imageUrl := None;
           edit_error := Some (js "Failed to edit image. Network issue or invalid prompt?") |}.

Definition editImageWithGemini (env : Env) (imageFile : File)
    (prompt : jsstring) : M GeminiImageEditResponse :=
  try_catch (editTry env imageFile prompt) (editCatch env).

(** ** [generateHDImageWithGemini] *)

(** [response.generatedImages?.[0]?.image] *)
Definition firstImage (response : GenerateImagesResponse) : option Image :=
  match generatedImages response with
  | Some (g :: _) => image g
  | _ => None
  end.

(** [generatedImage?.imageBytes], when truthy. *)
Definition truthyBytes (generatedImage : option Image) : option (Image * jsstring) :=
  match generatedImage with
  | Some img =>
      match imageBytes img with
      | Some b => if truthy b then Some (img, b) else None
      | None => None
      end
  | None => None
  end.

Definition hdTry (env : Env) (prompt : jsstring) (ratio : AspectRatio)
    : M GeminiHDImageGenerationResponse :=
  ai ← getGeminiClient env;
  if negb (truthy (trim prompt))
  then ret {| imageUrl := None;
              hd_error := Some (js "Please provide a text prompt for image generation.") |}
  else
    let request := {| gi_model := HD_IMAGE_GEN_MODEL_NAME;
                      gi_prompt := trim prompt;
                      numberOfImages := 1;
                      outputMimeType := js "image/jpeg";
                      aspectRatio := ratio |} in
    emit (GenerateImages request) ;;
    response ← answer (generateImages env request);
    match truthyBytes (firstImage response) with
    | Some (generatedImage, bytes) =>
        ret {| imageUrl :=
                 Some (js "data:" ++ interpolate (image_mimeType generatedImage)
                       ++ js ";base64," ++ bytes);
               hd_error := None |}
    | None =>
        console_error "No image data received from HD image generator:"
          (LoggedImagesResponse response) ;;
        ret {| imageUrl := None;
               hd_error := Some (js "Could not generate HD image. Please try a different prompt.") |}
    end.

(** [error.message || 'Unknown error'] *)
Definition message_or_unknown (e : JsError) : jsstring :=
  match message e with
  | Some m => if truthy m then m else js "Unknown error"
  | None => js "Unknown error"
  end.

Definition hdCatch (env : Env) (error : JsError)
    : M GeminiHDImageGenerationResponse :=
  console_error "Error generating HD image with Gemini:" (LoggedError error) ;;
  if message_includes error (js "Requested entity was not found.")
  then
    aistudio_openSelectKey env ;;
    ret {| imageUrl := None;
           hd_error := Some (js "API key issue: HD Image generation requires billing. Please ensure your API key is enabled for billing and re-select it.") |}
  else
    ret {| imageUrl := None;
           hd_error := Some (js "Failed to generate HD image: " ++ message_or_unknown error) |}.

Definition generateHDImageWithGemini (env : Env) (prompt : jsstring)
    (ratio : AspectRatio) : M GeminiHDImageGenerationResponse :=
  try_catch (hdTry env prompt ratio) (hdCatch env).

(** ** Vocabulary for the properties of the service *)

(** The events a run from [w] to [w'] added to the trace. *)
Definition emitted (w w' : World) : list Event :=
  skipn (length (trace w)) (trace w').

(** A computation that leaves every stored array as it is. *)
Definition stable {A} (m : M A) : Prop :=
  forall w o w', m w = (o, w') -> heap w' = heap w.

(** A computation that changes the store at most at the place [l]. *)
Definition writes (l : loc) {A} (m : M A) : Prop :=
  forall w o w', m w = (o, w') ->
    heap w' = heap w \/ exists c, heap w' = <[l := c]> (heap w).

(** A computation whose events all satisfy [P]. *)
Definition emits (P : Event -> Prop) {A} (m : M A) : Prop :=
  forall w o w', m w = (o, w') ->
    exists new, trace w' = trace w ++ new /\ Forall P new.

(** A prior turn and the role-tagged text unit standing for it, when
    the turns of the assistant are given the role [assistant]. *)
Definition roleTagged (assistant : jsstring) (m : ChatMessage) (c : Content) : Prop :=
  role c = match sender m with user => js "user" | bhaii => assistant end
  /\ parts c = [ {| part_text := Types.text m |} ].

(** Every chat request among [events] carries the prior turns [msgs],
    in order, each role-tagged. *)
Definition requestsTagged (assistant : jsstring) (msgs : list ChatMessage)
    (events : list Event) : Prop :=
  forall p x, In (SendMessageStream p x) events ->
              Forall2 (roleTagged assistant) msgs (history p).

(** An event that is a chat request carries the parameters built from
    [msgs]. *)
Definition carries (msgs : list ChatMessage) (e : Event) : Prop :=
  forall p x, e = SendMessageStream p x -> p = chatParameters msgs.


(** A prompt made of white space only (the empty prompt included). *)
Definition blank (prompt : jsstring) : Prop :=
  Forall (fun c => is_white_space c = true) prompt.


End Gemini.

(* ================================================================== *)
(** * JSON values and the platform built-ins *)
(* ================================================================== *)

Module Json.

(** A value as [JSON.parse] produces it.  A number is kept as the
    literal that denotes it. *)
Inductive json :=
| JNull
| JBool (b : bool)
| JNum (literal : jsstring)
| JStr (s : jsstring)
| JArr (items : list json)
| JObj (props : list (jsstring * json)).

(** Own property [k] of an object built from [props]: a later
    duplicate of a key overrides an earlier one. *)
Fixpoint obj_get (k : jsstring) (props : list (jsstring * json)) : option json :=
  match props with
  | [] => None
  | (k', v) :: rest =>
      match obj_get k rest with
      | Some v' => Some v'
      | None => if str_eqb k' k then Some v else None
      end
  end.

(** Built-ins of the host that the application calls and that are not
    part of its sources. *)
Record Platform := {
  (** [JSON.parse]: [None] when it throws a [SyntaxError]. *)
  JSON_parse : jsstring -> option json;
  (** [JSON.stringify] on a tree of plain data. *)
  JSON_stringify : json -> jsstring;
  (** [Date.prototype.toISOString] on a valid time value. *)
  toISOString : Z -> jsstring;
  (** [new Date(string)]. *)
  Date_of_string : jsstring -> Date;
  (** [new Date(number)]. *)
  Date_of_number : jsstring -> Date;
  (** [new Date(object)]: conversion to a primitive may throw. *)
  Date_of_object : json -> option Date;
  (** Truthiness of a number. *)
  number_truthy : jsstring -> bool
}.

(** [Date.prototype.toJSON], which [JSON.stringify] calls on a [Date]. *)
Definition Date_toJSON (P : Platform) (d : Date) : json :=
  match d with
  | ValidDate t => JStr (toISOString P t)
  | InvalidDate => JNull
  end.

(** The tree [JSON.stringify] serialises for a [ChatMessage]. *)
Definition message_json (P : Platform) (m : ChatMessage) : json :=
  JObj [ (js "id", JStr (id m));
         (js "sender", JStr (sender_string (sender m)));
         (js "text", JStr (Types.text m));
         (js "timestamp", Date_toJSON P (timestamp m)) ].

(** The tree [JSON.stringify] serialises for a [UserPreferences]. *)
Definition prefs_json (P : Platform) (p : UserPreferences) : json :=
  JObj [ (js "name", JStr (name p));
         (js "rememberMe", JBool (rememberMe p));
         (js "lastChat", JArr (List.map (message_json P) (lastChat p))) ].

End Json.
Import Json.

(** [localStorage]: string keys to string values. *)
Abbreviation Storage := (gmap jsstring jsstring).

(* ================================================================== *)
(** * Session controller ([ChatInterface] component) *)
(* ================================================================== *)

Module Chat.
Import Gemini.

(** Props handed down by [App] and the component's own state.  The
    transcript is an array held by reference. *)
Record State := {
  userName : jsstring;
  rememberMe : bool;
  chatHistory : loc;
  inputMessage : jsstring;
  loading : bool
}.

Definition setChatHistory v (s : State) : State :=
  {| userName := userName s; rememberMe := rememberMe s; chatHistory := v;
     inputMessage := inputMessage s; loading := loading s |}.
Definition setInputMessage v (s : State) : State :=
  {| userName := userName s; rememberMe := rememberMe s;
     chatHistory := chatHistory s; inputMessage := v; loading := loading s |}.
Definition setLoading v (s : State) : State :=
  {| userName := userName s; rememberMe := rememberMe s;
     chatHistory := chatHistory s; inputMessage := inputMessage s; loading := v |}.
Definition setUserName v (s : State) : State :=
  {| userName := v; rememberMe := rememberMe s;
     chatHistory := chatHistory s; inputMessage := inputMessage s;
     loading := loading s |}.
Definition setRememberMe v (s : State) : State :=
  {| userName := userName s; rememberMe := v;
     chatHistory := chatHistory s; inputMessage := inputMessage s;
     loading := loading s |}.

(** The transcript a state shows: the array its reference points to. *)
Definition transcript (s : State) (w : World) : option (list ChatMessage) :=
  match heap w !! chatHistory s with
  | Some (MessageArray ms) => Some ms
  | _ => None
  end.

(** Successive readings of the system clock ([Date.now()], [new Date()])
    made by one run of a handler. *)
Definition Clock := nat -> Z.

(** The welcome effect, run once on mount. *)
Definition welcomeEffect (clock : Clock) (s : State) : M State :=
  ms ← read_messages (chatHistory s);
  match ms with
  | [] =>
      let welcomeText :=
        if truthy (userName s)
        then js "Namaste " ++ userName s ++ js "! Kya haal hai, mere bhai/behen? Kaise ho tum?"
        else nth 0 WELCOME_MESSAGES [] in
      arr ← alloc (MessageArray
                     [ {| id := js "welcome"; sender := bhaii;
                          Types.text := welcomeText;
                          timestamp := ValidDate (clock 0%nat) |} ]);
      mret (setChatHistory arr s)
  | _ :: _ => mret s
  end.

(** [response.text || response.error || 'Oops, kuch error ho gaya.'] *)
Definition responseText (response : GeminiChatResponse) : jsstring :=
  if truthy (Gemini.text response) then Gemini.text response
  else match error response with
       | Some e => if truthy e then e else js "Oops, kuch error ho gaya."
       | None => js "Oops, kuch error ho gaya."
       end.

(** [setChatHistory((prev) => [...prev, m])] *)
Definition appendMessage (m : ChatMessage) (s : State) : M State :=
  prev ← read_messages (chatHistory s);
  arr ← alloc (MessageArray (prev ++ [m]));
  mret (setChatHistory arr s).

(** The guard of [handleSendMessage]: the submission is dropped. *)
Definition rejected (s : State) : bool :=
  str_eqb (trim (inputMessage s)) [] || loading s.

(** The part of [handleSendMessage] after the [await]: the [try] body's
    continuation, the [catch] and the [finally]. *)
Definition settle (clock : Clock) (s1 : State)
    (o : Outcome GeminiChatResponse) : M State :=
  match o with
  | Ret response =>
      let bhaiiResponse :=
        {| id := toString (clock 2%nat + 1); sender := bhaii;
           Types.text := responseText response;
           timestamp := ValidDate (clock 3%nat) |} in
      s2 ← appendMessage bhaiiResponse s1;
      mret (setLoading false s2)
  | Throw error =>
      console_error "Failed to send message:" (LoggedError error) ;;
      let errorMessage :=
        {| id := toString (clock 2%nat + 1); sender := bhaii;
           Types.text := js "Bhaii ko kuch dikkat ho gayi. Dobara try karo na.";
           timestamp := ValidDate (clock 3%nat) |} in
      s2 ← appendMessage errorMessage s1;
      mret (setLoading false s2)
  end.

Definition newUserMessage (clock : Clock) (s : State) : ChatMessage :=
  {| id := toString (clock 0%nat); sender := user;
     Types.text := trim (inputMessage s);
     timestamp := ValidDate (clock 1%nat) |}.

Definition handleSendMessage (env : Env) (clock : Clock) (s : State) : M State :=
  if rejected s then mret s
  else
    old ← read_messages (chatHistory s);
    updatedHistory ← alloc (MessageArray (old ++ [newUserMessage clock s]));
    let s1 := setLoading true (setInputMessage [] (setChatHistory updatedHistory s)) in
    o ← attempt (chatWithBhaii env (trim (inputMessage s)) updatedHistory (userName s));
    settle clock s1 o.

(** A submission: the user types [text] and sends it, on a host and a
    clock of its own. *)
Definition Submission : Type := Env * Clock * jsstring.

(** Submissions made one after the other, each once the previous one
    has settled. *)
Fixpoint submitAll (subs : list Submission) (s : State) : M State :=
  match subs with
  | [] => mret s
  | (env, clock, text) :: rest =>
      s' ← handleSendMessage env clock (setInputMessage text s);
      submitAll rest s'
  end.

(** The save effect: runs when [userName], [rememberMe] or the
    transcript changes; [chatHistory] is the transcript at that time. *)
Definition saveEffect (P : Platform) (userName : jsstring) (rememberMe : bool)
    (chatHistory : list ChatMessage) (localStorage : Storage) : Storage :=
  if rememberMe then
    let userPrefs := {| name := userName; Types.rememberMe := true;
                        lastChat := chatHistory |} in
    <[STORAGE_KEY_USER_PREFS := JSON_stringify P (prefs_json P userPrefs)]> localStorage
  else
    delete STORAGE_KEY_USER_PREFS localStorage.

End Chat.

(* ================================================================== *)
(** * Application shell ([App] component): restoring the preferences *)
(* ================================================================== *)

Module App.

Inductive NavigationView :=
| home | chat | image_editor | slideshow_generator | hd_image_generator.

(** A value held by a restored message: data from the store, or the
    [Date] rebuilt for its timestamp. *)
Inductive rval := RJson (j : json) | RDate (d : Date).

(** A restored message object, as a map from its property names. *)
Definition LoadedMessage := gmap jsstring rval.

(** The state cells of [App] as they are at run time: what the load
    effect stores in them comes from the parsed text and is not checked
    against the declared types. *)
Record State := {
  activeView : NavigationView;
  userName : json;
  rememberMe : json;
  chatHistory : list LoadedMessage
}.

Definition initial : State :=
  {| activeView := home; userName := JStr []; rememberMe := JBool false;
     chatHistory := [] |}.

Definition setActiveView v (s : State) : State :=
  {| activeView := v; userName := userName s; rememberMe := rememberMe s;
     chatHistory := chatHistory s |}.
Definition setUserName v (s : State) : State :=
  {| activeView := activeView s; userName := v; rememberMe := rememberMe s;
     chatHistory := chatHistory s |}.
Definition setRememberMe v (s : State) : State :=
  {| activeView := activeView s; userName := userName s; rememberMe := v;
     chatHistory := chatHistory s |}.
Definition setChatHistory v (s : State) : State :=
  {| activeView := activeView s; userName := userName s;
     rememberMe := rememberMe s; chatHistory := v |}.

Definition handleNavigate (view : NavigationView) (s : State) : State :=
  setActiveView view s.

(** Reading property [k] of a parsed value ([k] is one of the names the
    load effect reads, none of which a prototype defines).  The outer
    [None] is the [TypeError] of reading a property of [null]; the inner
    one is [undefined]. *)
Definition get_prop (v : json) (k : jsstring) : option (option json) :=
  match v with
  | JNull => None
  | JObj props => Some (obj_get k props)
  | _ => Some None
  end.

(** Truthiness of a value that may be undefined. *)
Definition truthy_value (P : Platform) (v : option json) : bool :=
  match v with
  | None | Some JNull => false
  | Some (JBool b) => b
  | Some (JNum n) => number_truthy P n
  | Some (JStr s) => truthy s
  | Some (JArr _) | Some (JObj _) => true
  end.

(** [v || dflt] *)
Definition or_else (P : Platform) (v : option json) (dflt : json) : json :=
  match v with
  | Some j => if truthy_value P v then j else dflt
  | None => dflt
  end.

(** [new Date(v)]; [None] when the conversion of an object throws. *)
Definition Date_new (P : Platform) (v : option json) : option Date :=
  match v with
  | None => Some InvalidDate
  | Some JNull => Some (ValidDate 0)
  | Some (JBool b) => Some (ValidDate (if b then 1 else 0))
  | Some (JNum n) => Some (Date_of_number P n)
  | Some (JStr s) => Some (Date_of_string P s)
  | Some (JArr l) => Date_of_object P (JArr l)
  | Some (JObj o) => Date_of_object P (JObj o)
  end.

Definition indexed {A} (f : A -> json) (l : list A) : list (jsstring * json) :=
  List.map (fun '(i, x) => (toString (Z.of_nat i), f x))
           (combine (seq 0 (length l)) l).

(** Own enumerable properties copied by the spread [...msg]. *)
Definition own_props (msg : json) : list (jsstring * json) :=
  match msg with
  | JObj props => props
  | JArr items => indexed (fun x => x) items
  | JStr s => indexed (fun c => JStr [c]) s
  | _ => []
  end.

Definition spread (msg : json) : LoadedMessage :=
  fold_left (fun o '(k, v) => <[k := RJson v]> o) (own_props msg) ∅.

(** The callback of [userPrefs.lastChat.map]:
    [{ ...msg, timestamp: new Date(msg.timestamp) }]. *)
Definition restoreMessage (P : Platform) (msg : json) : option LoadedMessage :=
  match get_prop msg (js "timestamp") with
  | None => None
  | Some ts =>
      match Date_new P ts with
      | None => None
      | Some d => Some (<[js "timestamp" := RDate d]> (spread msg))
      end
  end.

(** [items.map(callback)], stopping at the first exception. *)
Fixpoint restoreAll (P : Platform) (items : list json) : option (list LoadedMessage) :=
  match items with
  | [] => Some []
  | msg :: rest =>
      match restoreMessage P msg with
      | None => None
      | Some m =>
          match restoreAll P rest with
          | None => None
          | Some ms => Some (m :: ms)
          end
      end
  end.

Inductive Completion := Normal | Thrown.

(** The [try] block of the load effect.  The state setters called before
    an exception is thrown have taken effect. *)
Definition loadTry (P : Platform) (storedPrefs : jsstring) (s : State)
    : Completion * State :=
  match JSON_parse P storedPrefs with
  | None => (Thrown, s)
  | Some userPrefs =>
      match get_prop userPrefs (js "name") with
      | None => (Thrown, s)
      | Some n =>
          let s1 := setUserName (or_else P n (JStr [])) s in
          match get_prop userPrefs (js "rememberMe") with
          | None => (Thrown, s1)
          | Some r =>
              let s2 := setRememberMe (or_else P r (JBool false)) s1 in
              match get_prop userPrefs (js "lastChat") with
              | Some (Some (JArr items)) =>
                  match restoreAll P items with
                  | Some msgs => (Normal, setChatHistory msgs s2)
                  | None => (Thrown, s2)
                  end
              | _ => (Thrown, s2)
              end
          end
      end
  end.

Record Loaded := {
  state : State;
  localStorage : Storage;
  console : list jsstring
}.

(** The load effect, run once on mount. *)
Definition loadEffect (P : Platform) (s : State) (ls : Storage) : Loaded :=
  match ls !! STORAGE_KEY_USER_PREFS with
  | Some storedPrefs =>
      if truthy storedPrefs then
        match loadTry P storedPrefs s with
        | (Normal, s') => {| state := s'; localStorage := ls; console := [] |}
        | (Thrown, s') =>
            {| state := s';
               localStorage := delete STORAGE_KEY_USER_PREFS ls;
               console := [js "Failed to parse user preferences from localStorage"] |}
        end
      else {| state := s; localStorage := ls; console := [] |}
  | None => {| state := s; localStorage := ls; console := [] |}
  end.

(** The load of a stored text fails: the [try] block throws. *)
Definition loadFails (P : Platform) (storedPrefs : jsstring) (s : State) : bool :=
  match loadTry P storedPrefs s with
  | (Thrown, _) => true
  | (Normal, _) => false
  end.

(** A typed message as the object the load effect rebuilds for it. *)
Definition message_object (m : ChatMessage) : LoadedMessage :=
  <[js "timestamp" := RDate (timestamp m)]>
    (<[js "text" := RJson (JStr (Types.text m))]>
       (<[js "sender" := RJson (JStr (sender_string (sender m)))]>
          (<[js "id" := RJson (JStr (id m))]> ∅))).

(** A typed preferences value as the state of [App] that holds it. *)
Definition holds (s : State) (p : UserPreferences) : Prop :=
  userName s = JStr (name p)
  /\ rememberMe s = JBool (Types.rememberMe p)
  /\ chatHistory s = List.map message_object (lastChat p).

End App.

(* ================================================================== *)
(** * A reference host *)
(* ================================================================== *)

(** A host on which examples are evaluated.  It converts between JSON
    text and trees following ECMA-404 and reads and writes instants in
    the date-time format [YYYY-MM-DDTHH:mm:ss.sssZ] (with the expanded
    years [+YYYYYY] and [-YYYYYY]).  It recognises no other date format,
    and of the numbers it reads the integer literals: any other string,
    number or object handed to [new Date] is answered with the Invalid
    Date. *)
Module Reference.

(** ** Writing JSON text *)

Definition hex_digit (n : N) : char16 :=
  (if n <? 10 then 48 + n else 87 + n)%N.

(** The escape [\uXXXX] of a code unit. *)
Definition unicode_escape (c : char16) : jsstring :=
  [92; 117; hex_digit (c / 4096 mod 16); hex_digit (c / 256 mod 16);
   hex_digit (c / 16 mod 16); hex_digit (c mod 16)]%N.

Definition is_high_surrogate (c : char16) : bool := ((55296 <=? c) && (c <=? 56319))%N.
Definition is_low_surrogate (c : char16) : bool := ((56320 <=? c) && (c <=? 57343))%N.

Fixpoint quote_chars (s : jsstring) : jsstring :=
  match s with
  | [] => []
  | c :: rest =>
      if (c =? 34)%N then [92; 34]%N ++ quote_chars rest
      else if (c =? 92)%N then [92; 92]%N ++ quote_chars rest
      else if (c =? 8)%N then [92; 98]%N ++ quote_chars rest
      else if (c =? 12)%N then [92; 102]%N ++ quote_chars rest
      else if (c =? 10)%N then [92; 110]%N ++ quote_chars rest
      else if (c =? 13)%N then [92; 114]%N ++ quote_chars rest
      else if (c =? 9)%N then [92; 116]%N ++ quote_chars rest
      else if (c <? 32)%N then unicode_escape c ++ quote_chars rest
      else if is_high_surrogate c then
        match rest with
        | d :: rest' =>
            if is_low_surrogate d then c :: d :: quote_chars rest'
            else unicode_escape c ++ quote_chars rest
        | [] => unicode_escape c
        end
      else if is_low_surrogate c then unicode_escape c ++ quote_chars rest
      else c :: quote_chars rest
  end.

(** [QuoteJSONString] *)
Definition quote (s : jsstring) : jsstring :=
  [dquote] ++ quote_chars s ++ [dquote].

Definition comma_separated (pieces : list jsstring) : jsstring := join 44%N pieces.

Fixpoint stringify (j : json) : jsstring :=
  match j with
  | JNull => js "null"
  | JBool true => js "true"
  | JBool false => js "false"
  | JNum n => n
  | JStr s => quote s
  | JArr items => js "[" ++ comma_separated (List.map stringify items) ++ js "]"
  | JObj props =>
      js "{" ++
      comma_separated
        (List.map (fun kv => quote (fst kv) ++ js ":" ++ stringify (snd kv)) props)
      ++ js "}"
  end.

(** ** Reading JSON text *)

Definition is_json_space (c : char16) : bool :=
  ((c =? 32) || (c =? 9) || (c =? 10) || (c =? 13))%N.

Fixpoint skip_space (s : jsstring) : jsstring :=
  match s with
  | c :: rest => if is_json_space c then skip_space rest else s
  | [] => []
  end.

Definition is_digit (c : char16) : bool := ((48 <=? c) && (c <=? 57))%N.

Definition hex_value (c : char16) : option N :=
  (if is_digit c then Some (c - 48)
   else if (97 <=? c) && (c <=? 102) then Some (c - 87)
   else if (65 <=? c) && (c <=? 70) then Some (c - 55)
   else None)%N.

(** The characters of a string literal after its opening quote, up to
    and including the closing quote. *)
Fixpoint parse_string (s : jsstring) : option (jsstring * jsstring) :=
  match s with
  | [] => None
  | c :: rest =>
      if (c =? 34)%N then Some ([], rest)
      else if (c <? 32)%N then None
      else if (c =? 92)%N then
        match rest with
        | e :: rest' =>
            let simple (u : char16) :=
              match parse_string rest' with
              | Some (str, r) => Some (u :: str, r)
              | None => None
              end in
            if (e =? 34)%N then simple 34%N
            else if (e =? 92)%N then simple 92%N
            else if (e =? 47)%N then simple 47%N
            else if (e =? 98)%N then simple 8%N
            else if (e =? 102)%N then simple 12%N
            else if (e =? 110)%N then simple 10%N
            else if (e =? 114)%N then simple 13%N
            else if (e =? 116)%N then simple 9%N
            else if (e =? 117)%N then
              match rest' with
              | h1 :: h2 :: h3 :: h4 :: rest'' =>
                  match hex_value h1, hex_value h2, hex_value h3, hex_value h4 with
                  | Some a, Some b, Some c', Some d =>
                      match parse_string rest'' with
                      | Some (str, r) =>
                          Some ((a * 4096 + b * 256 + c' * 16 + d)%N :: str, r)
                      | None => None
                      end
                  | _, _, _, _ => None
                  end
              | _ => None
              end
            else None
        | [] => None
        end
      else
        match parse_string rest with
        | Some (str, r) => Some (c :: str, r)
        | None => None
        end
  end.

Fixpoint take_digits (s : jsstring) : jsstring * jsstring :=
  match s with
  | c :: rest =>
      if is_digit c then let '(ds, r) := take_digits rest in (c :: ds, r)
      else ([], s)
  | [] => ([], [])
  end.

(** A number literal: [-? int frac? exp?], handed back as written. *)
Definition parse_number (s : jsstring) : option (jsstring * jsstring) :=
  let '(sign, s1) :=
    match s with
    | c :: rest => if (c =? 45)%N then ([c], rest) else ([], s)
    | [] => ([], s)
    end in
  let '(int, s2) := take_digits s1 in
  match int with
  | [] => None
  | d :: more =>
      if (d =? 48)%N && negb (bool_decide (more = [])) then None
      else
        let frac :=
          match s2 with
          | c :: rest =>
              if (c =? 46)%N then
                let '(ds, r) := take_digits rest in
                match ds with [] => None | _ => Some (c :: ds, r) end
              else Some ([], s2)
          | [] => Some ([], s2)
          end in
        match frac with
        | None => None
        | Some (fr, s3) =>
            let exp :=
              match s3 with
              | c :: rest =>
                  if (c =? 101)%N || (c =? 69)%N then
                    let '(sg, r1) :=
                      match rest with
                      | g :: r => if (g =? 43)%N || (g =? 45)%N then ([g], r) else ([], rest)
                      | [] => ([], rest)
                      end in
                    let '(ds, r2) := take_digits r1 in
                    match ds with [] => None | _ => Some (c :: sg ++ ds, r2) end
                  else Some ([], s3)
              | [] => Some ([], s3)
              end in
            match exp with
            | None => None
            | Some (ex, s4) => Some (sign ++ int ++ fr ++ ex, s4)
            end
        end
  end.

(** Defining property [k] of an object under construction: a duplicate
    key keeps its place and takes the new value. *)
Fixpoint define (k : jsstring) (v : json) (props : list (jsstring * json))
    : list (jsstring * json) :=
  match props with
  | [] => [(k, v)]
  | (k', v') :: rest =>
      if str_eqb k' k then (k', v) :: rest else (k', v') :: define k v rest
  end.

Fixpoint parse_value (fuel : nat) (s : jsstring) : option (json * jsstring) :=
  match fuel with
  | O => None
  | S fuel' =>
      match skip_space s with
      | [] => None
      | c :: rest =>
          if (c =? 34)%N then
            match parse_string rest with
            | Some (str, r) => Some (JStr str, r)
            | None => None
            end
          else if (c =? 91)%N then
            match skip_space rest with
            | d :: r =>
                if (d =? 93)%N then Some (JArr [], r)
                else match parse_elements fuel' rest with
                     | Some (items, r') => Some (JArr items, r')
                     | None => None
                     end
            | [] => None
            end
          else if (c =? 123)%N then
            match skip_space rest with
            | d :: r =>
                if (d =? 125)%N then Some (JObj [], r)
                else match parse_members fuel' [] rest with
                     | Some (props, r') => Some (JObj props, r')
                     | None => None
                     end
            | [] => None
            end
          else if starts_with (js "null") (c :: rest)
          then Some (JNull, skipn 4 (c :: rest))
          else if starts_with (js "true") (c :: rest)
          then Some (JBool true, skipn 4 (c :: rest))
          else if starts_with (js "false") (c :: rest)
          then Some (JBool false, skipn 5 (c :: rest))
          else
            match parse_number (c :: rest) with
            | Some (n, r) => Some (JNum n, r)
            | None => None
            end
      end
  end
with parse_elements (fuel : nat) (s : jsstring) : option (list json * jsstring) :=
  match fuel with
  | O => None
  | S fuel' =>
      match parse_value fuel' s with
      | Some (v, r) =>
          match skip_space r with
          | c :: r' =>
              if (c =? 44)%N then
                match parse_elements fuel' r' with
                | Some (vs, r'') => Some (v :: vs, r'')
                | None => None
                end
              else if (c =? 93)%N then Some ([v], r')
              else None
          | [] => None
          end
      | None => None
      end
  end
with parse_members (fuel : nat) (acc : list (jsstring * json)) (s : jsstring)
    : option (list (jsstring * json) * jsstring) :=
  match fuel with
  | O => None
  | S fuel' =>
      match skip_space s with
      | q :: r0 =>
          if (q =? 34)%N then
            match parse_string r0 with
            | Some (k, r1) =>
                match skip_space r1 with
                | c :: r2 =>
                    if (c =? 58)%N then
                      match parse_value fuel' r2 with
                      | Some (v, r3) =>
                          match skip_space r3 with
                          | d :: r4 =>
                              if (d =? 44)%N then parse_members fuel' (define k v acc) r4
                              else if (d =? 125)%N then Some (define k v acc, r4)
                              else None
                          | [] => None
                          end
                      | None => None
                      end
                    else None
                | [] => None
                end
            | None => None
            end
          else None
      | [] => None
      end
  end.

(** [JSON.parse]: one value, nothing but white space after it. *)
Definition parse (s : jsstring) : option json :=
  match parse_value (2 * length s + 2) s with
  | Some (v, r) => match skip_space r with [] => Some v | _ :: _ => None end
  | None => None
  end.

(** ** Instants *)

Definition msPerDay : Z := 86400000.
Definition maxTime : Z := 8640000000000000.

(** [TimeClip] *)
Definition timeClip (t : Z) : Date :=
  if (- maxTime <=? t) && (t <=? maxTime) then ValidDate t else InvalidDate.

(** Day number (days since 1970-01-01) to proleptic Gregorian date. *)
Definition civil_from_days (days : Z) : Z * Z * Z :=
  let z := days + 719468 in
  let era := z / 146097 in
  let doe := z - era * 146097 in
  let yoe := (doe - doe / 1460 + doe / 36524 - doe / 146096) / 365 in
  let doy := doe - (365 * yoe + yoe / 4 - yoe / 100) in
  let mp := (5 * doy + 2) / 153 in
  let d := doy - (153 * mp + 2) / 5 + 1 in
  let m := if mp <? 10 then mp + 3 else mp - 9 in
  let y := yoe + era * 400 + (if m <=? 2 then 1 else 0) in
  (y, m, d).

Definition days_from_civil (y m d : Z) : Z :=
  let y' := if m <=? 2 then y - 1 else y in
  let era := y' / 400 in
  let yoe := y' - era * 400 in
  let doy := (153 * (if 2 <? m then m - 3 else m + 9) + 2) / 5 + d - 1 in
  let doe := yoe * 365 + yoe / 4 - yoe / 100 + doy in
  era * 146097 + doe - 719468.

(** A year, month and day name a date of the calendar when the day
    number they denote is written back as the same three numbers. *)
Definition valid_date (y m d : Z) : bool :=
  match civil_from_days (days_from_civil y m d) with
  | (y', m', d') => (y' =? y) && (m' =? m) && (d' =? d)
  end.

(** [n] in decimal, zero-padded to [width] digits. *)
Fixpoint digits (width : nat) (n : Z) : jsstring :=
  match width with
  | O => []
  | S w => digits w (n / 10) ++ [Z.to_N (48 + n mod 10)]
  end.

Definition year_string (y : Z) : jsstring :=
  if (0 <=? y) && (y <=? 9999) then digits 4 y
  else if y <? 0 then js "-" ++ digits 6 (- y)
  else js "+" ++ digits 6 y.

Definition isoString (t : Z) : jsstring :=
  let days := t / msPerDay in
  let ms := t mod msPerDay in
  let '(y, m, d) := civil_from_days days in
  year_string y ++ js "-" ++ digits 2 m ++ js "-" ++ digits 2 d ++ js "T"
  ++ digits 2 (ms / 3600000) ++ js ":" ++ digits 2 (ms / 60000 mod 60)
  ++ js ":" ++ digits 2 (ms / 1000 mod 60) ++ js "." ++ digits 3 (ms mod 1000)
  ++ js "Z".

(** Exactly [n] decimal digits at the head of [s]. *)
Fixpoint read_digits (n : nat) (acc : Z) (s : jsstring) : option (Z * jsstring) :=
  match n with
  | O => Some (acc, s)
  | S n' =>
      match s with
      | c :: rest =>
          if is_digit c then read_digits n' (10 * acc + Z.of_N (c - 48)) rest
          else None
      | [] => None
      end
  end.

Definition expect (c : char16) (s : jsstring) : option jsstring :=
  match s with
  | c' :: rest => if (c' =? c)%N then Some rest else None
  | [] => None
  end.

Definition read_year (s : jsstring) : option (Z * jsstring) :=
  match s with
  | c :: rest =>
      if (c =? 43)%N then read_digits 6 0 rest
      else if (c =? 45)%N then
        match read_digits 6 0 rest with
        | Some (y, r) => if y =? 0 then None else Some (- y, r)
        | None => None
        end
      else read_digits 4 0 s
  | [] => None
  end.

Definition read_instant (s : jsstring) : option Z :=
  '(y, s) ← read_year s;
  s ← expect 45%N s;
  '(m, s) ← read_digits 2 0 s;
  s ← expect 45%N s;
  '(d, s) ← read_digits 2 0 s;
  s ← expect 84%N s;
  '(hh, s) ← read_digits 2 0 s;
  s ← expect 58%N s;
  '(mm, s) ← read_digits 2 0 s;
  s ← expect 58%N s;
  '(ss, s) ← read_digits 2 0 s;
  s ← expect 46%N s;
  '(ms, s) ← read_digits 3 0 s;
  s ← expect 90%N s;
  match s with
  | [] =>
      if valid_date y m d && (hh <=? 23) && (mm <=? 59) && (ss <=? 59)
      then Some (days_from_civil y m d * msPerDay
                 + hh * 3600000 + mm * 60000 + ss * 1000 + ms)
      else None
  | _ :: _ => None
  end.

Definition date_of_string (s : jsstring) : Date :=
  match read_instant s with
  | Some t => timeClip t
  | None => InvalidDate
  end.

Fixpoint decimal_value (acc : Z) (s : jsstring) : option Z :=
  match s with
  | [] => Some acc
  | c :: rest =>
      if is_digit c then decimal_value (10 * acc + Z.of_N (c - 48)) rest
      else None
  end.

Definition date_of_number (literal : jsstring) : Date :=
  match literal with
  | c :: rest =>
      if (c =? 45)%N then
        match decimal_value 0 rest with
        | Some n => timeClip (- n)
        | None => InvalidDate
        end
      else
        match decimal_value 0 literal with
        | Some n => timeClip n
        | None => InvalidDate
        end
  | [] => InvalidDate
  end.

(** A number is falsy when it is zero: no digit of its mantissa
    differs from [0]. *)
Fixpoint mantissa_nonzero (literal : jsstring) : bool :=
  match literal with
  | [] => false
  | c :: rest =>
      if (c =? 101)%N || (c =? 69)%N then false
      else ((49 <=? c) && (c <=? 57))%N || mantissa_nonzero rest
  end.

Definition host : Platform := {|
  JSON_parse := parse;
  JSON_stringify := stringify;
  toISOString := isoString;
  Date_of_string := date_of_string;
  Date_of_number := date_of_number;
  Date_of_object := fun _ => Some InvalidDate;
  number_truthy := mantissa_nonzero
|}.

(** ** Vocabulary for the properties of the reference host *)

(** Trees of plain data: no numbers, no key twice in an object. *)
Fixpoint plain (j : json) : bool :=
  match j with
  | JNum _ => false
  | JArr items => forallb plain items
  | JObj props =>
      bool_decide (NoDup (List.map fst props))
      && forallb (fun kv => plain (snd kv)) props
  | _ => true
  end.

(** Number of values in a tree, each array item and object member
    counted once more. *)
Fixpoint size (j : json) : nat :=
  match j with
  | JArr items => S (list_sum (List.map (fun i => S (size i)) items))
  | JObj props => S (list_sum (List.map (fun kv => S (size (snd kv))) props))
  | _ => 1
  end.

Definition member_text (kv : jsstring * json) : jsstring :=
  quote (fst kv) ++ js ":" ++ stringify (snd kv).

(** The first character of the text of a plain value. *)
Definition opener (c : char16) : Prop :=
  In c [34; 91; 123; 110; 116; 102]%N.

(** The text of [j] is read back as [j], whatever follows it, given
    fuel for its size. *)
Definition reads_back (j : json) : Prop :=
  forall fuel rest, (size j <= fuel)%nat ->
    parse_value fuel (stringify j ++ rest) = Some (j, rest).

End Reference.

(* ================================================================== *)
(** * HD image generator view ([HDImageGenerator] component) *)
(* ================================================================== *)

Module HDView.
Import Gemini.

Record State := {
  prompt : jsstring;
  aspectRatio : AspectRatio;
  generatedImageUrl : option jsstring;
  loading : bool;
  statusMessage : jsstring;
  error : option jsstring;
  apiKeySelected : bool
}.

Definition initial : State :=
  {| prompt := []; aspectRatio := ar_1_1; generatedImageUrl := None;
     loading := false; statusMessage := []; error := None;
     apiKeySelected := false |}.

Definition setPrompt v (s : State) : State :=
  {| prompt := v; aspectRatio := aspectRatio s;
     generatedImageUrl := generatedImageUrl s; loading := loading s;
     statusMessage := statusMessage s; error := error s;
     apiKeySelected := apiKeySelected s |}.
Definition setAspectRatio v (s : State) : State :=
  {| prompt := prompt s; aspectRatio := v;
     generatedImageUrl := generatedImageUrl s; loading := loading s;
     statusMessage := statusMessage s; error := error s;
     apiKeySelected := apiKeySelected s |}.
Definition setGeneratedImageUrl v (s : State) : State :=
  {| prompt := prompt s; aspectRatio := aspectRatio s;
     generatedImageUrl := v; loading := loading s;
     statusMessage := statusMessage s; error := error s;
     apiKeySelected := apiKeySelected s |}.
Definition setLoading v (s : State) : State :=
  {| prompt := prompt s; aspectRatio := aspectRatio s;
     generatedImageUrl := generatedImageUrl s; loading := v;
     statusMessage := statusMessage s; error := error s;
     apiKeySelected := apiKeySelected s |}.
Definition setStatusMessage v (s : State) : State :=
  {| prompt := prompt s; aspectRatio := aspectRatio s;
     generatedImageUrl := generatedImageUrl s; loading := loading s;
     statusMessage := v; error := error s;
     apiKeySelected := apiKeySelected s |}.
Definition setError v (s : State) : State :=
  {| prompt := prompt s; aspectRatio := aspectRatio s;
     generatedImageUrl := generatedImageUrl s; loading := loading s;
     statusMessage := statusMessage s; error := v;
     apiKeySelected := apiKeySelected s |}.
Definition setApiKeySelected v (s : State) : State :=
  {| prompt := prompt s; aspectRatio := aspectRatio s;
     generatedImageUrl := generatedImageUrl s; loading := loading s;
     statusMessage := statusMessage s; error := error s;
     apiKeySelected := v |}.

(** The effect run on mount, once [window.aistudio.hasSelectedApiKey()]
    has answered [selected]. *)
Definition checkApiKey (selected : bool) (s : State) : State :=
  let s1 := setApiKeySelected selected s in
  if negb selected
  then setStatusMessage
         (js "Please select your API key for HD image generation (billing required).") s1
  else setStatusMessage (js "Ready to generate HD images!") s1.


(** A string that is defined and not empty. *)
Definition truthy_string (o : option jsstring) : option jsstring :=
  match o with
  | Some v => if truthy v then Some v else None
  | None => None
  end.

(** What the handler does with the completion of the gateway call. *)
Definition settle (s1 : State)
    (o : Outcome GeminiHDImageGenerationResponse) : M State :=
  match o with
  | Ret response =>
      match truthy_string (imageUrl response) with
      | Some url =>
          mret (setStatusMessage (js "HD image generated successfully!")
                  (setGeneratedImageUrl (Some url) s1))
      | None =>
          match truthy_string (hd_error response) with
          | Some err =>
              let s2 := setError (Some err) s1 in
              if includes err (js "API key issue")
              then mret (setStatusMessage
                           (js "API key issue: HD image generation requires billing. Please ensure your API key is enabled for billing and re-select it.")
                           (setApiKeySelected false s2))
              else mret (setStatusMessage [] s2)
          | None =>
              mret (setStatusMessage []
                      (setError (Some (js "Failed to generate HD image.")) s1))
          end
      end
  | Throw err =>
      console_error "HD image generation failed:" (LoggedError err) ;;
      mret (setStatusMessage []
              (setError (Some (js "An unexpected error occurred: "
                               ++ message_or_unknown err)) s1))
  end.


Definition handleClear (s : State) : State :=
  setStatusMessage
    (if apiKeySelected s then js "Ready to generate HD images!"
     else js "Please select your API key for HD image generation (billing required).")
    (setError None
       (setLoading false
          (setGeneratedImageUrl None
             (setAspectRatio ar_1_1 (setPrompt [] s))))).

End HDView.

(* ================================================================== *)
(** * Image editor view ([ImageEditor] component) *)
(* ================================================================== *)

Module EditorView.
Import Gemini.

(** The view's state cells and the value of its file input, when the
    input is mounted. *)
Record State := {
  selectedFile : option File;
  imagePrompt : jsstring;
  originalImageUrl : option jsstring;
  editedImageUrl : option jsstring;
  loading : bool;
  error : option jsstring;
  fileInput : option jsstring
}.

Definition initial : State :=
  {| selectedFile := None; imagePrompt := []; originalImageUrl := None;
     editedImageUrl := None; loading := false; error := None;
     fileInput := Some [] |}.

Definition setSelectedFile v (s : State) : State :=
  {| selectedFile := v; imagePrompt := imagePrompt s;
     originalImageUrl := originalImageUrl s; editedImageUrl := editedImageUrl s;
     loading := loading s; error := error s; fileInput := fileInput s |}.
Definition setImagePrompt v (s : State) : State :=
  {| selectedFile := selectedFile s; imagePrompt := v;
     originalImageUrl := originalImageUrl s; editedImageUrl := editedImageUrl s;
     loading := loading s; error := error s; fileInput := fileInput s |}.
Definition setOriginalImageUrl v (s : State) : State :=
  {| selectedFile := selectedFile s; imagePrompt := imagePrompt s;
     originalImageUrl := v; editedImageUrl := editedImageUrl s;
     loading := loading s; error := error s; fileInput := fileInput s |}.
Definition setEditedImageUrl v (s : State) : State :=
  {| selectedFile := selectedFile s; imagePrompt := imagePrompt s;
     originalImageUrl := originalImageUrl s; editedImageUrl := v;
     loading := loading s; error := error s; fileInput := fileInput s |}.
Definition setLoading v (s : State) : State :=
  {| selectedFile := selectedFile s; imagePrompt := imagePrompt s;
     originalImageUrl := originalImageUrl s; editedImageUrl := editedImageUrl s;
     loading := v; error := error s; fileInput := fileInput s |}.
Definition setError v (s : State) : State :=
  {| selectedFile := selectedFile s; imagePrompt := imagePrompt s;
     originalImageUrl := originalImageUrl s; editedImageUrl := editedImageUrl s;
     loading := loading s; error := v; fileInput := fileInput s |}.
Definition setFileInput v (s : State) : State :=
  {| selectedFile := selectedFile s; imagePrompt := imagePrompt s;
     originalImageUrl := originalImageUrl s; editedImageUrl := editedImageUrl s;
     loading := loading s; error := error s; fileInput := v |}.

(** [handleFileChange], for the first file of the change event, if
    any; [createObjectURL] is [URL.createObjectURL]. *)
Definition handleFileChange (createObjectURL : File -> jsstring)
    (file : option File) (s : State) : State :=
  match file with
  | Some f =>
      if starts_with (js "image/") (file_type f)
      then setError None
             (setEditedImageUrl None
                (setOriginalImageUrl (Some (createObjectURL f))
                   (setSelectedFile (Some f) s)))
      else setError (Some (js "Please select a valid image file (jpeg, png, gif, webp)."))
             (setOriginalImageUrl None (setSelectedFile None s))
  | None =>
      setError (Some (js "Please select a valid image file (jpeg, png, gif, webp)."))
        (setOriginalImageUrl None (setSelectedFile None s))
  end.

(** What the handler does with the completion of the gateway call. *)
Definition settle (s1 : State)
    (o : Outcome GeminiImageEditResponse) : M State :=
  match o with
  | Ret response =>
      match HDView.truthy_string (edit_imageUrl response) with
      | Some url => mret (setEditedImageUrl (Some url) s1)
      | None =>
          match HDView.truthy_string (edit_error response) with
          | Some err => mret (setError (Some err) s1)
          | None => mret s1
          end
      end
  | Throw err =>
      console_error "Image editing failed:" (LoggedError err) ;;
      mret (setError (Some (js "An unexpected error occurred during image editing.")) s1)
  end.

Definition handleEditImage (env : Env) (s : State) : M State :=
  match selectedFile s with
  | None =>
      mret (setError (Some (js "Please upload an image and provide an editing prompt.")) s)
  | Some file =>
      if str_eqb (trim (imagePrompt s)) []
      then mret (setError (Some (js "Please upload an image and provide an editing prompt.")) s)
      else
        let s1 := setEditedImageUrl None (setError None (setLoading true s)) in
        o ← attempt (editImageWithGemini env file (imagePrompt s));
        s2 ← settle s1 o;
        mret (setLoading false s2)
  end.

Definition handleClear (s : State) : State :=
  let s1 := setError None
              (setEditedImageUrl None
                 (setOriginalImageUrl None
                    (setImagePrompt [] (setSelectedFile None s)))) in
  match fileInput s1 with
  | Some _ => setFileInput (Some []) s1
  | None => s1
  end.

(** The view holds nothing but an image: a selected file has an image
    type and a preview, and there is no preview without a file. *)
Definition holdsImage (s : State) : Prop :=
  match selectedFile s with
  | Some f =>
      starts_with (js "image/") (file_type f) = true /\ is_Some (originalImageUrl s)
  | None => originalImageUrl s = None
  end.

End EditorView.

(* ================================================================== *)
(** * The slideshow view as the user drives it *)
(* ================================================================== *)

Module SlideshowView.
Import Slideshow.

(** [slides[currentSlideIndex] || 'Your awesome slideshow will appear here!'] *)
Definition currentSlideText (s : State) : jsstring :=
  match nth_error (slides s) (currentSlideIndex s) with
  | Some t => if truthy t then t else js "Your awesome slideshow will appear here!"
  | None => js "Your awesome slideshow will appear here!"
  end.

(** The click on "Clear" followed by the committed render. *)
Definition clear (s : State) : State := commit s (handleClear s).

(** What can happen to the view: the user edits the text area, clicks
    one of the two buttons, or the browser fires a timer. *)
Inductive Action :=
| Edit (text : jsstring)
| Generate
| Clear
| Fire (h : positive).

(** The [disabled] attributes of the text area and of the buttons. *)
Definition enabled (a : Action) (s : State) : bool :=
  match a with
  | Edit _ => negb (isPlaying s || loading s)
  | Generate =>
      negb (isPlaying s || loading s || str_eqb (trim (inputText s)) [])
  | Clear =>
      negb (loading s
            || (str_eqb (inputText s) [] && (length (slides s) =? 0)%nat
                && negb (isPlaying s)))
  | Fire _ => true
  end.

Definition act (a : Action) (s : State) : State :=
  if enabled a s then
    match a with
    | Edit text => setInputText text s
    | Generate => generate s
    | Clear => clear s
    | Fire h => fire h s
    end
  else s.

Definition run (actions : list Action) (s : State) : State :=
  fold_left (fun s a => act a s) actions s.

(** The timer table agrees with the player: at rest nothing is armed
    and no handle is held; while playing exactly one timer is armed, the
    one whose handle is held, with the slide duration as its delay. *)
Definition OneTimer (s : State) : Prop :=
  (isPlaying s = false /\ timeoutRef s = None /\ armed s = [])
  \/ (isPlaying s = true
      /\ exists h, timeoutRef s = Some h
                   /\ armed s = [{| handle := h; delay := SLIDE_DURATION_MS |}]).

(** The slides held are at most [MAX_SLIDES] non-empty lines and the
    index points at one of them (or is 0 when there is none). *)
Definition InBounds (s : State) : Prop :=
  (length (slides s) <= MAX_SLIDES)%nat
  /\ Forall (fun line => line <> []) (slides s)
  /\ ((currentSlideIndex s < length (slides s))%nat
      \/ (isPlaying s = false /\ slides s = [] /\ currentSlideIndex s = 0%nat)).

End SlideshowView.

(* ================================================================== *)
(** * Vocabulary for the conduct of the three operations *)
(* ================================================================== *)

Module Conduct.
Import Gemini.

(** The world after [console.error(label, e)]. *)
Definition logged (w : World) (label : string) (e : JsError) : World :=
  {| heap := heap w; trace := trace w ++ [ConsoleError (js label) (LoggedError e)] |}.

(** The world after [console.error(label, e)] and the opening of the
    key dialog. *)
Definition referred (w : World) (label : string) (e : JsError) : World :=
  {| heap := heap w;
     trace := trace w ++ [ConsoleError (js label) (LoggedError e); OpenSelectKey] |}.

(** No usable credential is configured: [process.env.API_KEY] is
    undefined or empty. *)
Definition unconfigured (env : Env) : Prop :=
  forall k, API_KEY env = Some k -> k = [].

(** The error [getGeminiClient] throws. *)
Definition notSet : JsError :=
  mkError "API_KEY is not set. Please ensure it is configured in your environment.".

(** The number of round trips to the remote service among [events]. *)
Definition remoteCalls (events : list Event) : nat :=
  length (List.filter is_remote_call events).

(** A computation that makes at most [n] round trips. *)
Definition spends (n : nat) {A} (m : M A) : Prop :=
  forall w o w', m w = (o, w') ->
    exists new, trace w' = trace w ++ new /\ (remoteCalls new <= n)%nat.

(** A computation whose normal results all satisfy [Q]. *)
Definition yields {A} (Q : A -> Prop) (m : M A) : Prop :=
  forall w a w', m w = (Ret a, w') -> Q a.

(** The text a stream delivers: its chunks' texts, one after the other,
    a chunk without text counting for nothing. *)
Definition streamed (s : Stream) : jsstring :=
  List.concat (List.map (fun c : Chunk => default [] c) (chunks s)).

(** The request [editImageWithGemini] builds from the data URL [url]
    read from [imageFile]. *)
Definition editRequest (imageFile : File) (prompt url : jsstring)
    : GenerateContentParameters :=
  {| gc_model := IMAGE_EDIT_MODEL_NAME;
     gc_image := {| inlineData := {| data := nth_error (split 44%N url) 1;
                                     mimeType := Some (file_type imageFile) |} |};
     gc_prompt := prompt;
     responseModalities := IMAGE_RESPONSE_MODALITIES |}.

(** The request [generateHDImageWithGemini] builds. *)
Definition hdRequest (prompt : jsstring) (ratio : AspectRatio)
    : GenerateImagesParameters :=
  {| gi_model := HD_IMAGE_GEN_MODEL_NAME; gi_prompt := trim prompt;
     numberOfImages := 1; outputMimeType := js "image/jpeg";
     aspectRatio := ratio |}.

(** A computation that keeps every stored array: it may only add new
    ones. *)
Definition grows {A} (m : M A) : Prop :=
  forall w o w', m w = (o, w') ->
    forall l c, heap w !! l = Some c -> heap w' !! l = Some c.

(** The message of the user that a submission adds to the transcript. *)
Definition asked (sub : Chat.Submission) : ChatMessage :=
  let '(_, clock, text) := sub in
  {| id := toString (clock 0%nat); sender := user; Types.text := trim text;
     timestamp := ValidDate (clock 1%nat) |}.


(** An image result is a data URL and no error, or an error message and
    no image. *)
Definition pictured (url error : option jsstring) : Prop :=
  (exists u, url = Some u /\ error = None /\ starts_with (js "data:") u = true)
  \/ (url = None /\ exists msg, error = Some msg /\ msg <> []).

End Conduct.

(* ================================================================== *)
(** * Example data *)
(* ================================================================== *)

Module Examples.
Import Gemini.

(** A host whose remote calls all fail with the message [m]. *)
Definition failingEnv (m : string) : Env := {|
  API_KEY := Some (js "key");
  chats_create := fun _ => None;
  sendMessageStream := fun _ _ => Throw (mkError m);
  chat_history := fun p _ => history p;
  readAsDataURL := fun _ => Ret (js "data:image/png;base64,AAAA");
  generateContent := fun _ => Throw (mkError m);
  generateImages := fun _ => Throw (mkError m);
  openSelectKey := None
|}.

(** A host whose chat stream answers in three chunks. *)
Definition answeringEnv : Env := {|
  API_KEY := Some (js "key");
  chats_create := fun _ => None;
  sendMessageStream := fun _ _ =>
    Ret {| chunks := [Some (js "Bilkul! "); None; Some (js "Chal ab!  ")];
           failure := None |};
  chat_history := fun p msg =>
    history p ++ [ {| role := js "user"; parts := [ {| part_text := msg |} ] |};
                   {| role := js "model";
                      parts := [ {| part_text := js "Bilkul! Chal ab!  " |} ] |} ];
  readAsDataURL := fun _ => Ret (js "data:image/png;base64,AAAA");
  generateContent := fun _ => Ret {| candidates := None |};
  generateImages := fun _ => Ret {| generatedImages := None |};
  openSelectKey := None
|}.

Definition greeting : ChatMessage :=
  {| id := js "welcome"; sender := bhaii;
     Types.text := js "Namaste! Kya haal hai, mere bhai/behen? Kaise ho tum?";
     timestamp := ValidDate 1700000000000 |}.

(** A store holding the transcript [[greeting]] at place 1. *)
Definition greeted : World :=
  {| heap := {[ 1%positive := MessageArray [greeting] ]}; trace := [] |}.

Definition picture : File :=
  {| file_type := js "image/png"; file_name := js "cat.png" |}.

(** Eight lines, some padded with blanks, typed into a fresh player. *)
Definition eightLines : list jsstring :=
  [js "one"; js "  two"; js "three  "; js "four"; js "five"; js " six ";
   js "seven"; js "eight"].

(** A host that reports the entity-not-found condition and has no key
    dialog to open: the chat operation itself throws. *)
Definition throwingEnv : Env := {|
  API_KEY := Some (js "key");
  chats_create := fun _ => None;
  sendMessageStream := fun _ _ => Throw (mkError "Requested entity was not found.");
  chat_history := fun p _ => history p;
  readAsDataURL := fun _ => Ret (js "data:image/png;base64,AAAA");
  generateContent := fun _ => Throw (mkError "Requested entity was not found.");
  generateImages := fun _ => Throw (mkError "Requested entity was not found.");
  openSelectKey := Some (mkError "window.aistudio is undefined")
|}.

(** A host whose chat stream ends without a chunk. *)
Definition silentEnv : Env := {|
  API_KEY := Some (js "key");
  chats_create := fun _ => None;
  sendMessageStream := fun _ _ => Ret {| chunks := []; failure := None |};
  chat_history := fun p msg =>
    history p ++ [ {| role := js "user"; parts := [ {| part_text := msg |} ] |} ];
  readAsDataURL := fun _ => Ret (js "data:image/png;base64,AAAA");
  generateContent := fun _ => Ret {| candidates := None |};
  generateImages := fun _ => Ret {| generatedImages := None |};
  openSelectKey := None
|}.

(** The chat view over the store [greeted], a message typed in. *)
Definition typing : Chat.State :=
  {| Chat.userName := js "Ravi"; Chat.rememberMe := true;
     Chat.chatHistory := 1%positive; Chat.inputMessage := js "  Kya haal hai? ";
     Chat.loading := false |}.

(** A clock that advances by 7 ms from one reading to the next. *)
Definition tickingClock : Chat.Clock := fun n => 1700000000123 + 7 * Z.of_nat n.

(** The text of the assistant's turn after the submission [typing] is
    handled on the host [env]. *)
Definition replyText (env : Env) : option jsstring :=
  match Chat.handleSendMessage env tickingClock typing greeted with
  | (Ret s', w') =>
      match Chat.transcript s' w' with
      | Some [_; _; reply] => Some (Types.text reply)
      | _ => None
      end
  | _ => None
  end.

Definition firstTurn : ChatMessage :=
  {| id := js "1700000000123"; sender := user;
     Types.text := jsq "Bhaii, 'kya haal hai'?" ++ [NL] ++ js "\o/";
     timestamp := ValidDate 1700000000123 |}.
Definition secondTurn : ChatMessage :=
  {| id := js "1700000000457"; sender := bhaii;
     Types.text := js "Bilkul! Sab theek.";
     timestamp := ValidDate 1700000002500 |}.
Definition remembered : UserPreferences :=
  {| name := js "Ravi"; rememberMe := true; lastChat := [firstTurn; secondTurn] |}.
Definition forgotten : UserPreferences :=
  {| name := js "Ravi"; rememberMe := false; lastChat := [] |}.
End Examples.

(* ================================================================== *)
(** * More example hosts *)
(* ================================================================== *)

Module Scenarios.
Import Gemini.

(** A host without a credential. *)
Definition unconfiguredEnv : Env := {|
  API_KEY := None;
  chats_create := fun _ => None;
  sendMessageStream := fun _ _ => Ret {| chunks := [Some (js "hi")]; failure := None |};
  chat_history := fun p _ => history p;
  readAsDataURL := fun _ => Ret (js "data:image/png;base64,AAAA");
  generateContent := fun _ => Ret {| candidates := None |};
  generateImages := fun _ => Ret {| generatedImages := None |};
  openSelectKey := None
|}.

(** A host whose key is no longer known to the remote service; the key
    dialog opens. *)
Definition expiredEnv : Env := {|
  API_KEY := Some (js "key");
  chats_create := fun _ => None;
  sendMessageStream := fun _ _ => Throw (mkError "Requested entity was not found.");
  chat_history := fun p _ => history p;
  readAsDataURL := fun _ => Ret (js "data:image/png;base64,AAAA");
  generateContent := fun _ => Throw (mkError "Requested entity was not found.");
  generateImages := fun _ => Throw (mkError "Requested entity was not found.");
  openSelectKey := None
|}.

(** A host that answers every image request with a picture. *)
Definition paintingEnv : Env := {|
  API_KEY := Some (js "key");
  chats_create := fun _ => None;
  sendMessageStream := fun _ _ =>
    Ret {| chunks := [Some (js " Haan "); Some []; None; Some (js "bhai ")];
           failure := None |};
  chat_history := fun p _ => history p;
  readAsDataURL := fun _ => Ret (js "data:image/png;base64,AAAA");
  generateContent := fun _ =>
    Ret {| candidates :=
             Some [ {| content :=
                         Some {| content_parts :=
                                   Some [ {| part_inlineData :=
                                               Some {| mimeType := Some (js "image/png");
                                                       data := Some (js "BBBB") |} |} ] |} |} ] |};
  generateImages := fun _ =>
    Ret {| generatedImages :=
             Some [ {| image := Some {| imageBytes := Some (js "CCCC");
                                        image_mimeType := Some (js "image/jpeg") |} |} ] |};
  openSelectKey := None
|}.

(** A host whose chat stream breaks after its first chunk. *)
Definition breakingEnv : Env := {|
  API_KEY := Some (js "key");
  chats_create := fun _ => None;
  sendMessageStream := fun _ _ =>
    Ret {| chunks := [Some (js "Haan")]; failure := Some (mkError "stream reset") |};
  chat_history := fun p _ => history p;
  readAsDataURL := fun _ => Ret (js "data:image/png;base64,AAAA");
  generateContent := fun _ => Ret {| candidates := None |};
  generateImages := fun _ => Ret {| generatedImages := None |};
  openSelectKey := None
|}.

End Scenarios.

(* ================================================================== *)
(** * Properties of the slideshow player *)
(* ================================================================== *)

Module SlideshowFacts.
Import Slideshow Examples.

Lemma existsb_armed_last (l : list Timer) h d :
  existsb (fun t => Pos.eqb (handle t) h) (l ++ [{| handle := h; delay := d |}]) = true.
Proof.
  rewrite existsb_app. simpl. rewrite Pos.eqb_refl. now rewrite orb_true_r.
Qed.

Lemma clearRef_fields (s : State) :
  isPlaying (clearRef s) = isPlaying s /\ slides (clearRef s) = slides s /\
  currentSlideIndex (clearRef s) = currentSlideIndex s /\
  timeoutRef (clearRef s) = timeoutRef s.
Proof.
  unfold clearRef. destruct (timeoutRef s) eqn:E; cbn; repeat split; auto.
Qed.

Lemma timerEffect_playing (s : State) :
  isPlaying s = true -> slides s <> [] ->
  timerEffect s =
  setTimeoutRef (Some (nextHandle (clearRef s)))
                (snd (setTimeout SLIDE_DURATION_MS (clearRef s))).
Proof.
  intros Hp Hs. unfold timerEffect. rewrite Hp.
  destruct (slides s) as [|x l] eqn:E; [congruence|].
  reflexivity.
Qed.

Lemma timerEffect_arms (s : State) :
  isPlaying s = true -> slides s <> [] ->
  Playing (timerEffect (timerCleanup s)) (currentSlideIndex s) /\
  slides (timerEffect (timerCleanup s)) = slides s.
Proof.
  intros Hp Hs. unfold timerCleanup.
  destruct (clearRef_fields s) as (E1 & E2 & E3 & E4).
  destruct (clearRef_fields (clearRef s)) as (F1 & F2 & F3 & F4).
  rewrite timerEffect_playing by congruence.
  unfold Playing. cbn. rewrite F1, F2, F3, E1, E2, E3.
  repeat split; auto.
  eexists. split; [reflexivity|]. apply existsb_armed_last.
Qed.

Lemma tick_advances (s : State) (k : nat) :
  Playing s k -> (S k < length (slides s))%nat ->
  Playing (tick s) (S k) /\ slides (tick s) = slides s.
Proof.
  intros (Hp & Hi & h & Hr & Ha) Hlt.
  unfold tick. rewrite Hr. unfold fire. rewrite Ha.
  unfold advanceIndex. cbn [clearTimeout currentSlideIndex slides].
  rewrite Hi.
  destruct (Z.ltb_spec (Z.of_nat k) (Z.of_nat (length (slides s)) - 1)) as [_|Hge]; [|lia].
  unfold commit.
  assert (Hd : depsChanged s (setCurrentSlideIndex (k + 1) (clearTimeout h s)) = true).
  { unfold depsChanged. apply negb_true_iff, bool_decide_eq_false.
    cbn. intros (_ & He & _). lia. }
  rewrite Hd.
  destruct (timerEffect_arms (setCurrentSlideIndex (k + 1) (clearTimeout h s))) as [HP HS].
  - exact Hp.
  - cbn. intros E. rewrite E in Hlt. simpl in Hlt. lia.
  - cbv zeta in HP, HS. split.
    + replace (S k) with (k + 1)%nat by lia. exact HP.
    + exact HS.
Qed.

Lemma tick_finishes (s : State) (k : nat) :
  Playing s k -> S k = length (slides s) ->
  Idle (tick s) /\ currentSlideIndex (tick s) = 0%nat /\ slides (tick s) = slides s.
Proof.
  intros (Hp & Hi & h & Hr & Ha) Hlen.
  unfold tick. rewrite Hr. unfold fire. rewrite Ha.
  unfold advanceIndex. cbn [clearTimeout currentSlideIndex slides].
  rewrite Hi.
  destruct (Z.ltb_spec (Z.of_nat k) (Z.of_nat (length (slides s)) - 1)) as [Hl|_]; [lia|].
  unfold commit.
  assert (Hd : depsChanged s
                 (setCurrentSlideIndex 0
                    (setStatusMessage (js "Slideshow finished! You can generate another one.")
                       (stopSlideshow (clearTimeout h s)))) = true).
  { unfold depsChanged. apply negb_true_iff, bool_decide_eq_false.
    unfold stopSlideshow. cbn. rewrite Hr. cbn. rewrite Hp. intros (He & _). discriminate. }
  rewrite Hd.
  unfold stopSlideshow. cbn [clearTimeout timeoutRef]. rewrite Hr.
  unfold timerEffect, timerCleanup, clearRef. cbn.
  repeat split.
Qed.

Lemma playing_run (n : nat) : forall (s : State) (k : nat),
  Playing s k -> (k + n < length (slides s))%nat ->
  Playing (ticks n s) (k + n) /\ slides (ticks n s) = slides s.
Proof.
  induction n as [|n IH]; intros s k HP Hlt.
  - simpl. rewrite Nat.add_0_r. auto.
  - simpl. destruct (tick_advances s k HP) as [HP' HS']; [lia|].
    destruct (IH (tick s) (S k) HP') as [HP'' HS'']; [rewrite HS'; lia|].
    replace (k + S n)%nat with (S k + n)%nat by lia.
    split; [exact HP''|congruence].
Qed.

Lemma ticks_add n m s : ticks (n + m) s = ticks m (ticks n s).
Proof. revert s. induction n; intros s; simpl; auto. Qed.

Lemma generate_starts (s : State) :
  generatedSlides (inputText s) <> [] ->
  isPlaying s = false ->
  Playing (generate s) 0 /\ slides (generate s) = generatedSlides (inputText s).
Proof.
  intros Hne Hidle. unfold generate, commit.
  assert (Hg : handleGenerate s =
               setLoading false
                 (startSlideshow (generatedSlides (inputText s))
                    (stopSlideshow (setError None (setLoading true s))))).
  { unfold handleGenerate. destruct (generatedSlides (inputText s)); [congruence|reflexivity]. }
  rewrite Hg. clear Hg.
  destruct (generatedSlides (inputText s)) as [|x l] eqn:E; [congruence|].
  assert (Hd : depsChanged s
                 (setLoading false
                    (startSlideshow (x :: l)
                       (stopSlideshow (setError None (setLoading true s))))) = true).
  { unfold depsChanged. apply negb_true_iff, bool_decide_eq_false.
    cbn. rewrite Hidle. intros (He & _). discriminate. }
  rewrite Hd.
  apply (timerEffect_arms
           (setLoading false
              (startSlideshow (x :: l)
                 (stopSlideshow (setError None (setLoading true s)))))).
  - reflexivity.
  - cbn. discriminate.
Qed.

(** ** Splitting the text area into lines *)

Lemma split_sep_free (sep : char16) (l : jsstring) :
  ~ In sep l -> split sep l = [l].
Proof.
  induction l as [|c l IH]; intros Hn; simpl; [reflexivity|].
  destruct (N.eqb_spec c sep) as [->|Hc]; [exfalso; apply Hn; now left|].
  rewrite IH; [reflexivity|]. intros Hin. apply Hn. now right.
Qed.

Lemma split_app_sep (sep : char16) (l r : jsstring) :
  ~ In sep l -> split sep (l ++ sep :: r) = l :: split sep r.
Proof.
  induction l as [|c l IH]; intros Hn; simpl.
  - now rewrite N.eqb_refl.
  - destruct (N.eqb_spec c sep) as [->|Hc]; [exfalso; apply Hn; now left|].
    rewrite IH; [reflexivity|]. intros Hin. apply Hn. now right.
Qed.

Lemma split_join (sep : char16) (ls : list jsstring) :
  ls <> [] -> Forall (fun l => ~ In sep l) ls -> split sep (join sep ls) = ls.
Proof.
  induction ls as [|l ls IH]; intros Hne Hall; [congruence|].
  inversion Hall as [|? ? Hl Hls]; subst.
  destruct ls as [|l' ls'].
  - simpl. now apply split_sep_free.
  - change (join sep (l :: l' :: ls')) with (l ++ sep :: join sep (l' :: ls')).
    rewrite split_app_sep by assumption.
    f_equal. apply IH; [discriminate|assumption].
Qed.

Lemma filter_nonempty_all (ls : list jsstring) :
  Forall (fun l => l <> []) ls ->
  List.filter (fun line => 0 <? Z.of_nat (length line)) ls = ls.
Proof.
  induction 1 as [|l ls Hl _ IH]; simpl; [reflexivity|].
  destruct l; [congruence|]. simpl length.
  destruct (Z.ltb_spec 0 (Z.of_nat (S (length l)))); [|lia].
  now rewrite IH.
Qed.

(** The boolean test of the source, [line.length > 0], selects the
    lines that are not empty. *)
Lemma rawLines_trimmedLines (text : jsstring) :
  List.filter (fun line => 0 <? Z.of_nat (length line))
              (List.map trim (split NL text)) = trimmedLines text.
Proof.
  unfold trimmedLines. change (trim <$> split NL text) with (List.map trim (split NL text)).
  induction (List.map trim (split NL text)) as [|l ls IH]; [reflexivity|].
  rewrite filter_cons. cbn [List.filter]. rewrite IH. destruct l as [|c l].
  - rewrite decide_False by congruence. reflexivity.
  - simpl length. destruct (Z.ltb_spec 0 (Z.of_nat (S (length l)))); [|lia].
    rewrite decide_True by discriminate. reflexivity.
Qed.

Lemma generatedSlides_lines (lines : list jsstring) :
  lines <> [] -> Forall slideLine lines ->
  generatedSlides (join NL lines) = List.map trim (firstn MAX_SLIDES lines).
Proof.
  intros Hne Hall. unfold generatedSlides.
  rewrite split_join; [|assumption|].
  - rewrite filter_nonempty_all.
    + apply firstn_map.
    + apply List.Forall_forall. intros x Hx. apply in_map_iff in Hx as (l & <- & Hl).
      rewrite List.Forall_forall in Hall. now apply Hall.
  - eapply List.Forall_impl; [|exact Hall]. intros l [_ H]. exact H.
Qed.

Lemma handleGenerate_slides (s : State) :
  generatedSlides (inputText s) <> [] ->
  slides (handleGenerate s) = generatedSlides (inputText s)
  /\ isPlaying (handleGenerate s) = true
  /\ currentSlideIndex (handleGenerate s) = 0%nat.
Proof.
  intros Hne. unfold handleGenerate.
  destruct (generatedSlides (inputText s)) as [|x l]; [congruence|].
  repeat split.
Qed.

(** C6. For every text in the text area, the slides generated are the
    lines of the text that are non-empty once trimmed, trimmed, in order,
    cut to the first [MAX_SLIDES] = 6; when there is at least one, they
    become the slides of the player.  The text [A\nB\n\nC] yields the
    slides [A], [B], [C]; eight non-blank lines yield the first six. *)
Theorem generate_keeps_first_lines (s : State) :
  let kept := generatedSlides (inputText s) in
  MAX_SLIDES = 6%nat
  /\ kept = firstn 6 (trimmedLines (inputText s))
  /\ (length kept <= 6)%nat
  /\ (kept <> [] ->
      slides (handleGenerate s) = kept
      /\ isPlaying (handleGenerate s) = true
      /\ currentSlideIndex (handleGenerate s) = 0%nat)
  /\ (inputText s = js "A" ++ [NL] ++ js "B" ++ [NL; NL] ++ js "C" ->
      slides (handleGenerate s) = [js "A"; js "B"; js "C"])
  /\ (forall lines : list jsstring,
        length lines = 8%nat -> Forall slideLine lines ->
        inputText s = join NL lines ->
        slides (handleGenerate s) = List.map trim (firstn 6 lines)
        /\ length (slides (handleGenerate s)) = 6%nat).
Proof.
  intros kept. subst kept.
  assert (Hk : generatedSlides (inputText s) = firstn 6 (trimmedLines (inputText s))).
  { unfold generatedSlides. now rewrite rawLines_trimmedLines. }
  split; [reflexivity|]. split; [exact Hk|].
  split; [rewrite Hk; apply firstn_le_length|].
  split; [apply handleGenerate_slides|].
  split.
  - intros Htext.
    assert (Hg : generatedSlides (inputText s) = [js "A"; js "B"; js "C"])
      by (rewrite Htext; reflexivity).
    destruct (handleGenerate_slides s) as (Hs & _); [rewrite Hg; discriminate|].
    now rewrite Hs.
  - intros lines Hlen Hall Htext.
    assert (Hg : generatedSlides (inputText s) = List.map trim (firstn 6 lines)).
    { rewrite Htext. apply generatedSlides_lines; [|exact Hall].
      destruct lines; [discriminate|discriminate]. }
    assert (Hlen6 : length (List.map trim (firstn 6 lines)) = 6%nat).
    { rewrite length_map, length_firstn. lia. }
    destruct (handleGenerate_slides s) as (Hs & _).
    + rewrite Hg. intros E. rewrite E in Hlen6. discriminate.
    + rewrite Hs, Hg. split; [reflexivity|exact Hlen6].
Qed.

Lemma generate_keeps_first_lines_witness :
  slides (handleGenerate (setInputText (join NL eightLines) initial))
  = [js "one"; js "two"; js "three"; js "four"; js "five"; js "six"].
Proof.
  destruct (generate_keeps_first_lines (setInputText (join NL eightLines) initial))
    as (_ & _ & _ & _ & _ & H).
  destruct (H eightLines) as [Hs _].
  - reflexivity.
  - unfold eightLines.
    repeat (apply List.Forall_cons;
            [split; [vm_compute; discriminate
                    | vm_compute; intros Hin; repeat destruct Hin as [Hin|Hin]; try discriminate; exact Hin]|]).
    apply List.Forall_nil.
  - reflexivity.
  - rewrite Hs. reflexivity.
Defined.

(** C7. With [N >= 1] slides and the player showing slide 0, each of
    the first [N - 1] timer advances moves to the next slide, and the
    [N]-th one stops the player and shows slide 0 again. *)
Theorem playback_returns_to_idle (s : State) (N : nat) :
  (1 <= N)%nat -> length (slides s) = N -> Playing s 0 ->
  (forall k, (k < N)%nat ->
             isPlaying (ticks k s) = true /\ currentSlideIndex (ticks k s) = k)
  /\ Idle (ticks N s)
  /\ currentSlideIndex (ticks N s) = 0%nat.
Proof.
  intros HN Hlen HP. split.
  - intros k Hk. destruct (playing_run k s 0 HP) as [(Hp & Hi & _) _]; [lia|].
    simpl in Hi. auto.
  - destruct N as [|n]; [lia|].
    destruct (playing_run n s 0 HP) as [HPn HSn]; [lia|].
    replace (S n) with (n + 1)%nat by lia. rewrite ticks_add. simpl.
    destruct (tick_finishes (ticks n s) (0 + n) HPn) as (HI & H0 & _).
    + rewrite HSn. simpl. lia.
    + split; assumption.
Qed.

Lemma playback_returns_to_idle_witness :
  let s := generate (setInputText (js "A" ++ [NL] ++ js "B" ++ [NL; NL] ++ js "C") initial) in
  isPlaying (ticks 2 s) = true /\ currentSlideIndex (ticks 2 s) = 2%nat
  /\ Idle (ticks 3 s) /\ currentSlideIndex (ticks 3 s) = 0%nat.
Proof.
  intros s.
  destruct (playback_returns_to_idle s 3) as (Hk & HI & H0).
  - lia.
  - reflexivity.
  - vm_compute. repeat split. eexists. split; reflexivity.
  - destruct (Hk 2%nat) as [Hp Hi]; [lia|]. auto.
Defined.

End SlideshowFacts.

(* ================================================================== *)
(** * Properties of the AI gateway *)
(* ================================================================== *)

Module GeminiFacts.
Import Gemini Examples.

Lemma bind_run {A B} (m : M A) (k : A -> M B) (w : World) :
  (m ≫= k) w = match m w with
               | (Ret a, w') => k a w'
               | (Throw e, w') => (Throw e, w')
               end.
Proof. reflexivity. Qed.

(** ** Computations that leave the store alone *)

Lemma stable_ret {A} (a : A) : stable (mret a).
Proof. intros w o w' H. inversion H. reflexivity. Qed.

Lemma stable_throw {A} (e : JsError) : stable (@throw A e).
Proof. intros w o w' H. inversion H. reflexivity. Qed.

Lemma stable_bind {A B} (m : M A) (k : A -> M B) :
  stable m -> (forall a, stable (k a)) -> stable (m ≫= k).
Proof.
  intros Hm Hk w o w' H. rewrite bind_run in H.
  destruct (m w) as [[a|e] w1] eqn:E.
  - rewrite (Hk a w1 o w' H). eauto.
  - inversion H; subst. eauto.
Qed.

Lemma stable_try_catch {A} (m : M A) (h : JsError -> M A) :
  stable m -> (forall e, stable (h e)) -> stable (try_catch m h).
Proof.
  intros Hm Hh w o w' H. unfold try_catch in H.
  destruct (m w) as [[a|e] w1] eqn:E.
  - inversion H; subst. eauto.
  - rewrite (Hh e w1 o w' H). eauto.
Qed.

Lemma stable_emit (e : Event) : stable (emit e).
Proof. intros w o w' H. inversion H. reflexivity. Qed.

Lemma stable_answer {A} (o : Outcome A) : stable (answer o).
Proof. destruct o; [apply stable_ret | apply stable_throw]. Qed.

Lemma stable_read (l : loc) : stable (read_messages l).
Proof.
  intros w o w' H. unfold read_messages in H.
  destruct (heap w !! l) as [[ms|cs]|]; inversion H; reflexivity.
Qed.

Lemma stable_console_error label d : stable (console_error label d).
Proof. apply stable_emit. Qed.

Create HintDb stable discriminated.
#[local] Hint Resolve stable_throw stable_emit stable_answer stable_read
  stable_console_error : stable.
#[local] Hint Extern 1 (stable (mret _)) => apply stable_ret : stable.
#[local] Hint Extern 1 (stable (ret _)) => apply stable_ret : stable.
#[local] Hint Extern 2 (stable (_ ≫= _)) => apply stable_bind; [|intros ?] : stable.
#[local] Hint Extern 2 (stable (try_catch _ _)) =>
  apply stable_try_catch; [|intros ?] : stable.
#[local] Hint Extern 3 (stable (match ?x with _ => _ end)) => destruct x : stable.
#[local] Hint Extern 3 (stable (if ?x then _ else _)) => destruct x : stable.

Lemma stable_getGeminiClient env : stable (getGeminiClient env).
Proof. unfold getGeminiClient. auto 6 with stable. Qed.

Lemma stable_openSelectKey env : stable (aistudio_openSelectKey env).
Proof. unfold aistudio_openSelectKey. auto 6 with stable. Qed.

#[local] Hint Resolve stable_getGeminiClient stable_openSelectKey : stable.

Lemma stable_chatCatch env e : stable (chatCatch env e).
Proof. unfold chatCatch. auto 10 with stable. Qed.

(** ** Computations that write one place of the store *)

Lemma writes_stable (l : loc) {A} (m : M A) : stable m -> writes l m.
Proof. intros Hm w o w' H. left. eauto. Qed.

Lemma writes_store (l : loc) (c : Cell) : writes l (store l c).
Proof. intros w o w' H. inversion H; subst. right. eauto. Qed.

Lemma writes_bind (l : loc) {A B} (m : M A) (k : A -> M B) :
  writes l m -> (forall a, writes l (k a)) -> writes l (m ≫= k).
Proof.
  intros Hm Hk w o w' H. rewrite bind_run in H.
  destruct (m w) as [[a|e] w1] eqn:E.
  - destruct (Hm _ _ _ E) as [E1|(c1 & E1)];
      destruct (Hk a _ _ _ H) as [E2|(c2 & E2)]; rewrite E2, E1; eauto.
    right. exists c2. apply insert_insert_eq.
  - inversion H; subst. eauto.
Qed.

(** ** Events of a computation *)

Lemma emitted_app (w w' : World) (new : list Event) :
  trace w' = trace w ++ new -> emitted w w' = new.
Proof. intros H. unfold emitted. rewrite H. apply drop_app_length. Qed.

Section Emits.
Context (P : Event -> Prop).

Lemma emits_ret {A} (a : A) : emits P (mret a).
Proof.
  intros w o w' H. inversion H; subst. exists []. now rewrite app_nil_r.
Qed.

Lemma emits_throw {A} (e : JsError) : emits P (@throw A e).
Proof.
  intros w o w' H. inversion H; subst. exists []. now rewrite app_nil_r.
Qed.

Lemma emits_emit (e : Event) : P e -> emits P (emit e).
Proof.
  intros He w o w' H. inversion H; subst. exists [e]. split; [reflexivity|].
  now constructor.
Qed.

Lemma emits_bind {A B} (m : M A) (k : A -> M B) :
  emits P m -> (forall a, emits P (k a)) -> emits P (m ≫= k).
Proof.
  intros Hm Hk w o w' H. rewrite bind_run in H.
  destruct (m w) as [[a|e] w1] eqn:E.
  - destruct (Hm _ _ _ E) as (n1 & T1 & F1).
    destruct (Hk a _ _ _ H) as (n2 & T2 & F2).
    exists (n1 ++ n2). rewrite T2, T1, app_assoc. split; [reflexivity|].
    now apply Forall_app.
  - inversion H; subst. eauto.
Qed.

Lemma emits_try_catch {A} (m : M A) (h : JsError -> M A) :
  emits P m -> (forall e, emits P (h e)) -> emits P (try_catch m h).
Proof.
  intros Hm Hh w o w' H. unfold try_catch in H.
  destruct (m w) as [[a|e] w1] eqn:E.
  - inversion H; subst. eauto.
  - destruct (Hm _ _ _ E) as (n1 & T1 & F1).
    destruct (Hh e _ _ _ H) as (n2 & T2 & F2).
    exists (n1 ++ n2). rewrite T2, T1, app_assoc. split; [reflexivity|].
    now apply Forall_app.
Qed.

Lemma emits_answer {A} (o : Outcome A) : emits P (answer o).
Proof. destruct o; [apply emits_ret | apply emits_throw]. Qed.

Lemma emits_read (l : loc) : emits P (read_messages l).
Proof.
  intros w o w' H. unfold read_messages in H. exists [].
  rewrite app_nil_r.
  destruct (heap w !! l) as [[ms|cs]|]; inversion H; auto.
Qed.

Lemma emits_alloc (c : Cell) : emits P (alloc c).
Proof.
  intros w o w' H. inversion H; subst. exists []. now rewrite app_nil_r.
Qed.

Lemma emits_store (l : loc) (c : Cell) : emits P (store l c).
Proof.
  intros w o w' H. inversion H; subst. exists []. now rewrite app_nil_r.
Qed.

Lemma emits_getGeminiClient env : emits P (getGeminiClient env).
Proof.
  unfold getGeminiClient.
  destruct (API_KEY env) as [k|]; [destruct (truthy k)|];
    auto using emits_throw. apply (emits_ret (A := GoogleGenAI)).
Qed.

End Emits.

(** Opening the key dialog is no round trip to the AI service. *)
Lemma emits_openSelectKey (P : Event -> Prop) env :
  P OpenSelectKey -> emits P (aistudio_openSelectKey env).
Proof.
  intros HP. unfold aistudio_openSelectKey.
  apply emits_bind; [now apply emits_emit|]. intros _.
  destruct (openSelectKey env); [apply emits_throw | apply (emits_ret P tt)].
Qed.

(** Walk down a computation, leaving one goal per emitted event. *)
Ltac emits_steps :=
  repeat first
    [ apply emits_ret | apply emits_throw | apply emits_answer
    | apply emits_read | apply emits_alloc | apply emits_store
    | apply emits_getGeminiClient
    | apply emits_openSelectKey | apply emits_emit
    | apply emits_bind; [|intros ?]
    | apply emits_try_catch; [|intros ?]
    | match goal with
      | |- emits _ (match ?x with _ => _ end) => destruct x
      | |- emits _ (if ?x then _ else _) => destruct x
      end ].

(** ** The chat operation and the store *)

Lemma getGeminiClient_world env w o w' :
  getGeminiClient env w = (o, w') -> w' = w.
Proof.
  unfold getGeminiClient.
  destruct (API_KEY env) as [k|]; [destruct (truthy k)|];
    intros H; inversion H; reflexivity.
Qed.

Lemma read_messages_run l w o w' :
  read_messages l w = (o, w') ->
  w' = w /\ forall msgs, o = Ret msgs -> heap w !! l = Some (MessageArray msgs).
Proof.
  unfold read_messages.
  destruct (heap w !! l) as [[ms|cs]|]; intros H; inversion H; subst;
    (split; [reflexivity|]); intros msgs E; inversion E; reflexivity.
Qed.

Lemma chatTry_heap env message history userName w o w' :
  chatTry env message history userName w = (o, w') ->
  heap w' = heap w
  \/ exists msgs c,
       heap w !! history = Some (MessageArray msgs)
       /\ heap w' = <[fresh (dom (heap w)) := c]> (heap w).
Proof.
  unfold chatTry. rewrite bind_run.
  destruct (getGeminiClient env w) as [[ai|e] w1] eqn:E1;
    apply getGeminiClient_world in E1; subst w1.
  2:{ intros H. inversion H; subst. now left. }
  rewrite bind_run.
  destruct (read_messages history w) as [[msgs|e] w2] eqn:E2;
    apply read_messages_run in E2 as [-> Hr].
  2:{ intros H. inversion H; subst. now left. }
  specialize (Hr msgs eq_refl).
  rewrite bind_run. cbn [alloc].
  set (l := fresh (dom (heap w))).
  intros H. right. exists msgs.
  match type of H with ?m ?w0 = _ =>
    assert (Hs : writes l m) end.
  { apply writes_bind; [apply writes_stable; auto with stable|intros _].
    apply writes_bind; [apply writes_stable; auto 6 with stable|intros _].
    apply writes_bind; [apply writes_stable; auto with stable|intros _].
    apply writes_bind; [apply writes_store|intros _].
    apply writes_stable. auto 12 with stable. }
  destruct (Hs _ _ _ H) as [->|(c & ->)]; cbn [heap].
  - eauto.
  - exists c. split; [exact Hr|]. apply insert_insert_eq.
Qed.

Lemma chatWithBhaii_heap env message history userName w o w' :
  chatWithBhaii env message history userName w = (o, w') ->
  heap w' = heap w
  \/ exists msgs c,
       heap w !! history = Some (MessageArray msgs)
       /\ heap w' = <[fresh (dom (heap w)) := c]> (heap w).
Proof.
  unfold chatWithBhaii, try_catch.
  destruct (chatTry env message history userName w) as [[r|e] w1] eqn:E.
  - intros H. inversion H; subst. eapply chatTry_heap; eauto.
  - intros H. rewrite (stable_chatCatch _ _ _ _ _ H). eapply chatTry_heap; eauto.
Qed.

Lemma fresh_lookup (h : gmap loc Cell) : h !! fresh (dom h) = None.
Proof. apply not_elem_of_dom, is_fresh. Qed.

(** Whatever the caller holds in the store is still there, unchanged,
    after the chat operation. *)
Lemma chatWithBhaii_frame env message history userName w o w' l c :
  chatWithBhaii env message history userName w = (o, w') ->
  heap w !! l = Some c -> heap w' !! l = Some c.
Proof.
  intros H Hl.
  destruct (chatWithBhaii_heap _ _ _ _ _ _ _ H) as [->|(msgs & c' & _ & ->)];
    [exact Hl|].
  rewrite lookup_insert_ne; [exact Hl|].
  intros E. rewrite <- E, fresh_lookup in Hl. discriminate.
Qed.

(** ** The role-tagged transcript *)

Lemma formatMessage_tagged (msgs : list ChatMessage) :
  Forall2 (roleTagged (js "model")) msgs (List.map formatMessage msgs).
Proof.
  induction msgs as [|m msgs IH]; simpl; constructor; [|exact IH].
  unfold roleTagged, formatMessage. cbn. destruct (sender m); split; reflexivity.
Qed.

Lemma chatCatch_emits msgs env e : emits (carries msgs) (chatCatch env e).
Proof.
  unfold chatCatch.
  emits_steps; intros p x; discriminate.
Qed.

Lemma chatTry_emits env message history userName w o w' msgs :
  heap w !! history = Some (MessageArray msgs) ->
  chatTry env message history userName w = (o, w') ->
  exists new, trace w' = trace w ++ new /\ Forall (carries msgs) new.
Proof.
  intros Hh. unfold chatTry. rewrite bind_run.
  destruct (getGeminiClient env w) as [[ai|e] w1] eqn:E1;
    apply getGeminiClient_world in E1; subst w1.
  2:{ intros H. inversion H; subst. exists []. now rewrite app_nil_r. }
  rewrite bind_run. unfold read_messages at 1. rewrite Hh.
  rewrite bind_run. cbn [alloc].
  intros H.
  match type of H with ?m ?w0 = _ =>
    assert (Hs : emits (carries msgs) m) end.
  { emits_steps; intros p x E; inversion E; reflexivity. }
  exact (Hs _ _ _ H).
Qed.

Lemma chatWithBhaii_emits env message history userName w o w' msgs :
  heap w !! history = Some (MessageArray msgs) ->
  chatWithBhaii env message history userName w = (o, w') ->
  exists new, trace w' = trace w ++ new /\ Forall (carries msgs) new.
Proof.
  intros Hh. unfold chatWithBhaii, try_catch.
  destruct (chatTry env message history userName w) as [[r|e] w1] eqn:E;
    destruct (chatTry_emits _ _ _ _ _ _ _ _ Hh E) as (n1 & T1 & F1).
  - intros H. inversion H; subst. eauto.
  - intros H. destruct (chatCatch_emits msgs _ _ _ _ _ H) as (n2 & T2 & F2).
    exists (n1 ++ n2). rewrite T2, T1, app_assoc. split; [reflexivity|].
    now apply Forall_app.
Qed.

(** C10. The chat operation leaves the array of prior turns it was
    given as it is, entries and order, whatever the remote service
    answers and whatever the chat instance does with the array it was
    created with; so it leaves every other array of the caller.  The
    role-tagged transcript is a new array: the only place of the store
    the operation writes is a fresh one, which is not the place of the
    prior turns, and every request it sends carries the transcript built
    from them. *)
Theorem chat_leaves_history_unchanged
    (env : Env) (message : jsstring) (history : loc) (userName : jsstring)
    (w : World) :
  let w' := snd (chatWithBhaii env message history userName w) in
  heap w' !! history = heap w !! history
  /\ (forall l, is_Some (heap w !! l) -> heap w' !! l = heap w !! l)
  /\ (forall l, heap w !! l = None -> is_Some (heap w' !! l) ->
        l = fresh (dom (heap w)) /\ l <> history)
  /\ (forall msgs, heap w !! history = Some (MessageArray msgs) ->
        forall p x, In (SendMessageStream p x) (emitted w w') ->
                    Gemini.history p = List.map formatMessage msgs).
Proof.
  destruct (chatWithBhaii env message history userName w) as [o w'] eqn:E.
  cbn [snd].
  assert (Hreq : forall msgs, heap w !! history = Some (MessageArray msgs) ->
            forall p x, In (SendMessageStream p x) (emitted w w') ->
                        Gemini.history p = List.map formatMessage msgs).
  { intros msgs Hh p x Hin.
    destruct (chatWithBhaii_emits _ _ _ _ _ _ _ _ Hh E) as (new & T & F).
    rewrite (emitted_app _ _ _ T) in Hin.
    rewrite List.Forall_forall in F. now rewrite (F _ Hin p x eq_refl). }
  destruct (chatWithBhaii_heap _ _ _ _ _ _ _ E) as [Hh|(msgs & c & Hm & Hh)]; rewrite Hh.
  - split; [reflexivity|]. split; [reflexivity|]. split; [|exact Hreq].
    intros l Hn [c Hs]. congruence.
  - assert (Hne : fresh (dom (heap w)) <> history).
    { intros E'. rewrite <- E', fresh_lookup in Hm. discriminate. }
    split; [now rewrite lookup_insert_ne|]. split; [|split; [|exact Hreq]].
    + intros l [c' Hl]. rewrite lookup_insert_ne; [reflexivity|].
      intros E'. rewrite <- E', fresh_lookup in Hl. discriminate.
    + intros l Hn [c' Hs].
      destruct (decide (fresh (dom (heap w)) = l)) as [<-|Hd].
      * split; [reflexivity|exact Hne].
      * rewrite lookup_insert_ne in Hs by exact Hd. congruence.
Qed.

(** With a credential and a chat instance, the request is sent: the
    run reaches the [await] on the stream with both events emitted. *)
Lemma chatTry_available env message history userName w msgs k :
  heap w !! history = Some (MessageArray msgs) ->
  API_KEY env = Some k -> truthy k = true ->
  chats_create env (chatParameters msgs) = None ->
  chatTry env message history userName w =
  (answer (sendMessageStream env (chatParameters msgs) (personalize userName message))
   ≫= fun streamResponse =>
        (match failure streamResponse with Some e => throw e | None => ret tt end)
        ≫= fun _ => ret {| text := trim (collect [] (chunks streamResponse));
                           error := None |})
    {| heap := <[fresh (dom (heap w)) :=
                   ContentArray (chat_history env (chatParameters msgs)
                                   (personalize userName message))]>
                 (<[fresh (dom (heap w)) := ContentArray (List.map formatMessage msgs)]>
                    (heap w));
       trace := (trace w ++ [ChatsCreate (chatParameters msgs)])
                ++ [SendMessageStream (chatParameters msgs)
                      (personalize userName message)] |}.
Proof.
  intros Hh Hk Ht Hc.
  unfold chatTry. rewrite bind_run. unfold getGeminiClient.
  rewrite Hk, Ht. cbn [ret]. rewrite bind_run. unfold read_messages at 1.
  rewrite Hh. rewrite bind_run. cbn [alloc]. rewrite bind_run. cbn [emit].
  rewrite bind_run. rewrite Hc. cbn [ret]. rewrite bind_run. cbn [emit].
  rewrite bind_run. cbn [store].
  reflexivity.
Qed.

Lemma chatWithBhaii_sends env message history userName w msgs k :
  heap w !! history = Some (MessageArray msgs) ->
  API_KEY env = Some k -> truthy k = true ->
  chats_create env (chatParameters msgs) = None ->
  In (SendMessageStream (chatParameters msgs) (personalize userName message))
     (emitted w (snd (chatWithBhaii env message history userName w))).
Proof.
  intros Hh Hk Ht Hc.
  unfold chatWithBhaii, try_catch.
  rewrite (chatTry_available _ _ _ _ _ _ _ Hh Hk Ht Hc).
  set (w2 := {| heap := _; trace := _ |}).
  match goal with |- context [(?m ≫= ?k) w2] => set (tail := m ≫= k) end.
  assert (Htail : emits (fun _ => True) tail)
    by (subst tail; emits_steps; exact I).
  assert (Hext : exists more, trace (snd (match tail w2 with
                                          | (Ret a, w') => (Ret a, w')
                                          | (Throw e, w') => chatCatch env e w'
                                          end)) = trace w2 ++ more).
  { destruct (tail w2) as [[r|e] w3] eqn:E3;
      destruct (Htail _ _ _ E3) as (n1 & T1 & _).
    - cbn [snd]. eauto.
    - assert (Hc' : emits (fun _ => True) (chatCatch env e))
        by (unfold chatCatch; emits_steps; exact I).
      destruct (chatCatch env e w3) as [o w4] eqn:E4.
      destruct (Hc' _ _ _ E4) as (n2 & T2 & _).
      exists (n1 ++ n2). cbn [snd]. now rewrite T2, T1, app_assoc. }
  destruct Hext as (more & Hmore).
  unfold emitted. rewrite Hmore. subst w2. cbn [trace].
  rewrite <- !app_assoc. rewrite drop_app_length.
  cbn. right. left. reflexivity.
Qed.

(** C2, amended.  Every chat request carries the prior turns in order,
    each as one role-tagged text unit: role [user] for a turn of the
    user and role [model] for a turn of the assistant; and with a
    credential and a chat instance the request is issued. *)
Theorem prior_turns_role_tagged
    (env : Env) (message : jsstring) (history : loc) (userName : jsstring)
    (w : World) (msgs : list ChatMessage) :
  heap w !! history = Some (MessageArray msgs) ->
  let w' := snd (chatWithBhaii env message history userName w) in
  requestsTagged (js "model") msgs (emitted w w')
  /\ (forall k, API_KEY env = Some k -> truthy k = true ->
                chats_create env (chatParameters msgs) = None ->
                exists p, In (SendMessageStream p (personalize userName message))
                             (emitted w w')
                          /\ Forall2 (roleTagged (js "model")) msgs (Gemini.history p)).
Proof.
  intros Hh w'. split.
  - intros p x Hin. subst w'.
    destruct (chatWithBhaii env message history userName w) as [o w1] eqn:E.
    destruct (chatWithBhaii_emits _ _ _ _ _ _ _ _ Hh E) as (new & T & F).
    cbn [snd] in Hin. rewrite (emitted_app _ _ _ T) in Hin.
    rewrite List.Forall_forall in F. rewrite (F _ Hin p x eq_refl).
    apply formatMessage_tagged.
  - intros k Hk Ht Hc. exists (chatParameters msgs). split.
    + eapply chatWithBhaii_sends; eauto.
    + apply formatMessage_tagged.
Qed.

Lemma prior_turns_role_tagged_witness :
  requestsTagged (js "model") [greeting]
    (emitted greeted (snd (chatWithBhaii answeringEnv (js "hi") 1%positive (js "Ravi") greeted))).
Proof.
  apply (prior_turns_role_tagged answeringEnv (js "hi") 1%positive (js "Ravi")
           greeted [greeting]).
  reflexivity.
Defined.

(** C2 as stated fails: the turn of the assistant goes out with the
    role [model], not [assistant]. *)
Lemma assistant_turn_not_tagged_assistant :
  heap greeted !! 1%positive = Some (MessageArray [greeting])
  /\ sender greeting = bhaii
  /\ ~ requestsTagged (js "assistant") [greeting]
        (emitted greeted
           (snd (chatWithBhaii answeringEnv (js "hi") 1%positive (js "Ravi") greeted))).
Proof.
  split; [reflexivity|]. split; [reflexivity|].
  intros H.
  specialize (H (chatParameters [greeting]) (personalize (js "Ravi") (js "hi"))).
  assert (Hin : In (SendMessageStream (chatParameters [greeting])
                      (personalize (js "Ravi") (js "hi")))
                   (emitted greeted
                      (snd (chatWithBhaii answeringEnv (js "hi") 1%positive (js "Ravi") greeted)))).
  { eapply chatWithBhaii_sends; reflexivity. }
  specialize (H Hin). inversion H as [|m c ms cs [Hrole _] _]; subst.
  vm_compute in Hrole. discriminate.
Qed.

(** ** Failures *)

(** A remote call that fails makes the [try] block of its operation
    throw the error of the call. *)
Lemma chat_remote_failure env message history userName w msgs k e :
  heap w !! history = Some (MessageArray msgs) ->
  API_KEY env = Some k -> truthy k = true ->
  chats_create env (chatParameters msgs) = None ->
  sendMessageStream env (chatParameters msgs) (personalize userName message) = Throw e ->
  fst (chatTry env message history userName w) = Throw e.
Proof.
  intros Hh Hk Ht Hc Hs.
  rewrite (chatTry_available _ _ _ _ _ _ _ Hh Hk Ht Hc).
  rewrite bind_run, Hs. reflexivity.
Qed.

Lemma edit_remote_failure env imageFile prompt w k url e :
  API_KEY env = Some k -> truthy k = true ->
  readAsDataURL env imageFile = Ret url ->
  generateContent env
    {| gc_model := IMAGE_EDIT_MODEL_NAME;
       gc_image := {| inlineData := {| data := nth_error (split 44%N url) 1;
                                       mimeType := Some (file_type imageFile) |} |};
       gc_prompt := prompt;
       responseModalities := IMAGE_RESPONSE_MODALITIES |} = Throw e ->
  fst (editTry env imageFile prompt w) = Throw e.
Proof.
  intros Hk Ht Hr Hg. unfold editTry. rewrite bind_run. unfold getGeminiClient.
  rewrite Hk, Ht. cbn [ret]. rewrite bind_run. unfold blobToBase64.
  rewrite bind_run. cbn [emit]. rewrite bind_run, Hr. cbn [answer ret].
  rewrite bind_run. cbn [emit]. rewrite bind_run, Hg. reflexivity.
Qed.

Lemma hd_remote_failure env prompt ratio w k e :
  API_KEY env = Some k -> truthy k = true ->
  truthy (trim prompt) = true ->
  generateImages env
    {| gi_model := HD_IMAGE_GEN_MODEL_NAME; gi_prompt := trim prompt;
       numberOfImages := 1; outputMimeType := js "image/jpeg";
       aspectRatio := ratio |} = Throw e ->
  fst (hdTry env prompt ratio w) = Throw e.
Proof.
  intros Hk Ht Hp Hg. unfold hdTry. rewrite bind_run. unfold getGeminiClient.
  rewrite Hk, Ht. cbn [ret]. rewrite Hp. cbn [negb].
  rewrite bind_run. cbn [emit]. rewrite bind_run, Hg. reflexivity.
Qed.




(** ** Validation of the prompt *)

Lemma trimStart_blank (s : jsstring) : blank s -> trimStart s = [].
Proof.
  induction 1 as [|c s Hc _ IH]; simpl; [reflexivity|]. now rewrite Hc.
Qed.

Lemma trim_blank (s : jsstring) : blank s -> trim s = [].
Proof. intros H. unfold trim. now rewrite trimStart_blank. Qed.

(** C8.  Given a prompt of white space only, the image generator
    returns a result with its error set and no image, and issues no
    call to the remote service, for every aspect ratio and whatever the
    environment. *)
Theorem blank_prompt_rejected
    (env : Env) (prompt : jsstring) (ratio : AspectRatio) (w : World) :
  blank prompt ->
  exists r w',
    generateHDImageWithGemini env prompt ratio w = (Ret r, w')
    /\ is_Some (hd_error r) /\ imageUrl r = None
    /\ Forall (fun e => is_remote_call e = false) (emitted w w')
    /\ ~ (exists p, In (GenerateImages p) (emitted w w')).
Proof.
  intros Hb. apply trim_blank in Hb.
  assert (Hnokey :
    generateHDImageWithGemini env prompt ratio w =
    (Ret {| imageUrl := None;
            hd_error := Some (js "Please provide a text prompt for image generation.") |}, w)
    \/ generateHDImageWithGemini env prompt ratio w =
       (Ret {| imageUrl := None;
               hd_error := Some (js "Failed to generate HD image: " ++
                                 js "API_KEY is not set. Please ensure it is configured in your environment.") |},
        {| heap := heap w;
           trace := trace w ++ [ConsoleError (js "Error generating HD image with Gemini:")
                                  (LoggedError (mkError "API_KEY is not set. Please ensure it is configured in your environment."))] |})).
  { unfold generateHDImageWithGemini, try_catch, hdTry. rewrite bind_run.
    unfold getGeminiClient.
    destruct (API_KEY env) as [k|]; [destruct (truthy k)|].
    - left. cbn [ret]. rewrite Hb. reflexivity.
    - right. reflexivity.
    - right. reflexivity. }
  destruct Hnokey as [-> | ->]; do 2 eexists; (split; [reflexivity|]); cbn [hd_error imageUrl].
  - split; [eauto|]. split; [reflexivity|].
    unfold emitted. rewrite drop_all. split; [constructor|]. intros (p & []).
  - split; [eauto|]. split; [reflexivity|].
    erewrite emitted_app by (cbn [trace]; reflexivity). split.
    + repeat constructor.
    + intros (p & [Hp|[]]). discriminate.
Qed.

Lemma blank_prompt_rejected_witness :
  exists r w',
    generateHDImageWithGemini answeringEnv [32; 9; 10; 160]%N ar_4_3 greeted = (Ret r, w')
    /\ is_Some (hd_error r) /\ imageUrl r = None
    /\ Forall (fun e => is_remote_call e = false) (emitted greeted w')
    /\ ~ (exists p, In (GenerateImages p) (emitted greeted w')).
Proof.
  apply (blank_prompt_rejected answeringEnv [32; 9; 10; 160]%N ar_4_3 greeted).
  repeat constructor.
Defined.

End GeminiFacts.

(* ================================================================== *)
(** * Properties of the session controller *)
(* ================================================================== *)

Module ChatFacts.
Import Gemini Chat Examples GeminiFacts.

Lemma transcript_read (s : State) (w : World) (msgs : list ChatMessage) :
  transcript s w = Some msgs ->
  read_messages (chatHistory s) w = (Ret msgs, w).
Proof.
  unfold transcript, read_messages.
  destruct (heap w !! chatHistory s) as [[ms|cs]|]; intros H; inversion H; reflexivity.
Qed.

Lemma transcript_heap (s : State) (w : World) (msgs : list ChatMessage) :
  heap w !! chatHistory s = Some (MessageArray msgs) -> transcript s w = Some msgs.
Proof. unfold transcript. now intros ->. Qed.

Lemma console_error_run (label : string) (d : Logged) (w : World) :
  console_error label d w =
  (Ret tt, {| heap := heap w; trace := trace w ++ [ConsoleError (js label) d] |}).
Proof. reflexivity. Qed.

(** Appending through the functional update: the new state points to a
    fresh array holding the previous entries followed by the new one. *)
Lemma appendMessage_run (m : ChatMessage) (s : State) (w : World)
    (prev : list ChatMessage) :
  transcript s w = Some prev ->
  exists l,
    appendMessage m s w =
      (Ret (setChatHistory l s),
       {| heap := <[l := MessageArray (prev ++ [m])]> (heap w); trace := trace w |})
    /\ heap w !! l = None.
Proof.
  intros Ht. exists (fresh (dom (heap w))). split; [|apply fresh_lookup].
  unfold appendMessage. rewrite bind_run, (transcript_read _ _ _ Ht).
  rewrite bind_run. reflexivity.
Qed.

(** What [settle] does with any completion of the gateway call. *)
Lemma settle_appends_one (clock : Clock) (s1 : State)
    (o : Outcome GeminiChatResponse) (w : World) (prev : list ChatMessage) :
  transcript s1 w = Some prev ->
  exists s' w' reply,
    settle clock s1 o w = (Ret s', w')
    /\ transcript s' w' = Some (prev ++ [reply])
    /\ sender reply = bhaii
    /\ loading s' = false
    /\ Types.text reply =
         match o with
         | Ret response => responseText response
         | Throw _ => js "Bhaii ko kuch dikkat ho gayi. Dobara try karo na."
         end.
Proof.
  intros Ht. destruct o as [response|e]; unfold settle.
  - set (m := {| id := _ |}).
    destruct (appendMessage_run m s1 w prev Ht) as (l & Hrun & _).
    rewrite bind_run, Hrun. do 3 eexists. split; [reflexivity|].
    split; [apply transcript_heap; cbn; apply lookup_insert_eq|].
    split; [reflexivity|split; reflexivity].
  - set (m := {| id := _ |}).
    rewrite bind_run, console_error_run.
    set (w2 := {| heap := heap w; trace := _ |}).
    destruct (appendMessage_run m s1 w2 prev) as (l & Hrun & _); [exact Ht|].
    rewrite bind_run, Hrun. do 3 eexists. split; [reflexivity|].
    split; [apply transcript_heap; cbn; apply lookup_insert_eq|].
    split; [reflexivity|split; reflexivity].
Qed.

(** The run of an accepted submission. *)
Lemma handleSendMessage_accepted
    (env : Env) (clock : Clock) (s : State) (w : World)
    (msgs : list ChatMessage) :
  transcript s w = Some msgs -> rejected s = false ->
  exists s' w' reply,
    handleSendMessage env clock s w = (Ret s', w')
    /\ transcript s' w' = Some (msgs ++ [newUserMessage clock s; reply])
    /\ length (msgs ++ [newUserMessage clock s; reply]) = (length msgs + 2)%nat
    /\ sender (newUserMessage clock s) = user
    /\ sender reply = bhaii
    /\ loading s' = false
    /\ ((exists response, Types.text reply = responseText response)
        \/ Types.text reply = js "Bhaii ko kuch dikkat ho gayi. Dobara try karo na.").
Proof.
  intros Ht Hacc. unfold handleSendMessage. rewrite Hacc.
  rewrite bind_run, (transcript_read _ _ _ Ht). rewrite bind_run. cbn [alloc].
  set (l := fresh (dom (heap w))).
  set (w1 := {| heap := _; trace := trace w |}).
  set (s1 := setLoading true _).
  rewrite bind_run. unfold attempt at 1.
  destruct (chatWithBhaii env (trim (inputMessage s)) l (userName s) w1)
    as [o w2] eqn:Ec.
  assert (Hl : transcript s1 w2 = Some (msgs ++ [newUserMessage clock s])).
  { apply transcript_heap. subst s1. cbn [chatHistory setLoading setInputMessage setChatHistory].
    eapply chatWithBhaii_frame; [exact Ec|]. subst w1. cbn [heap].
    apply lookup_insert_eq. }
  destruct (settle_appends_one clock s1 o w2 _ Hl) as (s' & w' & reply & Hs & Ht' & Hb & Hlo & Htx).
  exists s', w', reply. split; [exact Hs|].
  split; [rewrite Ht', <- app_assoc; reflexivity|].
  split; [rewrite length_app; simpl; lia|].
  split; [reflexivity|]. split; [exact Hb|]. split; [exact Hlo|].
  rewrite Htx. destruct o; [left; eauto | right; reflexivity].
Qed.

(** C1.  An accepted submission (non-empty trimmed input, no request
    in flight) runs to completion and leaves a transcript that is the
    previous one followed by the message of the user and then by exactly
    one turn of the assistant: two entries more, whether the gateway
    returned a text, returned an error or threw. *)
Theorem submission_appends_two
    (env : Env) (clock : Clock) (s : State) (w : World)
    (msgs : list ChatMessage) :
  transcript s w = Some msgs -> rejected s = false ->
  exists s' w' reply,
    handleSendMessage env clock s w = (Ret s', w')
    /\ transcript s' w' = Some (msgs ++ [newUserMessage clock s; reply])
    /\ length (msgs ++ [newUserMessage clock s; reply]) = (length msgs + 2)%nat
    /\ sender (newUserMessage clock s) = user
    /\ sender reply = bhaii
    /\ loading s' = false
    /\ ((exists response, Types.text reply = responseText response)
        \/ Types.text reply = js "Bhaii ko kuch dikkat ho gayi. Dobara try karo na.").
Proof. exact (handleSendMessage_accepted env clock s w msgs). Qed.

(** Any number of accepted submissions in a row: two entries more for
    each of them. *)
Lemma submitAll_appends_two_each (subs : list Submission) :
  forall (s : State) (w : World) (msgs : list ChatMessage),
    Forall (fun sub => trim (snd sub) <> []) subs ->
    transcript s w = Some msgs -> loading s = false ->
    exists s' w' msgs',
      submitAll subs s w = (Ret s', w')
      /\ transcript s' w' = Some msgs'
      /\ length msgs' = (length msgs + 2 * length subs)%nat
      /\ loading s' = false.
Proof.
  induction subs as [|[[env clock] text] subs IH]; intros s w msgs Hall Ht Hl.
  - exists s, w, msgs. split; [reflexivity|]. split; [exact Ht|].
    split; [simpl; lia|exact Hl].
  - inversion Hall as [|? ? Htext Hrest]; subst. cbn [snd] in Htext.
    destruct (handleSendMessage_accepted env clock (setInputMessage text s) w msgs)
      as (s1 & w1 & reply & Hrun & Ht1 & Hlen & _ & _ & Hl1 & _).
    + exact Ht.
    + unfold rejected, str_eqb. cbn [inputMessage setInputMessage loading].
      rewrite Hl, bool_decide_eq_false_2 by exact Htext. reflexivity.
    + destruct (IH s1 w1 _ Hrest Ht1 Hl1) as (s' & w' & msgs' & Hrun' & Ht' & Hlen' & Hl').
      exists s', w', msgs'. cbn [submitAll]. rewrite bind_run, Hrun.
      split; [exact Hrun'|]. split; [exact Ht'|]. split; [|exact Hl'].
      rewrite Hlen', Hlen. cbn [length]. lia.
Qed.


Lemma submission_appends_two_witness :
  exists s' w' reply,
    handleSendMessage throwingEnv tickingClock typing greeted = (Ret s', w')
    /\ transcript s' w'
       = Some ([greeting] ++ [newUserMessage tickingClock typing; reply])
    /\ length ([greeting] ++ [newUserMessage tickingClock typing; reply]) = (1 + 2)%nat
    /\ sender (newUserMessage tickingClock typing) = user
    /\ sender reply = bhaii
    /\ loading s' = false
    /\ ((exists response, Types.text reply = responseText response)
        \/ Types.text reply = js "Bhaii ko kuch dikkat ho gayi. Dobara try karo na.").
Proof.
  apply (submission_appends_two throwingEnv tickingClock typing greeted [greeting]);
    reflexivity.
Defined.

(** The three ways the gateway call can end, each run on the same
    submission: a text, an error result, an exception. *)
Example submission_outcomes :
  replyText answeringEnv = Some (js "Bilkul! Chal ab!")
  /\ replyText (failingEnv "fetch failed")
     = Some (js "Sorry, kuch gadbad ho gayi. Can you please try again?")
  /\ replyText throwingEnv
     = Some (js "Bhaii ko kuch dikkat ho gayi. Dobara try karo na.")
  /\ replyText silentEnv = Some (js "Oops, kuch error ho gaya.").
Proof. repeat split; vm_compute; reflexivity. Qed.


End ChatFacts.

(* ================================================================== *)
(** * Properties of the reference host *)
(* ================================================================== *)

Module ReferenceFacts.
Import Reference.

(** Induction on trees, with the hypothesis for every item of an array
    and every member of an object. *)
Lemma json_rect' (Q : json -> Prop) :
  Q JNull -> (forall b, Q (JBool b)) -> (forall n, Q (JNum n)) ->
  (forall s, Q (JStr s)) ->
  (forall items, Forall Q items -> Q (JArr items)) ->
  (forall props, Forall (fun kv => Q (snd kv)) props -> Q (JObj props)) ->
  forall j, Q j.
Proof.
  intros Hnull Hbool Hnum Hstr Harr Hobj.
  fix IH 1.
  intros [| b | n | s | items | props];
    [apply Hnull | apply Hbool | apply Hnum | apply Hstr | | ].
  - apply Harr. induction items as [|i items IHi]; constructor; auto.
  - apply Hobj. induction props as [|[k v] props IHp]; constructor; auto.
Qed.

(** ** String literals are read back *)

Lemma hex_value_digit (n : N) : (n < 16)%N -> hex_value (hex_digit n) = Some n.
Proof.
  intros H. unfold hex_value, hex_digit, is_digit.
  destruct (N.ltb_spec n 10).
  - replace ((48 <=? 48 + n) && (48 + n <=? 57))%N with true
      by (symmetry; apply andb_true_iff; split; apply N.leb_le; lia).
    f_equal. lia.
  - replace ((48 <=? 87 + n) && (87 + n <=? 57))%N with false
      by (symmetry; apply andb_false_iff; right; apply N.leb_gt; lia).
    replace ((97 <=? 87 + n) && (87 + n <=? 102))%N with true
      by (symmetry; apply andb_true_iff; split; apply N.leb_le; lia).
    f_equal. lia.
Qed.

Lemma parse_string_escape (c : char16) (s rest x : jsstring) :
  (c < 65536)%N ->
  parse_string x = Some (s, rest) ->
  parse_string (unicode_escape c ++ x) = Some (c :: s, rest).
Proof.
  intros Hc Hr. unfold unicode_escape.
  cbn [app parse_string]. cbn [N.eqb N.ltb N.compare Pos.eqb Pos.compare Pos.compare_cont].
  rewrite !hex_value_digit by (apply N.mod_lt; lia).
  rewrite Hr. do 3 f_equal.
  pose proof (N.div_mod c 4096). pose proof (N.div_mod (c / 4096) 16).
  pose proof (N.div_mod c 256). pose proof (N.div_mod (c / 256) 16).
  pose proof (N.div_mod c 16). pose proof (N.div_mod (c / 16) 16).
  assert (c / 4096 < 16)%N by (apply N.Div0.div_lt_upper_bound; lia).
  rewrite (N.mod_small (c / 4096) 16) by assumption.
  assert (E1 : (c / 256 / 16 = c / 4096)%N) by (rewrite N.Div0.div_div; reflexivity).
  assert (E2 : (c / 16 / 16 = c / 256)%N) by (rewrite N.Div0.div_div; reflexivity).
  assert (E3 : (c / 16 = c / 16)%N) by reflexivity.
  pose proof (N.mod_lt (c / 256) 16). pose proof (N.mod_lt (c / 16) 16).
  pose proof (N.mod_lt c 16).
  lia.
Qed.

Lemma parse_string_raw (c : char16) (s rest x : jsstring) :
  (c =? 34)%N = false -> (c <? 32)%N = false -> (c =? 92)%N = false ->
  parse_string x = Some (s, rest) ->
  parse_string (c :: x) = Some (c :: s, rest).
Proof. intros H1 H2 H3 Hr. cbn [parse_string]. now rewrite H1, H2, H3, Hr. Qed.

Lemma parse_string_simple (e u : char16) (s rest x : jsstring) :
  In (e, u) [(34, 34); (92, 92); (98, 8); (102, 12); (110, 10); (114, 13); (116, 9)]%N ->
  parse_string x = Some (s, rest) ->
  parse_string (92%N :: e :: x) = Some (u :: s, rest).
Proof.
  intros Hin Hr. cbn [parse_string].
  cbn in Hin. repeat destruct Hin as [Hin|Hin]; try contradiction;
    inversion Hin; subst; cbn; now rewrite Hr.
Qed.

Lemma surrogate_bound (c : char16) :
  is_high_surrogate c = true \/ is_low_surrogate c = true ->
  (c < 65536)%N /\ (c =? 34)%N = false /\ (c <? 32)%N = false /\ (c =? 92)%N = false.
Proof.
  unfold is_high_surrogate, is_low_surrogate.
  intros [H|H]; apply andb_true_iff in H as [H1 H2];
    apply N.leb_le in H1, H2;
    (split; [lia|]); (split; [apply N.eqb_neq; lia|]);
    (split; [apply N.ltb_ge; lia | apply N.eqb_neq; lia]).
Qed.

Lemma parse_string_quote_chars_bounded (n : nat) :
  forall s rest, (length s <= n)%nat ->
  parse_string (quote_chars s ++ dquote :: rest) = Some (s, rest).
Proof.
  induction n as [|n IH]; intros s rest Hlen.
  - destruct s; [|simpl in Hlen; lia]. reflexivity.
  - destruct s as [|c s]; [reflexivity|]. simpl in Hlen.
    assert (IHs : parse_string (quote_chars s ++ dquote :: rest) = Some (s, rest))
      by (apply IH; lia).
    cbn [quote_chars].
    destruct (N.eqb_spec c 34%N) as [->|N34].
    { rewrite <- app_assoc. cbn [app]. apply (parse_string_simple 34%N 34%N); [|exact IHs].
      cbn; auto. }
    destruct (N.eqb_spec c 92%N) as [->|N92].
    { rewrite <- app_assoc. cbn [app]. apply (parse_string_simple 92%N 92%N); [|exact IHs].
      cbn; auto. }
    destruct (N.eqb_spec c 8%N) as [->|N8].
    { rewrite <- app_assoc. cbn [app]. apply (parse_string_simple 98%N 8%N); [|exact IHs].
      cbn; auto. }
    destruct (N.eqb_spec c 12%N) as [->|N12].
    { rewrite <- app_assoc. cbn [app]. apply (parse_string_simple 102%N 12%N); [|exact IHs].
      cbn; auto 10. }
    destruct (N.eqb_spec c 10%N) as [->|N10].
    { rewrite <- app_assoc. cbn [app]. apply (parse_string_simple 110%N 10%N); [|exact IHs].
      cbn; auto 10. }
    destruct (N.eqb_spec c 13%N) as [->|N13].
    { rewrite <- app_assoc. cbn [app]. apply (parse_string_simple 114%N 13%N); [|exact IHs].
      cbn; auto 10. }
    destruct (N.eqb_spec c 9%N) as [->|N9].
    { rewrite <- app_assoc. cbn [app]. apply (parse_string_simple 116%N 9%N); [|exact IHs].
      cbn; auto 10. }
    destruct (N.ltb_spec c 32%N) as [L32|G32].
    { rewrite <- app_assoc. apply parse_string_escape; [lia|exact IHs]. }
    assert (R34 : (c =? 34)%N = false) by (apply N.eqb_neq; exact N34).
    assert (R92 : (c =? 92)%N = false) by (apply N.eqb_neq; exact N92).
    assert (R32 : (c <? 32)%N = false) by (apply N.ltb_ge; exact G32).
    destruct (is_high_surrogate c) eqn:Hh.
    { destruct (surrogate_bound c (or_introl Hh)) as (Hb & _).
      destruct s as [|d s'].
      - apply parse_string_escape; [exact Hb|reflexivity].
      - destruct (is_low_surrogate d) eqn:Hl.
        + destruct (surrogate_bound d (or_intror Hl)) as (_ & D34 & D32 & D92).
          cbn [app].
          apply parse_string_raw; auto.
          apply parse_string_raw; auto.
          apply IH. simpl in Hlen. lia.
        + rewrite <- app_assoc. apply parse_string_escape; [exact Hb|exact IHs]. }
    destruct (is_low_surrogate c) eqn:Hl.
    { destruct (surrogate_bound c (or_intror Hl)) as (Hb & _).
      rewrite <- app_assoc. apply parse_string_escape; [exact Hb|exact IHs]. }
    cbn [app]. apply parse_string_raw; auto.
Qed.

Lemma parse_string_quote (s rest : jsstring) :
  parse_string (quote_chars s ++ dquote :: rest) = Some (s, rest).
Proof. now apply (parse_string_quote_chars_bounded (length s)). Qed.

(** ** Values are read back *)

Lemma skip_space_head (c : char16) (r : jsstring) :
  is_json_space c = false -> skip_space (c :: r) = c :: r.
Proof. intros H. cbn [skip_space]. now rewrite H. Qed.

Lemma opener_facts (c : char16) :
  opener c -> is_json_space c = false /\ (c =? 93)%N = false /\ (c =? 125)%N = false.
Proof.
  unfold opener. cbn. intros H.
  repeat destruct H as [H|H]; try contradiction; subst; repeat split.
Qed.

Lemma stringify_opener (j : json) :
  plain j = true -> exists c r, stringify j = c :: r /\ opener c.
Proof.
  unfold opener.
  destruct j as [| [|] | n | s | items | props]; cbn; intros H; try discriminate;
    eexists; eexists; (split; [reflexivity|]); cbn; auto 10.
Qed.

Lemma define_fresh (k : jsstring) (v : json) (acc : list (jsstring * json)) :
  ~ In k (List.map fst acc) -> define k v acc = acc ++ [(k, v)].
Proof.
  induction acc as [|[k' v'] acc IH]; intros Hn; [reflexivity|].
  cbn [define]. unfold str_eqb. rewrite bool_decide_eq_false_2.
  - cbn. f_equal. apply IH. intros Hin. apply Hn. now right.
  - intros ->. apply Hn. now left.
Qed.

Lemma parse_elements_items (items : list json) :
  items <> [] -> Forall reads_back items -> forallb plain items = true ->
  forall fuel rest,
    (list_sum (List.map (fun i => S (size i)) items) <= fuel)%nat ->
    parse_elements fuel (comma_separated (List.map stringify items) ++ 93%N :: rest)
    = Some (items, rest).
Proof.
  induction items as [|i items IH]; intros Hne Hall Hpl fuel rest Hf; [congruence|].
  inversion Hall as [|? ? Hi Hitems]; subst.
  cbn [forallb] in Hpl. apply andb_true_iff in Hpl as [Hpi Hpl].
  cbn [List.map list_sum fold_right] in Hf.
  destruct fuel as [|fuel]; [lia|].
  cbn [parse_elements].
  destruct items as [|i2 items].
  - cbn [List.map comma_separated join].
    rewrite (Hi fuel (93%N :: rest)) by lia.
    reflexivity.
  - change (comma_separated (List.map stringify (i :: i2 :: items)))
      with (stringify i ++ 44%N :: comma_separated (List.map stringify (i2 :: items))).
    rewrite <- app_assoc. cbn [app].
    rewrite (Hi fuel) by lia.
    cbn [skip_space is_json_space N.eqb Pos.eqb orb].
    rewrite IH; [reflexivity|discriminate|assumption|assumption|].
    cbn [List.map list_sum fold_right] in *. lia.
Qed.

Lemma parse_members_props (props : list (jsstring * json)) :
  props <> [] -> Forall (fun kv => reads_back (snd kv)) props ->
  forall acc fuel rest,
    NoDup (List.map fst (acc ++ props)) ->
    (list_sum (List.map (fun kv => S (size (snd kv))) props) <= fuel)%nat ->
    parse_members fuel acc
      (comma_separated (List.map member_text props) ++ 125%N :: rest)
    = Some (acc ++ props, rest).
Proof.
  induction props as [|[k v] props IH]; intros Hne Hall acc fuel rest Hnd Hf; [congruence|].
  inversion Hall as [|? ? Hv Hprops]; subst. cbn [snd] in Hv.
  cbn [List.map list_sum fold_right snd] in Hf.
  destruct fuel as [|fuel]; [lia|].
  assert (Hk : ~ In k (List.map fst acc)).
  { rewrite map_app in Hnd. apply NoDup_app in Hnd as (_ & Hd & _).
    intros Hin. apply (Hd k).
    - apply list_elem_of_In. exact Hin.
    - cbn. left. }
  cbn [parse_members].
  destruct props as [|kv2 props].
  - cbn [List.map comma_separated join]. unfold member_text, quote. cbn [fst snd].
    rewrite <- !app_assoc. cbn [app js List.map list_ascii_of_string].
    rewrite skip_space_head by reflexivity.
    cbn [N.eqb Pos.eqb dquote].
    change (N_of_ascii ":") with 58%N.
    rewrite parse_string_quote.
    cbn [skip_space is_json_space N.eqb Pos.eqb orb].
    rewrite (Hv fuel) by lia.
    cbn [skip_space is_json_space N.eqb Pos.eqb orb].
    now rewrite define_fresh.
  - change (comma_separated (List.map member_text ((k, v) :: kv2 :: props)))
      with (member_text (k, v) ++ 44%N :: comma_separated (List.map member_text (kv2 :: props))).
    unfold member_text at 1, quote. cbn [fst snd].
    rewrite <- !app_assoc. cbn [app js List.map list_ascii_of_string].
    rewrite skip_space_head by reflexivity.
    cbn [N.eqb Pos.eqb dquote].
    change (N_of_ascii ":") with 58%N.
    rewrite parse_string_quote.
    cbn [skip_space is_json_space N.eqb Pos.eqb orb].
    rewrite (Hv fuel) by lia.
    cbn [skip_space is_json_space N.eqb Pos.eqb orb].
    rewrite define_fresh by exact Hk.
    rewrite IH; [now rewrite <- app_assoc|discriminate|assumption| |].
    + now rewrite <- app_assoc.
    + cbn [List.map list_sum fold_right] in *. lia.
Qed.

Lemma plain_reads_back (j : json) : plain j = true -> reads_back j.
Proof.
  induction j as [| b | n | s | items IH | props IH] using json_rect';
    intros Hp fuel rest Hf; cbn [size] in Hf;
    (destruct fuel as [|fuel]; [lia|]).
  - reflexivity.
  - destruct b; reflexivity.
  - discriminate.
  - cbn [stringify]. unfold quote. rewrite <- !app_assoc.
    cbn [app parse_value skip_space is_json_space N.eqb Pos.eqb orb dquote].
    now rewrite parse_string_quote.
  - cbn [plain] in Hp. cbn [stringify].
    destruct items as [|i items].
    + reflexivity.
    + assert (Hall : Forall reads_back (i :: items)).
      { rewrite List.Forall_forall in IH. apply List.Forall_forall. intros x Hx.
        apply IH; [exact Hx|]. rewrite forallb_forall in Hp. now apply Hp. }
      destruct (stringify_opener i) as (c & r & Ec & Hc).
      { cbn [forallb] in Hp. now apply andb_true_iff in Hp as [Hp _]. }
      destruct (opener_facts c Hc) as (Hsp & H93 & _).
      set (body := comma_separated (List.map stringify (i :: items))).
      change (js "[") with [91%N]. change (js "]") with [93%N].
      rewrite <- !app_assoc. cbn [app].
      cbn [parse_value skip_space is_json_space N.eqb Pos.eqb orb].
      match goal with |- context [skip_space ?x] =>
        assert (Hhead : exists r', x = c :: r') end.
      { subst body. destruct items; cbn [List.map comma_separated join]; rewrite Ec;
          eexists; reflexivity. }
      destruct Hhead as (r' & Er').
      rewrite Er', skip_space_head by exact Hsp. rewrite H93, <- Er'.
      subst body.
      rewrite parse_elements_items; [reflexivity|discriminate|exact Hall|exact Hp|lia].
  - cbn [plain] in Hp. apply andb_true_iff in Hp as [Hnd Hp].
    apply bool_decide_eq_true in Hnd. cbn [stringify].
    destruct props as [|[k v] props].
    + reflexivity.
    + assert (Hall : Forall (fun kv => reads_back (snd kv)) ((k, v) :: props)).
      { rewrite List.Forall_forall in IH. apply List.Forall_forall. intros x Hx.
        apply IH; [exact Hx|]. rewrite forallb_forall in Hp. now apply Hp. }
      change (List.map (fun kv => quote (fst kv) ++ js ":" ++ stringify (snd kv)) ((k, v) :: props))
        with (List.map member_text ((k, v) :: props)).
      set (body := comma_separated (List.map member_text ((k, v) :: props))).
      change (js "{") with [123%N]. change (js "}") with [125%N].
      rewrite <- !app_assoc. cbn [app].
      cbn [parse_value skip_space is_json_space N.eqb Pos.eqb orb].
      match goal with |- context [skip_space ?x] =>
        assert (Hhead : exists r', x = 34%N :: r') end.
      { subst body. destruct props; cbn [List.map comma_separated join fst];
          unfold member_text, quote; cbn [app dquote fst]; eexists; reflexivity. }
      destruct Hhead as (r' & Er').
      rewrite Er', skip_space_head by reflexivity.
      cbn [N.eqb Pos.eqb]. rewrite <- Er'.
      subst body.
      rewrite (parse_members_props ((k, v) :: props)) with (acc := []);
        [reflexivity|discriminate|exact Hall|exact Hnd|lia].
Qed.

(** ** The text is long enough to pay for its own reading *)

Lemma length_comma_separated (pieces : list jsstring) :
  (list_sum (List.map (fun p => S (length p)) pieces)
   <= S (length (comma_separated pieces)))%nat.
Proof.
  induction pieces as [|p pieces IH]; [cbn; lia|].
  destruct pieces as [|q pieces].
  - cbn. lia.
  - change (comma_separated (p :: q :: pieces))
      with (p ++ 44%N :: comma_separated (q :: pieces)).
    set (J := comma_separated (q :: pieces)) in *.
    set (L := q :: pieces) in *.
    rewrite length_app. change (List.map (fun p0 => S (length p0)) (p :: L))
      with (S (length p) :: List.map (fun p0 => S (length p0)) L).
    cbn [length list_sum fold_right]. unfold list_sum in IH.
    change (S (length p + S (length J))) with (S (length p) + S (length J))%nat.
    apply Nat.add_le_mono_l. exact IH.
Qed.

Lemma list_sum_le {A} (f g : A -> nat) (l : list A) :
  Forall (fun x => f x <= g x)%nat l ->
  (list_sum (List.map f l) <= list_sum (List.map g l))%nat.
Proof.
  unfold list_sum. induction 1; cbn [List.map fold_right]; [lia|].
  now apply Nat.add_le_mono.
Qed.

Lemma size_le_length (j : json) :
  plain j = true -> (size j <= length (stringify j))%nat.
Proof.
  induction j as [| b | n | s | items IH | props IH] using json_rect'; intros Hp.
  - cbn. lia.
  - destruct b; cbn; lia.
  - discriminate.
  - cbn [size stringify]. unfold quote. rewrite !length_app. cbn. lia.
  - cbn [plain] in Hp. cbn [size stringify]. rewrite !length_app.
    pose proof (length_comma_separated (List.map stringify items)) as Hl.
    rewrite List.map_map in Hl.
    assert (Hs : (list_sum (List.map (fun i => S (size i)) items)
                  <= list_sum (List.map (fun x => S (length (stringify x))) items))%nat).
    { apply list_sum_le. rewrite List.Forall_forall in IH. apply List.Forall_forall.
      intros x Hx. rewrite forallb_forall in Hp.
      specialize (IH x Hx (Hp x Hx)). lia. }
    cbn [length js List.map list_ascii_of_string].
    rewrite Nat.add_1_r. apply le_n_S. exact (Nat.le_trans _ _ _ Hs Hl).
  - cbn [plain] in Hp. apply andb_true_iff in Hp as [_ Hp].
    cbn [size stringify]. rewrite !length_app.
    pose proof (length_comma_separated
                  (List.map (fun kv => quote (fst kv) ++ js ":" ++ stringify (snd kv)) props)) as Hl.
    rewrite List.map_map in Hl.
    assert (Hs : (list_sum (List.map (fun kv => S (size (snd kv))) props)
                  <= list_sum (List.map (fun x => S (length (quote (fst x) ++ js ":" ++ stringify (snd x)))) props))%nat).
    { apply list_sum_le. rewrite List.Forall_forall in IH. apply List.Forall_forall.
      intros x Hx. rewrite forallb_forall in Hp.
      specialize (IH x Hx (Hp x Hx)). rewrite !length_app. lia. }
    cbn [length js List.map list_ascii_of_string].
    rewrite Nat.add_1_r. apply le_n_S. exact (Nat.le_trans _ _ _ Hs Hl).
Qed.

(** On the reference host [JSON.parse] reads back what [JSON.stringify]
    wrote for a tree of plain data. *)
Lemma parse_stringify (j : json) : plain j = true -> parse (stringify j) = Some j.
Proof.
  intros Hp. unfold parse.
  pose proof (plain_reads_back j Hp (2 * length (stringify j) + 2)%nat []) as H.
  rewrite app_nil_r in H. rewrite H; [reflexivity|].
  pose proof (size_le_length j Hp). lia.
Qed.

(** ** Instants are read back *)

Lemma civil_year_of_era (doe : Z) :
  0 <= doe <= 146096 ->
  let yoe := (doe - doe / 1460 + doe / 36524 - doe / 146096) / 365 in
  let doy := doe - (365 * yoe + yoe / 4 - yoe / 100) in
  0 <= yoe <= 399 /\ 0 <= doy <= 365.
Proof. intros H. cbv zeta. Z.div_mod_to_equations; lia. Qed.

Lemma days_from_civil_from_days (z : Z) :
  match civil_from_days z with
  | (y, m, d) =>
      days_from_civil y m d = z /\ 1 <= m <= 12 /\ 1 <= d <= 31
      /\ (z + 719468) / 146097 * 400 <= y <= (z + 719468) / 146097 * 400 + 400
  end.
Proof.
  unfold civil_from_days.
  set (era := (z + 719468) / 146097).
  set (doe := z + 719468 - era * 146097).
  assert (Hdoe : 0 <= doe <= 146096)
    by (subst doe era; Z.div_mod_to_equations; lia).
  destruct (civil_year_of_era doe Hdoe) as [Hyoe Hdoy].
  set (yoe := (doe - doe / 1460 + doe / 36524 - doe / 146096) / 365) in *.
  set (doy := doe - (365 * yoe + yoe / 4 - yoe / 100)) in *.
  set (mp := (5 * doy + 2) / 153).
  assert (Hmp : 0 <= mp <= 11) by (subst mp; Z.div_mod_to_equations; lia).
  assert (Hd : 1 <= doy - (153 * mp + 2) / 5 + 1 <= 31)
    by (subst mp; Z.div_mod_to_equations; lia).
  cbv zeta.
  unfold days_from_civil.
  destruct (Z.ltb_spec mp 10) as [Hlt|Hge].
  - destruct (Z.leb_spec (mp + 3) 2) as [?|_]; [lia|].
    destruct (Z.ltb_spec 2 (mp + 3)) as [_|?]; [|lia].
    rewrite Z.add_0_r.
    replace ((yoe + era * 400) / 400) with era
      by (Z.div_mod_to_equations; lia).
    replace (mp + 3 - 3) with mp by lia.
    split; [subst doy doe; Z.div_mod_to_equations; lia|]. split; [lia|]. split; [exact Hd|]. lia.
  - destruct (Z.leb_spec (mp - 9) 2) as [_|?]; [|lia].
    destruct (Z.ltb_spec 2 (mp - 9)) as [?|_]; [lia|].
    replace (yoe + era * 400 + 1 - 1) with (yoe + era * 400) by lia.
    replace ((yoe + era * 400) / 400) with era
      by (Z.div_mod_to_equations; lia).
    replace (mp - 9 + 9) with mp by lia.
    split; [subst doy doe; Z.div_mod_to_equations; lia|]. split; [lia|]. split; [exact Hd|]. lia.
Qed.

Lemma valid_civil_from_days (z : Z) :
  match civil_from_days z with (y, m, d) => valid_date y m d = true end.
Proof.
  pose proof (days_from_civil_from_days z) as H.
  destruct (civil_from_days z) as [[y m] d] eqn:E.
  destruct H as (H & _). unfold valid_date. rewrite H, E.
  now rewrite !Z.eqb_refl.
Qed.

(** ** Decimal fields *)

Lemma read_digits_app (n m : nat) : forall acc s,
  read_digits (n + m) acc s =
  match read_digits n acc s with
  | Some (a, r) => read_digits m a r
  | None => None
  end.
Proof.
  induction n as [|n IH]; intros acc s; [reflexivity|].
  cbn [Nat.add read_digits]. destruct s as [|c s]; [reflexivity|].
  destruct (is_digit c); [apply IH|reflexivity].
Qed.

Lemma read_digit_char (v acc : Z) (rest : jsstring) :
  0 <= v < 10 ->
  read_digits 1 acc (Z.to_N (48 + v) :: rest) = Some (10 * acc + v, rest).
Proof.
  intros Hv. cbn [read_digits]. unfold is_digit.
  replace ((48 <=? Z.to_N (48 + v)) && (Z.to_N (48 + v) <=? 57))%N with true
    by (symmetry; apply andb_true_iff; split; apply N.leb_le; lia).
  do 3 f_equal. lia.
Qed.

Lemma read_digits_digits (w : nat) : forall v acc rest,
  0 <= v < 10 ^ Z.of_nat w ->
  read_digits w acc (digits w v ++ rest) = Some (acc * 10 ^ Z.of_nat w + v, rest).
Proof.
  induction w as [|w IH]; intros v acc rest Hv.
  - cbn. f_equal. f_equal. cbn in Hv. lia.
  - replace (S w) with (w + 1)%nat by lia.
    assert (Hp : 10 ^ Z.of_nat (w + 1) = 10 * 10 ^ Z.of_nat w).
    { rewrite Nat2Z.inj_add, Z.pow_add_r by lia. lia. }
    rewrite Hp in *.
    assert (Hpos : 0 < 10 ^ Z.of_nat w) by (apply Z.pow_pos_nonneg; lia).
    rewrite read_digits_app.
    replace (w + 1)%nat with (S w) by lia. cbn [digits].
    rewrite <- app_assoc. rewrite IH by (Z.div_mod_to_equations; lia).
    cbn [app]. rewrite read_digit_char by (Z.div_mod_to_equations; lia).
    do 2 f_equal. Z.div_mod_to_equations; lia.
Qed.

Lemma digits_head (w : nat) (v : Z) :
  0 <= v -> exists c r, digits (S w) v = c :: r /\ is_digit c = true.
Proof.
  revert v. induction w as [|w IH]; intros v Hv.
  - cbn [digits app]. eexists; eexists. split; [reflexivity|].
    unfold is_digit. apply andb_true_iff; split; apply N.leb_le;
      Z.div_mod_to_equations; lia.
  - destruct (IH (v / 10)) as (c & r & E & Hc); [Z.div_mod_to_equations; lia|].
    cbn [digits] in *. rewrite E. eexists; eexists. split; [reflexivity|exact Hc].
Qed.

Lemma read_year_string (y : Z) (rest : jsstring) :
  -999999 <= y <= 999999 ->
  read_year (year_string y ++ rest) = Some (y, rest).
Proof.
  intros Hy. unfold year_string.
  assert (P4 : 10 ^ Z.of_nat 4 = 10000) by reflexivity.
  assert (P6 : 10 ^ Z.of_nat 6 = 1000000) by reflexivity.
  destruct (Z.leb_spec 0 y) as [H0|H0]; cbn [andb].
  - destruct (Z.leb_spec y 9999) as [H9|H9].
    + destruct (digits_head 3 y H0) as (c & r & E & Hc).
      unfold read_year. rewrite E. cbn [app].
      unfold is_digit in Hc. apply andb_true_iff in Hc as [Hc1 Hc2].
      apply N.leb_le in Hc1, Hc2.
      replace (c =? 43)%N with false by (symmetry; apply N.eqb_neq; lia).
      replace (c =? 45)%N with false by (symmetry; apply N.eqb_neq; lia).
      change (c :: r ++ rest) with ((c :: r) ++ rest). rewrite <- E.
      rewrite read_digits_digits by lia. do 2 f_equal.
    + destruct (Z.ltb_spec y 0) as [?|_]; [lia|].
      cbn [js List.map list_ascii_of_string app read_year].
      change (N_of_ascii "+") with 43%N. cbn [N.eqb Pos.eqb].
      rewrite read_digits_digits by lia. do 2 f_equal.
  - destruct (Z.ltb_spec y 0) as [_|?]; [|lia].
    cbn [js List.map list_ascii_of_string app read_year].
    change (N_of_ascii "-") with 45%N. cbn [N.eqb Pos.eqb].
    rewrite read_digits_digits by lia.
    rewrite Z.mul_0_l, Z.add_0_l. destruct (Z.eqb_spec (- y) 0); [lia|].
    do 2 f_equal. lia.
Qed.

Lemma read_field (w : nat) (v : Z) (rest : jsstring) :
  0 <= v < 10 ^ Z.of_nat w ->
  read_digits w 0 (digits w v ++ rest) = Some (v, rest).
Proof.
  intros Hv. rewrite read_digits_digits by exact Hv. do 2 f_equal.
Qed.

(** On the reference host [new Date(s)] reads back the instant whose
    ISO string is [s], for every time value a [Date] can hold. *)
Lemma date_of_string_isoString (t : Z) :
  - maxTime <= t <= maxTime -> date_of_string (isoString t) = ValidDate t.
Proof.
  intros Ht. unfold maxTime in Ht. unfold date_of_string, isoString, msPerDay.
  set (days := t / 86400000). set (ms := t mod 86400000).
  assert (Hms : 0 <= ms < 86400000) by (subst ms; apply Z.mod_pos_bound; lia).
  assert (Hdays : -100000000 <= days <= 100000000)
    by (subst days; Z.div_mod_to_equations; lia).
  pose proof (days_from_civil_from_days days) as Hc.
  pose proof (valid_civil_from_days days) as Hv.
  destruct (civil_from_days days) as [[y m] d].
  destruct Hc as (Hback & Hm & Hd & Hy).
  assert (Hy' : -999999 <= y <= 999999)
    by (revert Hy; Z.div_mod_to_equations; lia).
  assert (P2 : 10 ^ Z.of_nat 2 = 100) by reflexivity.
  assert (P3 : 10 ^ Z.of_nat 3 = 1000) by reflexivity.
  change (js "-") with [45%N]. change (js "T") with [84%N].
  change (js ":") with [58%N]. change (js ".") with [46%N].
  change (js "Z") with [90%N].
  unfold read_instant.
  rewrite read_year_string by exact Hy'.
  cbn [mbind option_bind app expect N.eqb Pos.eqb].
  rewrite read_field by lia.
  cbn [mbind option_bind app expect N.eqb Pos.eqb].
  rewrite read_field by lia.
  cbn [mbind option_bind app expect N.eqb Pos.eqb].
  rewrite read_field by (Z.div_mod_to_equations; lia).
  cbn [mbind option_bind app expect N.eqb Pos.eqb].
  rewrite read_field by (Z.div_mod_to_equations; lia).
  cbn [mbind option_bind app expect N.eqb Pos.eqb].
  rewrite read_field by (Z.div_mod_to_equations; lia).
  cbn [mbind option_bind app expect N.eqb Pos.eqb].
  rewrite read_field by (Z.div_mod_to_equations; lia).
  cbn [mbind option_bind app expect N.eqb Pos.eqb].
  rewrite Hv.
  replace (ms / 3600000 <=? 23) with true
    by (symmetry; apply Z.leb_le; Z.div_mod_to_equations; lia).
  replace (ms / 60000 mod 60 <=? 59) with true
    by (symmetry; apply Z.leb_le; Z.div_mod_to_equations; lia).
  replace (ms / 1000 mod 60 <=? 59) with true
    by (symmetry; apply Z.leb_le; Z.div_mod_to_equations; lia).
  cbn [andb]. rewrite Hback. unfold msPerDay.
  replace (days * 86400000 + ms / 3600000 * 3600000 + ms / 60000 mod 60 * 60000
           + ms / 1000 mod 60 * 1000 + ms mod 1000) with t
    by (subst days ms; Z.div_mod_to_equations; lia).
  unfold timeClip.
  assert (E1 : (- maxTime <=? t) = true) by (apply Z.leb_le; unfold maxTime; lia).
  assert (E2 : (t <=? maxTime) = true) by (apply Z.leb_le; unfold maxTime; lia).
  now rewrite E1, E2.
Qed.

End ReferenceFacts.

(* ================================================================== *)
(** * Properties of the preference store *)
(* ================================================================== *)

Module StoreFacts.
Import App Examples.

Section Host.
Context (P : Platform).

Lemma spread_message_json (m : ChatMessage) (d : Date) :
  <[js "timestamp" := RDate d]> (spread (message_json P m))
  = message_object {| id := id m; sender := sender m; Types.text := Types.text m;
                      timestamp := d |}.
Proof.
  unfold spread, message_json, own_props, message_object. cbn [fold_left].
  cbn [id sender Types.text timestamp].
  apply insert_insert_eq.
Qed.

Lemma restoreMessage_message_json (m : ChatMessage) (t : Z) :
  timestamp m = ValidDate t ->
  Date_of_string P (toISOString P t) = ValidDate t ->
  restoreMessage P (message_json P m) = Some (message_object m).
Proof.
  intros Hts Hrt. unfold restoreMessage.
  assert (Hg : get_prop (message_json P m) (js "timestamp")
               = Some (Some (JStr (toISOString P t)))).
  { unfold message_json. rewrite Hts. reflexivity. }
  rewrite Hg. cbn [Date_new]. rewrite Hrt.
  rewrite spread_message_json. destruct m; cbn in *; subst; reflexivity.
Qed.

Lemma restoreAll_messages (msgs : list ChatMessage) :
  Forall (fun m => exists t, timestamp m = ValidDate t
                             /\ Date_of_string P (toISOString P t) = ValidDate t) msgs ->
  restoreAll P (List.map (message_json P) msgs) = Some (List.map message_object msgs).
Proof.
  induction 1 as [|m msgs (t & Hts & Hrt) _ IH]; [reflexivity|].
  cbn [List.map restoreAll].
  now rewrite (restoreMessage_message_json m t Hts Hrt), IH.
Qed.

Lemma loadTry_prefs_json (p : UserPreferences) (text : jsstring) (s : State) :
  Types.rememberMe p = true ->
  JSON_parse P text = Some (prefs_json P p) ->
  Forall (fun m => exists t, timestamp m = ValidDate t
                             /\ Date_of_string P (toISOString P t) = ValidDate t)
         (lastChat p) ->
  exists s', loadTry P text s = (Normal, s') /\ holds s' p
             /\ activeView s' = activeView s.
Proof.
  intros Hr Hp Hd. unfold loadTry. rewrite Hp.
  assert (Hn : get_prop (prefs_json P p) (js "name") = Some (Some (JStr (name p))))
    by reflexivity.
  assert (Hm : get_prop (prefs_json P p) (js "rememberMe")
               = Some (Some (JBool (Types.rememberMe p)))) by reflexivity.
  assert (Hl : get_prop (prefs_json P p) (js "lastChat")
               = Some (Some (JArr (List.map (message_json P) (lastChat p)))))
    by reflexivity.
  rewrite Hn, Hm, Hl, (restoreAll_messages _ Hd).
  eexists. split; [reflexivity|]. split; [|reflexivity].
  unfold holds. cbn. rewrite Hr. cbn. split; [|split; reflexivity].
  destruct (name p); reflexivity.
Qed.

(** Loading from a store that holds the text of a preferences value. *)
Lemma loadEffect_restores
    (p : UserPreferences) (text : jsstring) (s : State) (ls : Storage) :
  ls !! STORAGE_KEY_USER_PREFS = Some text -> text <> [] ->
  Types.rememberMe p = true ->
  JSON_parse P text = Some (prefs_json P p) ->
  Forall (fun m => exists t, timestamp m = ValidDate t
                             /\ Date_of_string P (toISOString P t) = ValidDate t)
         (lastChat p) ->
  holds (state (loadEffect P s ls)) p
  /\ localStorage (loadEffect P s ls) = ls
  /\ console (loadEffect P s ls) = [].
Proof.
  intros Hls Hne Hr Hp Hd. unfold loadEffect. rewrite Hls.
  destruct text as [|c text]; [congruence|]. cbn [truthy].
  destruct (loadTry_prefs_json p (c :: text) s Hr Hp Hd) as (s' & -> & Hh & _).
  cbn. auto.
Qed.

Lemma saveEffect_stores (p : UserPreferences) (ls : Storage) :
  Types.rememberMe p = true ->
  Chat.saveEffect P (name p) (Types.rememberMe p) (lastChat p) ls
  = <[STORAGE_KEY_USER_PREFS := JSON_stringify P (prefs_json P p)]> ls.
Proof.
  intros Hr. unfold Chat.saveEffect. rewrite Hr.
  replace {| name := name p; Types.rememberMe := true; lastChat := lastChat p |}
    with p by (destruct p; cbn in *; subst; reflexivity).
  reflexivity.
Qed.

(** C3, amended.  Saving a preferences value whose [rememberMe] is set
    and whose timestamps are valid instants, then loading, leaves [App]
    holding the same name, [rememberMe], and a transcript with the same
    ids, senders, texts and timestamps (to the millisecond), on a host
    whose [JSON.parse] reads back the text [JSON.stringify] wrote and
    whose [Date] reads back the ISO strings it wrote. *)
Theorem save_then_load_restores
    (p : UserPreferences) (ls : Storage) (s : State) :
  Types.rememberMe p = true ->
  JSON_stringify P (prefs_json P p) <> [] ->
  JSON_parse P (JSON_stringify P (prefs_json P p)) = Some (prefs_json P p) ->
  Forall (fun m => exists t, timestamp m = ValidDate t
                             /\ Date_of_string P (toISOString P t) = ValidDate t)
         (lastChat p) ->
  let stored := Chat.saveEffect P (name p) (Types.rememberMe p) (lastChat p) ls in
  let loaded := loadEffect P s stored in
  holds (state loaded) p
  /\ localStorage loaded = stored
  /\ console loaded = [].
Proof.
  intros Hr Hne Hp Hd stored loaded. subst loaded stored.
  rewrite saveEffect_stores by exact Hr.
  apply (loadEffect_restores p (JSON_stringify P (prefs_json P p))); auto.
  apply lookup_insert_eq.
Qed.


End Host.

(** ** On the reference host *)

Lemma prefs_json_plain (p : UserPreferences) :
  Reference.plain (prefs_json Reference.host p) = true.
Proof.
  unfold prefs_json. cbn [Reference.plain List.map fst snd forallb].
  rewrite bool_decide_eq_true_2 by (apply NoDup_ListNoDup; repeat constructor;
                                    cbn; intuition discriminate).
  cbn [andb]. rewrite andb_true_r.
  induction (lastChat p) as [|m msgs IH]; [reflexivity|].
  cbn [List.map forallb]. rewrite IH, andb_true_r.
  unfold message_json. cbn [Reference.plain List.map fst snd forallb].
  rewrite bool_decide_eq_true_2 by (apply NoDup_ListNoDup; repeat constructor;
                                    cbn; intuition discriminate).
  destruct (timestamp m); reflexivity.
Qed.

(** The amended C3 without an assumption on the host: on the reference
    host, every preferences value whose [rememberMe] is set and whose
    timestamps are instants a [Date] can hold is restored. *)
Lemma reference_host_restores
    (p : UserPreferences) (ls : Storage) (s : State) :
  Types.rememberMe p = true ->
  Forall (fun m => exists t, timestamp m = ValidDate t
                             /\ - Reference.maxTime <= t <= Reference.maxTime)
         (lastChat p) ->
  let stored := Chat.saveEffect Reference.host (name p) (Types.rememberMe p)
                  (lastChat p) ls in
  holds (state (loadEffect Reference.host s stored)) p.
Proof.
  intros Hr Hd stored. subst stored.
  rewrite saveEffect_stores by exact Hr.
  apply (loadEffect_restores Reference.host p
           (JSON_stringify Reference.host (prefs_json Reference.host p))).
  - apply lookup_insert_eq.
  - discriminate.
  - exact Hr.
  - apply ReferenceFacts.parse_stringify, prefs_json_plain.
  - eapply List.Forall_impl; [|exact Hd].
    intros m (t & Hts & Ht). exists t. split; [exact Hts|].
    now apply ReferenceFacts.date_of_string_isoString.
Qed.

(** An Invalid Date is written as [null] and comes back as the epoch:
    the timestamps have to be valid for the transcript to be restored. *)
Lemma invalid_timestamp_not_restored :
  let m := {| id := js "1"; sender := user; Types.text := js "hi";
              timestamp := InvalidDate |} in
  let stored := Chat.saveEffect Reference.host (js "Ravi") true [m] ∅ in
  chatHistory (state (loadEffect Reference.host initial stored))
  = [message_object {| id := js "1"; sender := user; Types.text := js "hi";
                       timestamp := ValidDate 0 |}]
  /\ message_object {| id := js "1"; sender := user; Types.text := js "hi";
                       timestamp := ValidDate 0 |} <> message_object m.
Proof.
  cbv zeta. split; [vm_compute; reflexivity|].
  intros H. apply (f_equal (fun o => o !! js "timestamp")) in H.
  vm_compute in H. discriminate.
Qed.

Lemma save_then_load_restores_witness :
  holds (state (loadEffect Reference.host initial
                  (Chat.saveEffect Reference.host (js "Ravi") true
                     [firstTurn; secondTurn] ∅)))
        remembered.
Proof.
  apply (save_then_load_restores Reference.host remembered ∅ initial).
  - reflexivity.
  - vm_compute. discriminate.
  - vm_compute. reflexivity.
  - repeat constructor; eexists; (split; [reflexivity | vm_compute; reflexivity]).
Defined.

(** C3 as stated fails when [rememberMe] is off: saving then removes
    the stored value, and loading restores nothing. *)
Lemma forgotten_not_restored :
  let stored := Chat.saveEffect Reference.host (name forgotten)
                  (Types.rememberMe forgotten) (lastChat forgotten) ∅ in
  stored !! STORAGE_KEY_USER_PREFS = None
  /\ userName (state (loadEffect Reference.host initial stored)) = JStr []
  /\ ~ holds (state (loadEffect Reference.host initial stored)) forgotten.
Proof.
  cbv zeta. split; [reflexivity|]. split; [reflexivity|].
  intros (Hn & _). vm_compute in Hn. discriminate.
Qed.



End StoreFacts.

(* ================================================================== *)
(** * Strings: trimming, searching, printing numbers *)
(* ================================================================== *)

Module StringFacts.
Import JS Types Constants Gemini Json GeminiFacts.

Lemma trimStart_idem (s : jsstring) : trimStart (trimStart s) = trimStart s.
Proof.
  induction s as [|c s IH]; [reflexivity|]. cbn [trimStart].
  destruct (is_white_space c) eqn:E; [exact IH|]. cbn [trimStart]. now rewrite E.
Qed.

Lemma trimStart_nil (s : jsstring) : trimStart s = [] -> blank s.
Proof.
  induction s as [|c s IH]; [constructor|]. cbn [trimStart].
  destruct (is_white_space c) eqn:E; [|discriminate].
  intros H. constructor; [exact E|exact (IH H)].
Qed.

Lemma blank_rev (s : jsstring) : blank (rev s) -> blank s.
Proof.
  unfold blank. rewrite !List.Forall_forall. intros H c Hc. apply H.
  now apply (proj1 (List.in_rev s c)).
Qed.

Lemma trim_nil (s : jsstring) : trim s = [] -> blank s.
Proof.
  unfold trim, trimEnd. intros H.
  assert (H1 : trimStart (rev (trimStart s)) = []).
  { destruct (trimStart (rev (trimStart s))) as [|x t]; [reflexivity|].
    apply (f_equal (@length _)) in H. rewrite length_rev in H. discriminate H. }
  apply trimStart_nil, blank_rev, trimStart_blank in H1.
  rewrite trimStart_idem in H1. now apply trimStart_nil.
Qed.

Lemma trim_nil_iff (s : jsstring) : trim s = [] <-> blank s.
Proof. split; [apply trim_nil|apply trim_blank]. Qed.








Lemma js_inj (a b : string) : js a = js b -> a = b.
Proof.
  unfold js. intros H.
  rewrite <- (string_of_list_ascii_of_string a), <- (string_of_list_ascii_of_string b).
  f_equal. revert H. generalize (list_ascii_of_string a) (list_ascii_of_string b).
  induction l as [|x l IH]; intros [|y l']; cbn; intros H; try discriminate; [reflexivity|].
  inversion H as [[Hx Hl]]. f_equal; [|exact (IH _ Hl)].
  rewrite <- (ascii_N_embedding x), <- (ascii_N_embedding y). now rewrite Hx.
Qed.

Lemma to_int_proper (n : Z) :
  Z.to_int n <> Decimal.Pos Decimal.Nil /\ Z.to_int n <> Decimal.Neg Decimal.Nil.
Proof.
  destruct n as [|p|p]; cbn; split; try discriminate.
  - intros H. inversion H as [H1]. revert H1. apply Unsigned.to_uint_nonnil.
  - intros H. inversion H as [H1]. revert H1. apply Unsigned.to_uint_nonnil.
Qed.

Lemma toString_inj (n m : Z) : toString n = toString m -> n = m.
Proof.
  unfold toString. intros H. apply js_inj in H.
  apply DecimalZ.to_int_inj.
  destruct (to_int_proper n) as [Hn1 Hn2], (to_int_proper m) as [Hm1 Hm2].
  pose proof (NilZero.isi _ Hn1 Hn2) as E1.
  pose proof (NilZero.isi _ Hm1 Hm2) as E2.
  rewrite H in E1. rewrite E1 in E2. now inversion E2.
Qed.

End StringFacts.

(* ================================================================== *)
(** * Conduct of the gateway: credential, dialog, requests *)
(* ================================================================== *)

Module ConductFacts.
Import JS Types Constants Gemini Json Conduct Examples Scenarios GeminiFacts.

(** ** Runs of the pieces *)

Lemma getGeminiClient_unconfigured env w :
  unconfigured env -> getGeminiClient env w = (Throw notSet, w).
Proof.
  intros H. unfold getGeminiClient.
  destruct (API_KEY env) as [k|] eqn:E; [|reflexivity].
  rewrite (H k E). reflexivity.
Qed.

Lemma getGeminiClient_configured env k w :
  API_KEY env = Some k -> truthy k = true ->
  getGeminiClient env w = (Ret {| apiKey := k |}, w).
Proof. intros E T. unfold getGeminiClient. rewrite E, T. reflexivity. Qed.

Lemma openSelectKey_run env w :
  aistudio_openSelectKey env w =
  (match openSelectKey env with None => Ret tt | Some e => Throw e end,
   {| heap := heap w; trace := trace w ++ [OpenSelectKey] |}).
Proof.
  unfold aistudio_openSelectKey. rewrite bind_run. cbn [emit].
  destruct (openSelectKey env); reflexivity.
Qed.

Lemma chatCatch_run env e w :
  chatCatch env e w =
  if message_includes e (js "Requested entity was not found")
  then (match openSelectKey env with
        | None => Ret {| text := [];
                         error := Some (js "API key issue. Please select your API key again from the dialog.") |}
        | Some e' => Throw e'
        end, referred w "Error chatting with Bhaii:" e)
  else (Ret {| text := [];
               error := Some (js "Sorry, kuch gadbad ho gayi. Can you please try again?") |},
        logged w "Error chatting with Bhaii:" e).
Proof.
  unfold chatCatch. rewrite bind_run, ChatFacts.console_error_run.
  destruct (message_includes e _); [|reflexivity].
  rewrite bind_run, openSelectKey_run. unfold referred. cbn [heap trace].
  rewrite <- app_assoc. destruct (openSelectKey env); reflexivity.
Qed.

Lemma editCatch_run env e w :
  editCatch env e w =
  if message_includes e (js "Requested entity was not found")
  then (match openSelectKey env with
        | None => Ret {| edit_imageUrl := None;
                         edit_error := Some (js "API key issue. Please select your API key again from the dialog.") |}
        | Some e' => Throw e'
        end, referred w "Error editing image with Gemini:" e)
  else (Ret {| edit_imageUrl := None;
               edit_error := Some (js "Failed to edit image. Network issue or invalid prompt?") |},
        logged w "Error editing image with Gemini:" e).
Proof.
  unfold editCatch. rewrite bind_run, ChatFacts.console_error_run.
  destruct (message_includes e _); [|reflexivity].
  rewrite bind_run, openSelectKey_run. unfold referred. cbn [heap trace].
  rewrite <- app_assoc. destruct (openSelectKey env); reflexivity.
Qed.

Lemma hdCatch_run env e w :
  hdCatch env e w =
  if message_includes e (js "Requested entity was not found.")
  then (match openSelectKey env with
        | None => Ret {| imageUrl := None;
                         hd_error := Some (js "API key issue: HD Image generation requires billing. Please ensure your API key is enabled for billing and re-select it.") |}
        | Some e' => Throw e'
        end, referred w "Error generating HD image with Gemini:" e)
  else (Ret {| imageUrl := None;
               hd_error := Some (js "Failed to generate HD image: " ++ message_or_unknown e) |},
        logged w "Error generating HD image with Gemini:" e).
Proof.
  unfold hdCatch. rewrite bind_run, ChatFacts.console_error_run.
  destruct (message_includes e _); [|reflexivity].
  rewrite bind_run, openSelectKey_run. unfold referred. cbn [heap trace].
  rewrite <- app_assoc. destruct (openSelectKey env); reflexivity.
Qed.

(** X1.  Without a usable credential (the key is undefined or empty) each
    of the three operations returns its generic error result, after one
    line on the console and nothing else: no file is read, no request is
    sent, the key dialog is not opened and the store is untouched.  The
    image generator reports the missing key even for a blank prompt,
    since it asks for the client first. *)
Theorem missing_credential_refused (env : Env) (w : World) :
  unconfigured env ->
  (forall message history userName,
     chatWithBhaii env message history userName w =
     (Ret {| text := [];
             error := Some (js "Sorry, kuch gadbad ho gayi. Can you please try again?") |},
      logged w "Error chatting with Bhaii:" notSet))
  /\ (forall imageFile prompt,
     editImageWithGemini env imageFile prompt w =
     (Ret {| edit_imageUrl := None;
             edit_error := Some (js "Failed to edit image. Network issue or invalid prompt?") |},
      logged w "Error editing image with Gemini:" notSet))
  /\ (forall prompt ratio,
     generateHDImageWithGemini env prompt ratio w =
     (Ret {| imageUrl := None;
             hd_error := Some (js "Failed to generate HD image: API_KEY is not set. Please ensure it is configured in your environment.") |},
      logged w "Error generating HD image with Gemini:" notSet)).
Proof.
  intros H. repeat split; intros.
  - unfold chatWithBhaii, try_catch, chatTry. rewrite bind_run.
    rewrite (getGeminiClient_unconfigured _ _ H). reflexivity.
  - unfold editImageWithGemini, try_catch, editTry. rewrite bind_run.
    rewrite (getGeminiClient_unconfigured _ _ H). reflexivity.
  - unfold generateHDImageWithGemini, try_catch, hdTry. rewrite bind_run.
    rewrite (getGeminiClient_unconfigured _ _ H). reflexivity.
Qed.

Lemma missing_credential_refused_witness :
  unconfigured unconfiguredEnv
  /\ emitted greeted (snd (generateHDImageWithGemini unconfiguredEnv [] ar_1_1 greeted))
     = [ConsoleError (js "Error generating HD image with Gemini:") (LoggedError notSet)].
Proof.
  assert (H : unconfigured unconfiguredEnv) by (intros k E; discriminate E).
  split; [exact H|].
  destruct (missing_credential_refused unconfiguredEnv greeted H) as (_ & _ & G).
  rewrite G. reflexivity.
Defined.

(** X2.  When the body of an operation throws an error whose message
    contains the entity-not-found text of that operation, the operation
    logs the error, opens the key dialog and, if the dialog opens,
    returns its key-issue message; if the dialog throws, the operation
    completes with that exception. *)
Theorem entity_not_found_opens_dialog (env : Env) (w w1 : World) (e : JsError) :
  (forall message history userName,
      chatTry env message history userName w = (Throw e, w1) ->
      message_includes e (js "Requested entity was not found") = true ->
      chatWithBhaii env message history userName w =
      (match openSelectKey env with
       | None => Ret {| text := [];
                        error := Some (js "API key issue. Please select your API key again from the dialog.") |}
       | Some e' => Throw e'
       end, referred w1 "Error chatting with Bhaii:" e))
  /\ (forall imageFile prompt,
      editTry env imageFile prompt w = (Throw e, w1) ->
      message_includes e (js "Requested entity was not found") = true ->
      editImageWithGemini env imageFile prompt w =
      (match openSelectKey env with
       | None => Ret {| edit_imageUrl := None;
                        edit_error := Some (js "API key issue. Please select your API key again from the dialog.") |}
       | Some e' => Throw e'
       end, referred w1 "Error editing image with Gemini:" e))
  /\ (forall prompt ratio,
      hdTry env prompt ratio w = (Throw e, w1) ->
      message_includes e (js "Requested entity was not found.") = true ->
      generateHDImageWithGemini env prompt ratio w =
      (match openSelectKey env with
       | None => Ret {| imageUrl := None;
                        hd_error := Some (js "API key issue: HD Image generation requires billing. Please ensure your API key is enabled for billing and re-select it.") |}
       | Some e' => Throw e'
       end, referred w1 "Error generating HD image with Gemini:" e)).
Proof.
  split; [|split]; intros * E I.
  - unfold chatWithBhaii, try_catch. rewrite E, chatCatch_run, I. reflexivity.
  - unfold editImageWithGemini, try_catch. rewrite E, editCatch_run, I. reflexivity.
  - unfold generateHDImageWithGemini, try_catch. rewrite E, hdCatch_run, I. reflexivity.
Qed.

Lemma entity_not_found_opens_dialog_witness :
  let e := mkError "Requested entity was not found." in
  let w1 := snd (hdTry expiredEnv (js "a cat") ar_1_1 greeted) in
  generateHDImageWithGemini expiredEnv (js "a cat") ar_1_1 greeted =
  (Ret {| imageUrl := None;
          hd_error := Some (js "API key issue: HD Image generation requires billing. Please ensure your API key is enabled for billing and re-select it.") |},
   referred w1 "Error generating HD image with Gemini:" e).
Proof.
  intros e w1.
  destruct (entity_not_found_opens_dialog expiredEnv greeted w1 e) as (_ & _ & G).
  apply (G (js "a cat") ar_1_1); vm_compute; reflexivity.
Defined.

(** ** Abrupt completions *)




(** ** Round trips *)

Lemma remoteCalls_app a b : remoteCalls (a ++ b) = (remoteCalls a + remoteCalls b)%nat.
Proof. unfold remoteCalls. rewrite List.filter_app, List.length_app. reflexivity. Qed.

Lemma spends_quiet {A} (m : M A) n :
  emits (fun e => is_remote_call e = false) m -> spends n m.
Proof.
  intros H w o w' E. destruct (H w o w' E) as (new & -> & F).
  exists new. split; [reflexivity|].
  unfold remoteCalls.
  replace (List.filter is_remote_call new) with (@nil Event); [cbn; lia|].
  induction F as [|x l Hx F IH]; [reflexivity|]. cbn. rewrite Hx. exact IH.
Qed.

Lemma spends_bind {A B} (m : M A) (k : A -> M B) n1 n2 :
  spends n1 m -> (forall a, spends n2 (k a)) -> spends (n1 + n2) (m ≫= k).
Proof.
  intros Hm Hk w o w' E. rewrite bind_run in E.
  destruct (m w) as [[a|e] w1] eqn:E1.
  - destruct (Hm _ _ _ E1) as (n & T1 & L1).
    destruct (Hk a _ _ _ E) as (n' & T2 & L2).
    exists (n ++ n'). rewrite T2, T1, <- app_assoc. split; [reflexivity|].
    rewrite remoteCalls_app. lia.
  - inversion E; subst. destruct (Hm _ _ _ E1) as (n & T1 & L1).
    exists n. split; [exact T1|lia].
Qed.

Lemma spends_try_catch {A} (m : M A) (h : JsError -> M A) n1 n2 :
  spends n1 m -> (forall e, spends n2 (h e)) -> spends (n1 + n2) (try_catch m h).
Proof.
  intros Hm Hk w o w' E. unfold try_catch in E.
  destruct (m w) as [[a|e] w1] eqn:E1.
  - inversion E; subst. destruct (Hm _ _ _ E1) as (n & T1 & L1).
    exists n. split; [exact T1|lia].
  - destruct (Hm _ _ _ E1) as (n & T1 & L1).
    destruct (Hk e _ _ _ E) as (n' & T2 & L2).
    exists (n ++ n'). rewrite T2, T1, <- app_assoc. split; [reflexivity|].
    rewrite remoteCalls_app. lia.
Qed.

Lemma spends_emit e : spends 1 (emit e).
Proof.
  intros w o w' E. inversion E; subst. exists [e]. split; [reflexivity|].
  unfold remoteCalls. cbn. destruct (is_remote_call e); cbn; lia.
Qed.

Ltac quiet := apply spends_quiet; solve [emits_steps; reflexivity].

Ltac spends_steps :=
  repeat first
    [ quiet
    | apply (spends_bind _ _ 0 1); [quiet | intros ?]
    | apply (spends_bind _ _ 1 0); [apply spends_emit | intros ?]
    | match goal with
      | |- spends _ (match ?x with _ => _ end) => destruct x
      | |- spends _ (if ?x then _ else _) => destruct x
      end ].

Lemma spends_chat env message history userName :
  spends 1 (chatWithBhaii env message history userName).
Proof.
  unfold chatWithBhaii. apply (spends_try_catch _ _ 1 0).
  - unfold chatTry. spends_steps.
  - intros e. unfold chatCatch. quiet.
Qed.

Lemma spends_edit env imageFile prompt :
  spends 1 (editImageWithGemini env imageFile prompt).
Proof.
  unfold editImageWithGemini. apply (spends_try_catch _ _ 1 0).
  - unfold editTry, blobToBase64. spends_steps.
  - intros e. unfold editCatch. quiet.
Qed.

Lemma spends_hd env prompt ratio :
  spends 1 (generateHDImageWithGemini env prompt ratio).
Proof.
  unfold generateHDImageWithGemini. apply (spends_try_catch _ _ 1 0).
  - unfold hdTry. spends_steps.
  - intros e. unfold hdCatch. quiet.
Qed.

Lemma spends_emitted n {A} (m : M A) w :
  spends n m -> (remoteCalls (emitted w (snd (m w))) <= n)%nat.
Proof.
  intros H. destruct (m w) as [o w'] eqn:E. destruct (H _ _ _ E) as (new & T & L).
  cbn [snd]. rewrite (emitted_app _ _ _ T). exact L.
Qed.

(** X4.  Whatever the host answers, one run of an operation makes at
    most one round trip to the remote service: nothing is retried. *)
Theorem one_round_trip_at_most (env : Env) (w : World) :
  (forall message history userName,
     (remoteCalls (emitted w (snd (chatWithBhaii env message history userName w))) <= 1)%nat)
  /\ (forall imageFile prompt,
     (remoteCalls (emitted w (snd (editImageWithGemini env imageFile prompt w))) <= 1)%nat)
  /\ (forall prompt ratio,
     (remoteCalls (emitted w (snd (generateHDImageWithGemini env prompt ratio w))) <= 1)%nat).
Proof.
  repeat split; intros.
  - apply spends_emitted, spends_chat.
  - apply spends_emitted, spends_edit.
  - apply spends_emitted, spends_hd.
Qed.


(** ** The text of a chat answer *)

Lemma collect_streamed (cs : list Chunk) (acc : jsstring) :
  collect acc cs = acc ++ List.concat (List.map (fun c : Chunk => default [] c) cs).
Proof.
  unfold collect. revert acc.
  induction cs as [|c cs IH]; intros acc; cbn [fold_left List.map List.concat].
  - now rewrite app_nil_r.
  - rewrite IH. destruct c as [[|x t]|]; cbn [default]; cbn.
    + reflexivity.
    + now rewrite <- app_assoc.
    + reflexivity.
Qed.

(** X5.  When the stream of a chat request ends normally, the text of
    the result is the trimmed concatenation of the texts of its chunks,
    chunks without text counting for nothing, and there is no error.
    When the stream breaks, what had been received is dropped: a result
    that is returned then has an empty text and an error. *)
Theorem chat_answer_is_trimmed_stream
    (env : Env) (message : jsstring) (history : loc) (userName : jsstring)
    (w : World) (msgs : list ChatMessage) (k : jsstring) (stream : Stream) :
  heap w !! history = Some (MessageArray msgs) ->
  API_KEY env = Some k -> truthy k = true ->
  chats_create env (chatParameters msgs) = None ->
  sendMessageStream env (chatParameters msgs) (personalize userName message) = Ret stream ->
  let o := fst (chatWithBhaii env message history userName w) in
  (failure stream = None ->
   o = Ret {| text := trim (streamed stream); error := None |})
  /\ (forall e r, failure stream = Some e -> o = Ret r ->
                  Gemini.text r = [] /\ is_Some (error r)).
Proof.
  intros Hh Hk Ht Hc Hs o. subst o.
  unfold chatWithBhaii, try_catch.
  rewrite (chatTry_available _ _ _ _ _ _ _ Hh Hk Ht Hc), Hs.
  rewrite bind_run. cbn [answer ret]. rewrite bind_run.
  split.
  - intros ->. cbn [ret fst]. rewrite collect_streamed. reflexivity.
  - intros e r ->. cbn [throw]. rewrite chatCatch_run.
    destruct (message_includes e _); [destruct (openSelectKey env)|];
      cbn [fst]; intros E; inversion E; subst; cbn; eauto.
Qed.

Lemma chat_answer_is_trimmed_stream_witness :
  fst (chatWithBhaii paintingEnv (js "hi") 1%positive [] greeted)
  = Ret {| text := js "Haan bhai"; error := None |}
  /\ exists r, fst (chatWithBhaii breakingEnv (js "hi") 1%positive [] greeted) = Ret r
               /\ Gemini.text r = [] /\ is_Some (error r).
Proof.
  split.
  - pose proof (chat_answer_is_trimmed_stream paintingEnv (js "hi") 1%positive [] greeted
                  [greeting] (js "key")
                  {| chunks := [Some (js " Haan "); Some []; None; Some (js "bhai ")];
                     failure := None |}
                  eq_refl eq_refl eq_refl eq_refl eq_refl) as [G _].
    rewrite (G eq_refl). vm_compute. reflexivity.
  - pose proof (chat_answer_is_trimmed_stream breakingEnv (js "hi") 1%positive [] greeted
                  [greeting] (js "key")
                  {| chunks := [Some (js "Haan")];
                     failure := Some (mkError "stream reset") |}
                  eq_refl eq_refl eq_refl eq_refl eq_refl) as [_ G].
    eexists. split; [vm_compute; reflexivity|].
    eapply G; [reflexivity|vm_compute; reflexivity].
Defined.

(** ** The requests *)

Lemma blobToBase64_run env blob w :
  blobToBase64 env blob w =
  (match readAsDataURL env blob with
   | Ret url => Ret (nth_error (split 44%N url) 1)
   | Throw e => Throw e
   end, {| heap := heap w; trace := trace w ++ [ReadAsDataURL blob] |}).
Proof.
  unfold blobToBase64. rewrite bind_run. cbn [emit]. rewrite bind_run.
  destruct (readAsDataURL env blob); reflexivity.
Qed.



Lemma edit_emits_request env imageFile prompt :
  emits (fun e => forall q, e = GenerateContent q ->
                   exists url, readAsDataURL env imageFile = Ret url
                               /\ q = editRequest imageFile prompt url)
        (editImageWithGemini env imageFile prompt).
Proof.
  set (P := fun e : Event => forall q, e = GenerateContent q -> _).
  unfold editImageWithGemini. apply emits_try_catch.
  - unfold editTry. apply emits_bind; [apply emits_getGeminiClient|intros ai].
    intros w0 o w' E. rewrite bind_run, blobToBase64_run in E.
    destruct (readAsDataURL env imageFile) as [url|e] eqn:Er.
    + match type of E with ?m ?w1 = _ => assert (Hs : emits P m) end.
      { emits_steps; intros q Eq; try discriminate.
        inversion Eq; subst. exists url. split; reflexivity. }
      destruct (Hs _ _ _ E) as (new & T & F). cbn [trace] in T.
      exists (ReadAsDataURL imageFile :: new). rewrite T, <- app_assoc.
      split; [reflexivity|]. constructor; [intros q Eq; discriminate|exact F].
    + inversion E; subst. exists [ReadAsDataURL imageFile].
      split; [reflexivity|]. repeat constructor. intros q Eq; discriminate.
  - intros e. unfold editCatch. emits_steps; intros q Eq; discriminate.
Qed.

(** X7.  Every request for an edited image is built from the data URL
    read from the given file: it carries the type of the file as MIME
    type and the prompt as given, not trimmed. *)
Theorem edit_request_carries_file
    (env : Env) (imageFile : File) (prompt : jsstring) (w : World)
    (p : GenerateContentParameters) :
  In (GenerateContent p) (emitted w (snd (editImageWithGemini env imageFile prompt w))) ->
  exists url, readAsDataURL env imageFile = Ret url
              /\ p = editRequest imageFile prompt url
              /\ gc_prompt p = prompt
              /\ mimeType (inlineData (gc_image p)) = Some (file_type imageFile).
Proof.
  intros Hin.
  destruct (editImageWithGemini env imageFile prompt w) as [o w'] eqn:E.
  destruct (edit_emits_request _ _ _ _ _ _ E) as (new & T & F). cbn [snd] in Hin.
  rewrite (emitted_app _ _ _ T) in Hin.
  rewrite List.Forall_forall in F. destruct (F _ Hin p eq_refl) as (url & Hu & ->).
  exists url. repeat split; assumption.
Qed.

Lemma edit_request_carries_file_witness :
  exists url, readAsDataURL paintingEnv picture = Ret url
              /\ editRequest picture (js " add a hat ") (js "data:image/png;base64,AAAA")
                 = editRequest picture (js " add a hat ") url
              /\ gc_prompt (editRequest picture (js " add a hat ") (js "data:image/png;base64,AAAA"))
                 = js " add a hat "
              /\ mimeType (inlineData (gc_image
                   (editRequest picture (js " add a hat ") (js "data:image/png;base64,AAAA"))))
                 = Some (file_type picture).
Proof.
  apply (edit_request_carries_file paintingEnv picture (js " add a hat ") greeted).
  vm_compute. right. left. reflexivity.
Defined.

Lemma hd_emits_request env prompt ratio :
  emits (fun e => forall q, e = GenerateImages q ->
                            q = hdRequest prompt ratio /\ trim prompt <> [])
        (generateHDImageWithGemini env prompt ratio).
Proof.
  unfold generateHDImageWithGemini. apply emits_try_catch.
  - unfold hdTry. apply emits_bind; [apply emits_getGeminiClient|intros ai].
    destruct (truthy (trim prompt)) eqn:Et; cbn [negb].
    + emits_steps; intros q Eq; try discriminate.
      inversion Eq; subst. split; [reflexivity|].
      intros E0. rewrite E0 in Et. discriminate.
    + apply emits_ret.
  - intros e. unfold hdCatch. emits_steps; intros q Eq; discriminate.
Qed.

(** X8.  Every request for a generated image carries the trimmed prompt,
    which is not empty, asks for one JPEG image and passes the aspect
    ratio on. *)
Theorem hd_request_is_trimmed
    (env : Env) (prompt : jsstring) (ratio : AspectRatio) (w : World)
    (p : GenerateImagesParameters) :
  In (GenerateImages p) (emitted w (snd (generateHDImageWithGemini env prompt ratio w))) ->
  p = hdRequest prompt ratio /\ gi_prompt p = trim prompt /\ gi_prompt p <> []
  /\ numberOfImages p = 1 /\ aspectRatio p = ratio.
Proof.
  intros Hin.
  destruct (generateHDImageWithGemini env prompt ratio w) as [o w'] eqn:E.
  destruct (hd_emits_request _ _ _ _ _ _ E) as (new & T & F). cbn [snd] in Hin.
  rewrite (emitted_app _ _ _ T) in Hin.
  rewrite List.Forall_forall in F. destruct (F _ Hin p eq_refl) as [-> Hne].
  repeat split; assumption.
Qed.

Lemma hd_request_is_trimmed_witness :
  gi_prompt (hdRequest (js "  a cat ") ar_16_9) = js "a cat".
Proof.
  destruct (hd_request_is_trimmed paintingEnv (js "  a cat ") ar_16_9 greeted
              (hdRequest (js "  a cat ") ar_16_9)) as (_ & G & _).
  - vm_compute. left. reflexivity.
  - rewrite G. vm_compute. reflexivity.
Defined.


(** ** The results *)

Section Yields.
Context {A : Type} (Q : A -> Prop).

Lemma yields_ret (a : A) : Q a -> yields Q (ret a).
Proof. intros H w a' w' E. inversion E; subst. exact H. Qed.

Lemma yields_throw (e : JsError) : yields Q (throw e).
Proof. intros w a' w' E. discriminate E. Qed.

Lemma yields_bind {B} (m : M B) (k : B -> M A) :
  (forall b, yields Q (k b)) -> yields Q (m ≫= k).
Proof.
  intros H w a w' E. rewrite bind_run in E.
  destruct (m w) as [[b|e] w1]; [exact (H b _ _ _ E)|discriminate].
Qed.

Lemma yields_try_catch (m : M A) (h : JsError -> M A) :
  yields Q m -> (forall e, yields Q (h e)) -> yields Q (try_catch m h).
Proof.
  intros Hm Hh w a w' E. unfold try_catch in E.
  destruct (m w) as [[b|e] w1] eqn:E1.
  - inversion E; subst. exact (Hm _ _ _ E1).
  - exact (Hh e _ _ _ E).
Qed.

End Yields.

Ltac yields_steps :=
  repeat first
    [ apply yields_throw
    | apply yields_bind; intros ?
    | apply yields_try_catch; [|intros ?]
    | match goal with
      | |- yields _ (match ?x with _ => _ end) => destruct x
      | |- yields _ (if ?x then _ else _) => destruct x
      end
    | apply yields_ret ].


Lemma edit_pictured env imageFile prompt :
  yields (fun r => pictured (edit_imageUrl r) (edit_error r))
         (editImageWithGemini env imageFile prompt).
Proof.
  unfold editImageWithGemini, editTry, editCatch. yields_steps.
  all: first [ left; eexists; repeat split; reflexivity
             | right; split; [reflexivity|]; eexists; split; [reflexivity|discriminate] ].
Qed.




(** ** An answer with or without an image *)

(** X10.  With a credential, once the remote service has answered, the
    first part of the first candidate (for an edit) or the bytes of the
    first image (for a generation) decide the result.  If present, the
    result is the data URL built from it; an inline part without data
    still gives a URL, spelling [undefined].  If absent, the result is
    the try-a-different-prompt error, the answer is logged and the key
    dialog stays closed. *)
Theorem image_answer_decides_result (env : Env) (w : World) (k : jsstring) :
  API_KEY env = Some k -> truthy k = true ->
  (forall imageFile prompt url response,
      readAsDataURL env imageFile = Ret url ->
      generateContent env (editRequest imageFile prompt url) = Ret response ->
      editImageWithGemini env imageFile prompt w =
      match firstInlineData response with
      | Some part =>
          (Ret {| edit_imageUrl := Some (js "data:" ++ interpolate (mimeType part)
                                         ++ js ";base64," ++ interpolate (data part));
                  edit_error := None |},
           {| heap := heap w;
              trace := trace w ++ [ReadAsDataURL imageFile;
                                   GenerateContent (editRequest imageFile prompt url)] |})
      | None =>
          (Ret {| edit_imageUrl := None;
                  edit_error := Some (js "Could not generate edited image. Please try a different prompt.") |},
           {| heap := heap w;
              trace := trace w ++ [ReadAsDataURL imageFile;
                                   GenerateContent (editRequest imageFile prompt url);
                                   ConsoleError (js "No image data received from Gemini:")
                                     (LoggedContentResponse response)] |})
      end)
  /\ (forall prompt ratio response,
      trim prompt <> [] ->
      generateImages env (hdRequest prompt ratio) = Ret response ->
      generateHDImageWithGemini env prompt ratio w =
      match truthyBytes (firstImage response) with
      | Some (generatedImage, bytes) =>
          (Ret {| imageUrl := Some (js "data:" ++ interpolate (image_mimeType generatedImage)
                                    ++ js ";base64," ++ bytes);
                  hd_error := None |},
           {| heap := heap w;
              trace := trace w ++ [GenerateImages (hdRequest prompt ratio)] |})
      | None =>
          (Ret {| imageUrl := None;
                  hd_error := Some (js "Could not generate HD image. Please try a different prompt.") |},
           {| heap := heap w;
              trace := trace w ++ [GenerateImages (hdRequest prompt ratio);
                                   ConsoleError (js "No image data received from HD image generator:")
                                     (LoggedImagesResponse response)] |})
      end).
Proof.
  intros Hk Ht. split.
  - intros imageFile prompt url response Hr Hg.
    unfold editImageWithGemini, try_catch, editTry.
    rewrite bind_run, (getGeminiClient_configured _ _ _ Hk Ht).
    rewrite bind_run, blobToBase64_run, Hr.
    fold (editRequest imageFile prompt url).
    rewrite bind_run. cbn [emit heap trace]. rewrite bind_run, Hg. cbn [answer ret].
    rewrite <- app_assoc. cbn [app].
    destruct (firstInlineData response) as [part|]; [reflexivity|].
    rewrite bind_run, ChatFacts.console_error_run. cbn [heap trace ret].
    rewrite <- app_assoc. reflexivity.
  - intros prompt ratio response Hp Hg.
    unfold generateHDImageWithGemini, try_catch, hdTry.
    rewrite bind_run, (getGeminiClient_configured _ _ _ Hk Ht).
    destruct (trim prompt) as [|c t] eqn:Et; [contradiction|]. cbn [truthy negb].
    rewrite <- Et. fold (hdRequest prompt ratio).
    rewrite bind_run. cbn [emit heap trace]. rewrite bind_run, Hg. cbn [answer ret].
    destruct (truthyBytes (firstImage response)) as [[img bytes]|]; [reflexivity|].
    rewrite bind_run, ChatFacts.console_error_run. cbn [heap trace ret].
    rewrite <- app_assoc. reflexivity.
Qed.

Lemma image_answer_decides_result_witness :
  fst (editImageWithGemini answeringEnv picture (js "add a hat") greeted)
  = Ret {| edit_imageUrl := None;
           edit_error := Some (js "Could not generate edited image. Please try a different prompt.") |}
  /\ fst (generateHDImageWithGemini paintingEnv (js "a cat") ar_1_1 greeted)
     = Ret {| imageUrl := Some (js "data:image/jpeg;base64,CCCC"); hd_error := None |}.
Proof.
  split.
  - destruct (image_answer_decides_result answeringEnv greeted (js "key") eq_refl eq_refl)
      as [G _].
    rewrite (G picture (js "add a hat") (js "data:image/png;base64,AAAA")
               {| candidates := None |} eq_refl eq_refl).
    reflexivity.
  - destruct (image_answer_decides_result paintingEnv greeted (js "key") eq_refl eq_refl)
      as [_ G].
    rewrite (G (js "a cat") ar_1_1
               {| generatedImages :=
                    Some [ {| image := Some {| imageBytes := Some (js "CCCC");
                                               image_mimeType := Some (js "image/jpeg") |} |} ] |}).
    + reflexivity.
    + vm_compute. discriminate.
    + reflexivity.
Defined.

End ConductFacts.

(* ================================================================== *)
(** * The chat view: guard, welcome, requests, conversations *)
(* ================================================================== *)

Module ChatViewFacts.
Import JS Types Constants Gemini Json Chat Examples Scenarios Conduct GeminiFacts ChatFacts StringFacts.

(** X11.  A submission is dropped exactly when the input is blank or a
    request is in flight, and a dropped submission changes nothing: same
    state, same store, no event. *)
Theorem blank_or_busy_submission_dropped
    (env : Env) (clock : Clock) (s : State) (w : World) :
  (rejected s = true <-> blank (inputMessage s) \/ loading s = true)
  /\ (rejected s = true -> handleSendMessage env clock s w = (Ret s, w)).
Proof.
  split.
  - unfold rejected, str_eqb. rewrite orb_true_iff, bool_decide_eq_true, trim_nil_iff.
    reflexivity.
  - intros H. unfold handleSendMessage. rewrite H. reflexivity.
Qed.

Lemma blank_or_busy_submission_dropped_witness :
  handleSendMessage answeringEnv tickingClock (setInputMessage [32; 10; 9]%N typing) greeted
  = (Ret (setInputMessage [32; 10; 9]%N typing), greeted).
Proof.
  apply (blank_or_busy_submission_dropped answeringEnv tickingClock
           (setInputMessage [32; 10; 9]%N typing) greeted).
  reflexivity.
Defined.


(** ** The store only grows *)

Lemma grows_ret {A} (a : A) : grows (mret a).
Proof. intros w o w' E l c H. inversion E; subst. exact H. Qed.

Lemma grows_stable {A} (m : M A) : stable m -> grows m.
Proof. intros Hs w o w' E l c H. rewrite (Hs _ _ _ E). exact H. Qed.

Lemma grows_bind {A B} (m : M A) (k : A -> M B) :
  grows m -> (forall a, grows (k a)) -> grows (m ≫= k).
Proof.
  intros Hm Hk w o w' E l c H. rewrite bind_run in E.
  destruct (m w) as [[a|e] w1] eqn:E1.
  - exact (Hk a _ _ _ E l c (Hm _ _ _ E1 l c H)).
  - inversion E; subst. exact (Hm _ _ _ E1 l c H).
Qed.

Lemma grows_attempt {A} (m : M A) : grows m -> grows (attempt m).
Proof.
  intros Hm w o w' E l c H. unfold attempt in E.
  destruct (m w) as [o1 w1] eqn:E1. inversion E; subst. exact (Hm _ _ _ E1 l c H).
Qed.

Lemma grows_alloc (c : Cell) : grows (alloc c).
Proof.
  intros w o w' E l c0 H. inversion E; subst. cbn [heap].
  rewrite lookup_insert_ne; [exact H|].
  intros <-. rewrite fresh_lookup in H. discriminate H.
Qed.

Lemma grows_chatWithBhaii env message history userName :
  grows (chatWithBhaii env message history userName).
Proof. intros w o w' E l c H. exact (chatWithBhaii_frame _ _ _ _ _ _ _ _ _ E H). Qed.

Lemma grows_appendMessage m s : grows (appendMessage m s).
Proof.
  unfold appendMessage.
  apply grows_bind; [apply grows_stable, stable_read|intros prev].
  apply grows_bind; [apply grows_alloc|intros arr]. apply grows_ret.
Qed.

Lemma grows_settle clock s1 o : grows (settle clock s1 o).
Proof.
  destruct o as [r|e]; unfold settle.
  - apply grows_bind; [apply grows_appendMessage|intros s2; apply grows_ret].
  - apply grows_bind; [apply grows_stable, stable_console_error|intros _].
    apply grows_bind; [apply grows_appendMessage|intros s2; apply grows_ret].
Qed.

Lemma grows_handleSendMessage env clock s : grows (handleSendMessage env clock s).
Proof.
  unfold handleSendMessage. destruct (rejected s); [apply grows_ret|].
  apply grows_bind; [apply grows_stable, stable_read|intros old].
  apply grows_bind; [apply grows_alloc|intros l].
  apply grows_bind; [apply grows_attempt, grows_chatWithBhaii|intros o].
  apply grows_settle.
Qed.

Lemma grows_welcomeEffect clock s : grows (welcomeEffect clock s).
Proof.
  unfold welcomeEffect.
  apply grows_bind; [apply grows_stable, stable_read|intros [|m ms]].
  - apply grows_bind; [apply grows_alloc|intros l; apply grows_ret].
  - apply grows_ret.
Qed.

Lemma grows_submitAll subs : forall s, grows (submitAll subs s).
Proof.
  induction subs as [|[[env clock] text] subs IH]; intros s; cbn [submitAll].
  - apply grows_ret.
  - apply grows_bind; [apply grows_handleSendMessage|exact IH].
Qed.

(** X12.  The chat view never changes an array it was given: the welcome
    effect, a submission and a whole conversation leave every array that
    exists in the store as it is, whatever the host does; new
    transcripts are new arrays. *)
Theorem chat_view_never_overwrites (w : World) (l : loc) (c : Cell) :
  heap w !! l = Some c ->
  (forall clock s, heap (snd (welcomeEffect clock s w)) !! l = Some c)
  /\ (forall env clock s, heap (snd (handleSendMessage env clock s w)) !! l = Some c)
  /\ (forall subs s, heap (snd (submitAll subs s w)) !! l = Some c).
Proof.
  intros H. split; [|split]; intros.
  - destruct (welcomeEffect clock s w) as [o w'] eqn:E.
    exact (grows_welcomeEffect _ _ _ _ _ E l c H).
  - destruct (handleSendMessage env clock s w) as [o w'] eqn:E.
    exact (grows_handleSendMessage _ _ _ _ _ _ E l c H).
  - destruct (submitAll subs s w) as [o w'] eqn:E.
    exact (grows_submitAll _ _ _ _ _ E l c H).
Qed.

Lemma chat_view_never_overwrites_witness :
  heap (snd (handleSendMessage answeringEnv tickingClock typing greeted)) !! 1%positive
  = Some (MessageArray [greeting]).
Proof.
  apply (chat_view_never_overwrites greeted 1%positive (MessageArray [greeting])).
  reflexivity.
Defined.

(** ** The request of an accepted submission *)

Lemma handleSendMessage_run env clock s w msgs :
  transcript s w = Some msgs -> rejected s = false ->
  handleSendMessage env clock s w =
  let l := fresh (dom (heap w)) in
  let w1 := {| heap := <[l := MessageArray (msgs ++ [newUserMessage clock s])]> (heap w);
               trace := trace w |} in
  let r := chatWithBhaii env (trim (inputMessage s)) l (userName s) w1 in
  settle clock (setLoading true (setInputMessage [] (setChatHistory l s))) (fst r) (snd r).
Proof.
  intros Ht Hacc. unfold handleSendMessage. rewrite Hacc.
  rewrite bind_run, (transcript_read _ _ _ Ht). rewrite bind_run. cbn [alloc].
  rewrite bind_run. unfold attempt at 1. cbn zeta.
  destruct (chatWithBhaii _ _ _ _ _) as [o w2]. reflexivity.
Qed.

Lemma settle_trace clock s1 o w :
  trace (snd (settle clock s1 o w)) =
  trace w ++ match o with
             | Ret _ => []
             | Throw e => [ConsoleError (js "Failed to send message:") (LoggedError e)]
             end.
Proof.
  assert (Ha : forall m s w0, trace (snd (appendMessage m s w0)) = trace w0).
  { intros m s w0. unfold appendMessage. rewrite bind_run.
    unfold read_messages. destruct (heap w0 !! chatHistory s) as [[ms|cs]|]; try reflexivity. }
  destruct o as [r|e]; unfold settle.
  - rewrite bind_run. specialize (Ha {| id := toString (clock 2%nat + 1); sender := bhaii;
                        Types.text := responseText r; timestamp := ValidDate (clock 3%nat) |} s1 w).
    destruct (appendMessage _ s1 w) as [[s2|e] w2]; cbn in *;
      rewrite Ha, app_nil_r; reflexivity.
  - rewrite bind_run, console_error_run, bind_run.
    match goal with |- context [appendMessage ?m s1 ?w0] =>
      specialize (Ha m s1 w0); destruct (appendMessage m s1 w0) as [[s2|e'] w2] end;
      cbn in *; rewrite Ha; reflexivity.
Qed.

(** X13.  The request of an accepted submission carries the transcript
    extended with the new message of the user, whose text is the trimmed
    input; with a working client the message sent is that text,
    prefixed with the name of the user when there is one. *)
Theorem submission_request_carries_transcript
    (env : Env) (clock : Clock) (s : State) (w : World)
    (msgs : list ChatMessage) :
  transcript s w = Some msgs -> rejected s = false ->
  let sent := msgs ++ [newUserMessage clock s] in
  let events := emitted w (snd (handleSendMessage env clock s w)) in
  Types.text (newUserMessage clock s) = trim (inputMessage s)
  /\ (forall p x, In (SendMessageStream p x) events -> p = chatParameters sent)
  /\ (forall k, API_KEY env = Some k -> truthy k = true ->
                chats_create env (chatParameters sent) = None ->
                In (SendMessageStream (chatParameters sent)
                      (personalize (userName s) (trim (inputMessage s)))) events).
Proof.
  intros Ht Hacc sent events. split; [reflexivity|].
  subst events. rewrite (handleSendMessage_run _ _ _ _ _ Ht Hacc). cbn zeta.
  set (l := fresh (dom (heap w))).
  set (w1 := {| heap := _; trace := trace w |}).
  assert (Hh : heap w1 !! l = Some (MessageArray sent)) by apply lookup_insert_eq.
  destruct (chatWithBhaii env (trim (inputMessage s)) l (userName s) w1) as [o w2] eqn:Ec.
  destruct (chatWithBhaii_emits _ _ _ _ _ _ _ _ Hh Ec) as (new & T & F).
  cbn [fst snd].
  assert (Hem : emitted w (snd (settle clock (setLoading true (setInputMessage []
                                  (setChatHistory l s))) o w2))
                = new ++ match o with
                         | Ret _ => []
                         | Throw e => [ConsoleError (js "Failed to send message:") (LoggedError e)]
                         end).
  { apply emitted_app. rewrite settle_trace, T. cbn [trace w1]. now rewrite app_assoc. }
  rewrite Hem. split.
  - intros p x Hin. apply in_app_or in Hin as [Hin|Hin].
    + rewrite List.Forall_forall in F. exact (F _ Hin p x eq_refl).
    + destruct o; [destruct Hin|]. destruct Hin as [Hin|[]]. discriminate Hin.
  - intros k Hk Htk Hc. apply in_or_app. left.
    pose proof (chatWithBhaii_sends env (trim (inputMessage s)) l (userName s) w1 sent k
                  Hh Hk Htk Hc) as Hs.
    rewrite Ec in Hs. cbn [snd] in Hs.
    rewrite (emitted_app w1 w2 new T) in Hs. exact Hs.
Qed.

Lemma submission_request_carries_transcript_witness :
  In (SendMessageStream (chatParameters ([greeting] ++ [newUserMessage tickingClock typing]))
        (js "Ravi says: Kya haal hai?"))
     (emitted greeted (snd (handleSendMessage answeringEnv tickingClock typing greeted))).
Proof.
  destruct (submission_request_carries_transcript answeringEnv tickingClock typing greeted
              [greeting] eq_refl eq_refl) as (_ & _ & G).
  apply (G (js "key")); reflexivity.
Defined.


(** ** The welcome effect *)



(** ** Identifiers of the two turns *)

Lemma settle_reply (clock : Clock) (s1 : State)
    (o : Outcome GeminiChatResponse) (w : World) (prev : list ChatMessage) :
  transcript s1 w = Some prev ->
  exists s' w' reply,
    settle clock s1 o w = (Ret s', w')
    /\ transcript s' w' = Some (prev ++ [reply])
    /\ id reply = toString (clock 2%nat + 1)
    /\ sender reply = bhaii
    /\ timestamp reply = ValidDate (clock 3%nat).
Proof.
  intros Ht. destruct o as [response|e]; unfold settle.
  - set (m := {| id := _ |}).
    destruct (appendMessage_run m s1 w prev Ht) as (l & Hrun & _).
    rewrite bind_run, Hrun. do 3 eexists. split; [reflexivity|].
    split; [apply transcript_heap; cbn; apply lookup_insert_eq|].
    repeat split.
  - set (m := {| id := _ |}).
    rewrite bind_run, console_error_run.
    set (w2 := {| heap := heap w; trace := _ |}).
    destruct (appendMessage_run m s1 w2 prev) as (l & Hrun & _); [exact Ht|].
    rewrite bind_run, Hrun. do 3 eexists. split; [reflexivity|].
    split; [apply transcript_heap; cbn; apply lookup_insert_eq|].
    repeat split.
Qed.

(** X15.  When the clock does not run backwards during a submission,
    the two messages it appends have different ids: the id of the answer
    is the decimal of a later instant plus one. *)
Theorem turn_ids_differ
    (env : Env) (clock : Clock) (s : State) (w : World)
    (msgs : list ChatMessage) :
  transcript s w = Some msgs -> rejected s = false ->
  clock 0%nat <= clock 2%nat ->
  exists s' w' reply,
    handleSendMessage env clock s w = (Ret s', w')
    /\ transcript s' w' = Some (msgs ++ [newUserMessage clock s; reply])
    /\ id (newUserMessage clock s) = toString (clock 0%nat)
    /\ id reply = toString (clock 2%nat + 1)
    /\ id reply <> id (newUserMessage clock s).
Proof.
  intros Ht Hacc Hc. rewrite (handleSendMessage_run _ _ _ _ _ Ht Hacc). cbn zeta.
  set (l := fresh (dom (heap w))).
  set (w1 := {| heap := _; trace := trace w |}).
  set (s1 := setLoading true _).
  destruct (chatWithBhaii env (trim (inputMessage s)) l (userName s) w1) as [o w2] eqn:Ec.
  cbn [fst snd].
  assert (Hl : transcript s1 w2 = Some (msgs ++ [newUserMessage clock s])).
  { apply transcript_heap. subst s1. cbn [chatHistory setLoading setInputMessage setChatHistory].
    eapply chatWithBhaii_frame; [exact Ec|]. subst w1. cbn [heap].
    apply lookup_insert_eq. }
  destruct (settle_reply clock s1 o w2 _ Hl) as (s' & w' & reply & Hs & Ht' & Hid & _).
  exists s', w', reply. split; [exact Hs|].
  split; [rewrite Ht', <- app_assoc; reflexivity|].
  split; [reflexivity|]. split; [exact Hid|].
  rewrite Hid. cbn [id newUserMessage]. intros E. apply toString_inj in E. lia.
Qed.

Lemma turn_ids_differ_witness :
  exists s' w' reply,
    handleSendMessage answeringEnv tickingClock typing greeted = (Ret s', w')
    /\ transcript s' w' = Some ([greeting] ++ [newUserMessage tickingClock typing; reply])
    /\ id (newUserMessage tickingClock typing) = toString (tickingClock 0%nat)
    /\ id reply = toString (tickingClock 2%nat + 1)
    /\ id reply <> id (newUserMessage tickingClock typing).
Proof.
  apply (turn_ids_differ answeringEnv tickingClock typing greeted [greeting]).
  - reflexivity.
  - reflexivity.
  - vm_compute. discriminate.
Defined.


(** ** A conversation *)

(** X16.  A conversation only appends: after any sequence of
    submissions with non-blank texts the transcript is the previous one
    followed, for each submission in order, by the message of the user
    with the trimmed text and then one answer of the assistant. *)
Theorem conversation_appends_in_order
    (subs : list Submission) (s : State) (w : World) (msgs : list ChatMessage) :
  Forall (fun sub => trim (snd sub) <> []) subs ->
  transcript s w = Some msgs -> loading s = false ->
  exists s' w' replies,
    submitAll subs s w = (Ret s', w')
    /\ length replies = length subs
    /\ Forall (fun r => sender r = bhaii) replies
    /\ transcript s' w'
       = Some (msgs ++ List.concat (zip_with (fun sub reply => [asked sub; reply])
                                             subs replies))
    /\ loading s' = false.
Proof.
  revert s w msgs.
  induction subs as [|[[env clock] text] subs IH]; intros s w msgs Hall Ht Hl.
  - exists s, w, []. split; [reflexivity|]. split; [reflexivity|].
    split; [constructor|]. cbn. rewrite app_nil_r. split; assumption.
  - inversion Hall as [|? ? Htext Hrest]; subst. cbn [snd] in Htext.
    destruct (handleSendMessage_accepted env clock (setInputMessage text s) w msgs)
      as (s1 & w1 & reply & Hrun & Ht1 & _ & _ & Hb & Hl1 & _).
    + exact Ht.
    + unfold rejected, str_eqb. cbn [inputMessage setInputMessage loading].
      rewrite Hl, bool_decide_eq_false_2 by exact Htext. reflexivity.
    + destruct (IH s1 w1 _ Hrest Ht1 Hl1)
        as (s' & w' & replies & Hrun' & Hlen & Hall' & Ht' & Hl').
      exists s', w', (reply :: replies). cbn [submitAll]. rewrite bind_run, Hrun.
      split; [exact Hrun'|]. split; [cbn [length]; now rewrite Hlen|].
      split; [constructor; assumption|]. split; [|exact Hl'].
      rewrite Ht'. cbn [zip_with List.concat]. rewrite <- app_assoc. reflexivity.
Qed.

Lemma conversation_appends_in_order_witness :
  exists s' w' replies,
    submitAll [(answeringEnv, tickingClock, js " hi "); (silentEnv, tickingClock, js "aur?")]
              typing greeted = (Ret s', w')
    /\ length replies = 2%nat
    /\ Forall (fun r => sender r = bhaii) replies
    /\ transcript s' w'
       = Some ([greeting] ++ List.concat (zip_with (fun sub reply => [asked sub; reply])
                 [(answeringEnv, tickingClock, js " hi "); (silentEnv, tickingClock, js "aur?")]
                 replies))
    /\ loading s' = false.
Proof.
  apply (conversation_appends_in_order
           [(answeringEnv, tickingClock, js " hi "); (silentEnv, tickingClock, js "aur?")]
           typing greeted [greeting]).
  - repeat constructor; vm_compute; discriminate.
  - reflexivity.
  - reflexivity.
Defined.

End ChatViewFacts.

(* ================================================================== *)
(** * The preference store: what is saved, what a load accepts *)
(* ================================================================== *)

Module PreferenceFacts.
Import JS Types Constants Gemini Json App Examples.

Section Host.
Context (P : Platform).

(** X17.  The save effect touches one key of the storage: every other
    key keeps its value, the key is present afterwards exactly when
    remember-me is on, and what an earlier save left under it does not
    matter. *)
Theorem save_touches_only_its_key
    (userName : jsstring) (rememberMe : bool) (chatHistory : list ChatMessage)
    (ls : Storage) :
  let ls' := Chat.saveEffect P userName rememberMe chatHistory ls in
  (forall k, k <> STORAGE_KEY_USER_PREFS -> ls' !! k = ls !! k)
  /\ (is_Some (ls' !! STORAGE_KEY_USER_PREFS) <-> rememberMe = true)
  /\ (forall userName' rememberMe' chatHistory',
        Chat.saveEffect P userName rememberMe chatHistory
          (Chat.saveEffect P userName' rememberMe' chatHistory' ls) = ls').
Proof.
  intros ls'. subst ls'. unfold Chat.saveEffect. split; [|split].
  - intros k Hk. destruct rememberMe.
    + now rewrite lookup_insert_ne.
    + now rewrite lookup_delete_ne.
  - destruct rememberMe.
    + rewrite lookup_insert_eq. split; eauto.
    + rewrite lookup_delete_eq. split; [intros [x Hx]; discriminate|discriminate].
  - intros u' r' h'. destruct rememberMe, r'.
    + apply insert_insert_eq.
    + apply insert_delete_eq.
    + apply delete_insert_eq.
    + apply delete_delete_eq.
Qed.


(** X18.  The load effect never adds to the storage and never changes
    the view shown: it leaves the storage as it is with a silent
    console, or removes its own key with one line on the console; keys
    of others are never touched, and a missing or empty entry changes
    nothing at all. *)
Theorem load_adds_nothing (s : State) (ls : Storage) :
  let loaded := loadEffect P s ls in
  activeView (state loaded) = activeView s
  /\ (forall k, k <> STORAGE_KEY_USER_PREFS -> localStorage loaded !! k = ls !! k)
  /\ (localStorage loaded = ls /\ console loaded = []
      \/ localStorage loaded = delete STORAGE_KEY_USER_PREFS ls
         /\ console loaded = [js "Failed to parse user preferences from localStorage"])
  /\ (ls !! STORAGE_KEY_USER_PREFS = None \/ ls !! STORAGE_KEY_USER_PREFS = Some [] ->
      loaded = {| state := s; localStorage := ls; console := [] |}).
Proof.
  intros loaded. subst loaded. unfold loadEffect.
  assert (Hv : forall text c s', loadTry P text s = (c, s') -> activeView s' = activeView s).
  { intros text c s' E. unfold loadTry in E.
    destruct (JSON_parse P text) as [userPrefs|]; [|inversion E; reflexivity].
    destruct (get_prop userPrefs (js "name")) as [n|]; [|inversion E; reflexivity].
    destruct (get_prop userPrefs (js "rememberMe")) as [r|]; [|inversion E; reflexivity].
    destruct (get_prop userPrefs (js "lastChat")) as [[[| | | |items|]|]|];
      try (inversion E; reflexivity).
    destruct (restoreAll P items); inversion E; reflexivity. }
  destruct (ls !! STORAGE_KEY_USER_PREFS) as [text|] eqn:El.
  2:{ cbn. repeat split; auto. }
  destruct text as [|c text]; cbn [truthy].
  { cbn. repeat split; auto. }
  destruct (loadTry P (c :: text) s) as [[|] s'] eqn:E; cbn [state localStorage console];
    (split; [exact (Hv _ _ _ E)|]).
  - split; [reflexivity|]. split; [left; split; reflexivity|].
    intros [H|H]; discriminate H.
  - split; [intros k Hk; now rewrite lookup_delete_ne|].
    split; [right; split; reflexivity|]. intros [H|H]; discriminate H.
Qed.

(** ** What a load accepts *)

Lemma restoreAll_length (items : list json) : forall msgs,
  restoreAll P items = Some msgs -> length msgs = length items.
Proof.
  induction items as [|x items IH]; intros msgs E; cbn [restoreAll] in E.
  - inversion E. reflexivity.
  - destruct (restoreMessage P x); [|discriminate].
    destruct (restoreAll P items) as [ms|]; [|discriminate].
    inversion E; subst. cbn [length]. now rewrite (IH ms eq_refl).
Qed.

Lemma restoreAll_dated (items : list json) : forall msgs,
  restoreAll P items = Some msgs ->
  Forall (fun m : LoadedMessage => exists d, m !! js "timestamp" = Some (RDate d)) msgs.
Proof.
  induction items as [|x items IH]; intros msgs E; cbn [restoreAll] in E.
  - inversion E. constructor.
  - destruct (restoreMessage P x) as [m|] eqn:Em; [|discriminate].
    destruct (restoreAll P items) as [ms|]; [|discriminate].
    inversion E; subst. constructor; [|exact (IH ms eq_refl)].
    unfold restoreMessage in Em.
    destruct (get_prop x (js "timestamp")) as [ts|]; [|discriminate].
    destruct (Date_new P ts) as [d|]; [|discriminate].
    inversion Em; subst. exists d. apply lookup_insert_eq.
Qed.

(** X19.  A stored text is loaded without failure exactly when it
    parses to an object whose [lastChat] is an array of items that can
    all be restored.  The state then holds the stored name and
    remember-me flag, each replaced by its default when falsy, and as
    many messages as were stored, each with a [Date] as timestamp. *)
Theorem load_accepts_objects_with_transcript (text : jsstring) (s : State) :
  (loadFails P text s = false <->
   exists props items msgs,
     JSON_parse P text = Some (JObj props)
     /\ obj_get (js "lastChat") props = Some (JArr items)
     /\ restoreAll P items = Some msgs)
  /\ (forall props items msgs,
        JSON_parse P text = Some (JObj props) ->
        obj_get (js "lastChat") props = Some (JArr items) ->
        restoreAll P items = Some msgs ->
        loadTry P text s =
        (Normal,
         {| activeView := activeView s;
            userName := or_else P (obj_get (js "name") props) (JStr []);
            rememberMe := or_else P (obj_get (js "rememberMe") props) (JBool false);
            chatHistory := msgs |})
        /\ length msgs = length items
        /\ Forall (fun m : LoadedMessage => exists d, m !! js "timestamp" = Some (RDate d))
                  msgs).
Proof.
  assert (Hrun : forall props items msgs,
        JSON_parse P text = Some (JObj props) ->
        obj_get (js "lastChat") props = Some (JArr items) ->
        restoreAll P items = Some msgs ->
        loadTry P text s =
        (Normal,
         {| activeView := activeView s;
            userName := or_else P (obj_get (js "name") props) (JStr []);
            rememberMe := or_else P (obj_get (js "rememberMe") props) (JBool false);
            chatHistory := msgs |})).
  { intros props items msgs Hp Hl Hr. unfold loadTry. rewrite Hp. cbn [get_prop].
    rewrite Hl, Hr. reflexivity. }
  split.
  - unfold loadFails. split.
    + intros H. unfold loadTry in H.
      destruct (JSON_parse P text) as [userPrefs|] eqn:Hp; [|discriminate].
      destruct userPrefs as [| | | | |props]; try discriminate H.
      cbn [get_prop] in H.
      destruct (obj_get (js "lastChat") props) as [[| | | |items|]|] eqn:Hl;
        try discriminate H.
      destruct (restoreAll P items) as [msgs|] eqn:Er; [|discriminate].
      exists props, items, msgs. split; [reflexivity|]. split; [exact Hl|exact Er].
    + intros (props & items & msgs & Hp & Hl & Hr).
      now rewrite (Hrun _ _ _ Hp Hl Hr).
  - intros props items msgs Hp Hl Hr. split; [exact (Hrun _ _ _ Hp Hl Hr)|].
    split; [exact (restoreAll_length _ _ Hr)|exact (restoreAll_dated _ _ Hr)].
Qed.

(** ** What a restored message holds *)

Lemma fold_insert_lookup (props : list (jsstring * json)) (k : jsstring) :
  forall acc : LoadedMessage,
    fold_left (fun o '(k, v) => <[k := RJson v]> o) props acc !! k
    = match obj_get k props with
      | Some v => Some (RJson v)
      | None => acc !! k
      end.
Proof.
  induction props as [|[k' v] props IH]; intros acc; cbn [fold_left obj_get]; [reflexivity|].
  rewrite IH. destruct (obj_get k props); [reflexivity|].
  unfold str_eqb. destruct (bool_decide_reflect (k' = k)) as [->|Hne].
  - apply lookup_insert_eq.
  - now apply lookup_insert_ne.
Qed.

(** X20.  A message restored from a stored object has the [Date] built
    from the stored timestamp and, under every other name, what the
    stored object has under it. *)
Theorem restored_message_keeps_fields
    (props : list (jsstring * json)) (m : LoadedMessage) :
  restoreMessage P (JObj props) = Some m ->
  (exists d, Date_new P (obj_get (js "timestamp") props) = Some d
             /\ m !! js "timestamp" = Some (RDate d))
  /\ (forall k, k <> js "timestamp" -> m !! k = RJson <$> obj_get k props).
Proof.
  unfold restoreMessage. cbn [get_prop].
  destruct (Date_new P (obj_get (js "timestamp") props)) as [d|] eqn:Ed; [|discriminate].
  intros E. inversion E; subst. split.
  - exists d. split; [reflexivity|apply lookup_insert_eq].
  - intros k Hk.
    transitivity (spread (JObj props) !! k);
      [apply lookup_insert_ne; congruence|].
    unfold spread. cbn [own_props]. rewrite fold_insert_lookup.
    destruct (obj_get k props); reflexivity.
Qed.

End Host.

Lemma load_adds_nothing_witness :
  loadEffect Reference.host initial ({[ js "theme" := js "dark" ]} : Storage)
  = {| state := initial; localStorage := {[ js "theme" := js "dark" ]}; console := [] |}.
Proof.
  apply (load_adds_nothing Reference.host initial {[ js "theme" := js "dark" ]}).
  left. vm_compute. reflexivity.
Defined.

Lemma load_accepts_objects_with_transcript_witness :
  loadFails Reference.host (jsq "{'lastChat':[{'timestamp':0}]}") initial = false.
Proof.
  apply (load_accepts_objects_with_transcript Reference.host
           (jsq "{'lastChat':[{'timestamp':0}]}") initial).
  exists [(js "lastChat", JArr [JObj [(js "timestamp", JNum (js "0"))]])],
         [JObj [(js "timestamp", JNum (js "0"))]],
         [ {[ js "timestamp" := RDate (ValidDate 0) ]} ].
  repeat split; vm_compute; reflexivity.
Defined.

Lemma restored_message_keeps_fields_witness :
  let props := [(js "id", JStr (js "7")); (js "timestamp", JNull)] in
  let m : LoadedMessage :=
    <[js "timestamp" := RDate (ValidDate 0)]> {[ js "id" := RJson (JStr (js "7")) ]} in
  restoreMessage Reference.host (JObj props) = Some m
  /\ m !! js "id" = RJson <$> obj_get (js "id") props.
Proof.
  intros props m.
  assert (E : restoreMessage Reference.host (JObj props) = Some m)
    by (vm_compute; reflexivity).
  split; [exact E|].
  destruct (restored_message_keeps_fields Reference.host props m E) as [_ G].
  apply G. discriminate.
Defined.

Lemma save_touches_only_its_key_witness :
  Chat.saveEffect Reference.host (js "Ravi") false []
    ({[ js "theme" := js "dark" ]} : Storage) !! js "theme"
  = Some (js "dark").
Proof.
  destruct (save_touches_only_its_key Reference.host (js "Ravi") false []
              {[ js "theme" := js "dark" ]}) as [G _].
  rewrite G by discriminate. reflexivity.
Defined.

End PreferenceFacts.

(* ================================================================== *)
(** * The slideshow view under the actions of the user *)
(* ================================================================== *)

Module SlideshowViewFacts.
Import JS Types Constants Gemini Json Slideshow SlideshowView SlideshowFacts GeminiFacts.

(** ** Blank text *)

Lemma blank_split (text : jsstring) :
  Forall blank (split NL text) <-> blank text.
Proof.
  unfold blank. induction text as [|c text IH]; cbn [split].
  - split; intros _; repeat constructor.
  - destruct (N.eqb_spec c NL) as [->|Hc].
    + rewrite !Forall_cons_iff, IH. intuition. 
    + destruct (split NL text) as [|piece pieces].
      * rewrite !Forall_cons_iff, <- IH. intuition; constructor.
      * rewrite !Forall_cons_iff in *. rewrite <- IH. intuition.
Qed.

Lemma rawLines_nil (text : jsstring) :
  trimmedLines text = [] <-> blank text.
Proof.
  rewrite <- blank_split, <- rawLines_trimmedLines.
  induction (split NL text) as [|line lines IH]; cbn [List.map List.filter].
  - split; intros _; [constructor|reflexivity].
  - rewrite Forall_cons_iff, <- IH, <- StringFacts.trim_nil_iff.
    destruct (trim line) as [|x t]; cbn.
    + intuition.
    + split; [discriminate|]. intros [H _]. discriminate H.
Qed.

Lemma generatedSlides_nil (text : jsstring) :
  generatedSlides text = [] <-> blank text.
Proof.
  rewrite <- rawLines_nil, <- rawLines_trimmedLines. unfold generatedSlides.
  destruct (List.filter _ _); cbn; split; intros H; try reflexivity; discriminate.
Qed.

(** X21.  No slide comes out of a text exactly when the text is blank.
    On a blank text [handleGenerate] reports that text is missing and
    leaves the player idle with the slides it had; the button that runs
    it is disabled then, and whenever the button is enabled there is at
    least one slide. *)
Theorem blank_text_makes_no_show (s : State) :
  (generatedSlides (inputText s) = [] <-> blank (inputText s))
  /\ (blank (inputText s) ->
      error (handleGenerate s) = Some (js "Please enter some text for your slideshow.")
      /\ Idle (handleGenerate s)
      /\ loading (handleGenerate s) = false
      /\ slides (handleGenerate s) = slides s
      /\ enabled Generate s = false)
  /\ (enabled Generate s = true -> generatedSlides (inputText s) <> []).
Proof.
  split; [apply generatedSlides_nil|]. split.
  - intros Hb. pose proof (proj2 (generatedSlides_nil _) Hb) as Hg.
    assert (He : enabled Generate s = false).
    { unfold enabled, str_eqb.
      rewrite (trim_blank _ Hb), bool_decide_eq_true_2 by reflexivity.
      now rewrite !orb_true_r. }
    split; [|split; [|split; [|split; [|exact He]]]];
      unfold handleGenerate; rewrite Hg; unfold stopSlideshow, Idle;
      cbn [timeoutRef setError setLoading];
      destruct (timeoutRef s) eqn:Er; cbn; rewrite ?Er; repeat split.
  - intros He Hg. apply generatedSlides_nil, trim_blank in Hg.
    unfold enabled, str_eqb in He. rewrite Hg in He. cbn in He.
    rewrite bool_decide_eq_true_2 in He by reflexivity.
    rewrite !orb_true_r in He. discriminate He.
Qed.

Lemma blank_text_makes_no_show_witness :
  error (handleGenerate (setInputText [32; 10; 9; 10]%N initial))
  = Some (js "Please enter some text for your slideshow.").
Proof.
  apply (blank_text_makes_no_show (setInputText [32; 10; 9; 10]%N initial)).
  repeat constructor.
Defined.

(** ** The invariant of the view *)

Lemma generatedSlides_bounds (text : jsstring) :
  (length (generatedSlides text) <= MAX_SLIDES)%nat
  /\ Forall (fun line => line <> []) (generatedSlides text).
Proof.
  unfold generatedSlides. split; [apply List.firstn_le_length|].
  apply Forall_take, List.Forall_forall. intros line Hin.
  apply List.filter_In in Hin as [_ Hlen].
  intros ->. discriminate Hlen.
Qed.

Lemma enabled_generate (s : State) :
  enabled Generate s = true ->
  isPlaying s = false /\ loading s = false /\ generatedSlides (inputText s) <> [].
Proof.
  intros He. assert (Hg : generatedSlides (inputText s) <> []).
  { intros Hg. apply generatedSlides_nil, trim_blank in Hg.
    unfold enabled, str_eqb in He. rewrite Hg in He.
    rewrite bool_decide_eq_true_2 in He by reflexivity.
    rewrite !orb_true_r in He. discriminate He. }
  unfold enabled in He. apply negb_true_iff in He.
  apply orb_false_iff in He as [He _]. apply orb_false_iff in He as [H1 H2].
  auto.
Qed.

Lemma clearRef_armed (s : State) : armed s = [] -> armed (clearRef s) = [].
Proof.
  intros Ha. unfold clearRef. destruct (timeoutRef s); [|exact Ha].
  cbn [armed clearTimeout]. now rewrite Ha.
Qed.

Lemma clearRef_loading (s : State) : loading (clearRef s) = loading s.
Proof. unfold clearRef. destruct (timeoutRef s); reflexivity. Qed.

(** The effect run on a playing state whose timer is gone arms one. *)
Lemma effect_arms_one (s : State) :
  isPlaying s = true -> slides s <> [] -> armed (clearRef s) = [] ->
  let s' := timerEffect (timerCleanup s) in
  OneTimer s' /\ slides s' = slides s /\ currentSlideIndex s' = currentSlideIndex s
  /\ loading s' = loading s /\ isPlaying s' = true.
Proof.
  intros Hp Hs Ha. cbn zeta. unfold timerCleanup.
  destruct (clearRef_fields s) as (E1 & E2 & E3 & _).
  destruct (clearRef_fields (clearRef s)) as (F1 & F2 & F3 & _).
  rewrite timerEffect_playing by congruence.
  cbn [setTimeout snd setTimeoutRef slides currentSlideIndex loading isPlaying].
  rewrite ?F1, ?F2, ?F3, ?E1, ?E2, ?E3, ?clearRef_loading.
  split; [|repeat split; auto].
  right. cbn [isPlaying timeoutRef armed]. rewrite ?F1, ?E1. split; [exact Hp|].
  eexists. split; [reflexivity|]. now rewrite (clearRef_armed _ Ha).
Qed.

(** The effect run on a state at rest does nothing. *)
Lemma effect_rests (s : State) :
  isPlaying s = false -> timeoutRef s = None ->
  timerEffect (timerCleanup s) = s.
Proof.
  intros Hp Hr. unfold timerCleanup, clearRef. rewrite Hr.
  unfold timerEffect. now rewrite Hp, Hr.
Qed.

Lemma sound_generate (s : State) :
  OneTimer s -> enabled Generate s = true ->
  OneTimer (generate s) /\ InBounds (generate s) /\ loading (generate s) = false.
Proof.
  intros [(Hp & Hr & Ha)|(Hp & _)] He;
    destruct (enabled_generate s He) as (Hp' & Hl & Hg); [|congruence].
  destruct (generatedSlides_bounds (inputText s)) as [Hlen Hall].
  unfold generate, handleGenerate.
  destruct (generatedSlides (inputText s)) as [|x gen] eqn:Eg; [congruence|].
  unfold commit.
  assert (Hd : depsChanged s
                 (setLoading false
                    (startSlideshow (x :: gen)
                       (stopSlideshow (setError None (setLoading true s))))) = true).
  { unfold depsChanged. apply negb_true_iff, bool_decide_eq_false.
    cbn. rewrite Hp. intros (E & _). discriminate. }
  rewrite Hd. unfold stopSlideshow. cbn [timeoutRef setError setLoading]. rewrite Hr.
  match goal with |- OneTimer (timerEffect (timerCleanup ?n)) /\ _ =>
    destruct (effect_arms_one n) as (H1 & H2 & H3 & H4 & H5) end.
  - reflexivity.
  - discriminate.
  - apply clearRef_armed. exact Ha.
  - split; [exact H1|]. split; [|rewrite H4; reflexivity].
    unfold InBounds. rewrite H2, H3. cbn [slides currentSlideIndex startSlideshow
      setLoading setStatusMessage setIsPlaying setCurrentSlideIndex setSlides].
    split; [exact Hlen|]. split; [exact Hall|]. left. cbn [length]. lia.
Qed.

Lemma sound_clear (s : State) :
  OneTimer s ->
  OneTimer (clear s) /\ InBounds (clear s) /\ loading (clear s) = false.
Proof.
  intros Ho. unfold clear, commit.
  assert (Hc : (OneTimer (handleClear s) /\ InBounds (handleClear s)
                /\ loading (handleClear s) = false)
               /\ isPlaying (handleClear s) = false /\ timeoutRef (handleClear s) = None).
  { unfold handleClear, stopSlideshow, OneTimer, InBounds.
    destruct Ho as [(Hp & Hr & Ha)|(Hp & h & Hr & Ha)]; rewrite Hr; cbn -[js];
      rewrite ?Ha; cbn -[js]; rewrite ?Pos.eqb_refl; cbn -[js].
    - repeat split; auto; try constructor; lia.
    - repeat split; auto; try constructor; lia. }
  destruct Hc as (H1 & H4 & H5).
  destruct (depsChanged s (handleClear s)); [|exact H1].
  now rewrite (effect_rests _ H4 H5).
Qed.

Lemma sound_fire (h : positive) (s : State) :
  OneTimer s -> InBounds s -> loading s = false ->
  OneTimer (fire h s) /\ InBounds (fire h s) /\ loading (fire h s) = false.
Proof.
  intros Ho Hb Hl. unfold fire.
  destruct Ho as [(Hp & Hr & Ha)|(Hp & h0 & Hr & Ha)].
  { rewrite Ha. cbn [existsb]. split; [left; auto|auto]. }
  rewrite Ha. cbn [existsb handle orb].
  destruct (Pos.eqb_spec h0 h) as [->|Hne]; cbn [orb].
  2:{ split; [right; eauto|auto]. }
  destruct Hb as (Hlen & Hall & [Hi|(Hf & _)]); [|congruence].
  assert (Hgone : armed (clearTimeout h s) = []).
  { cbn [armed clearTimeout]. rewrite Ha. cbn [List.filter handle].
    now rewrite Pos.eqb_refl. }
  unfold advanceIndex. cbn [clearTimeout currentSlideIndex slides].
  destruct (Z.ltb_spec (Z.of_nat (currentSlideIndex s)) (Z.of_nat (length (slides s)) - 1))
    as [Hlt|Hge]; unfold commit.
  - assert (Hd : depsChanged s
                   (setCurrentSlideIndex (currentSlideIndex s + 1) (clearTimeout h s)) = true).
    { unfold depsChanged. apply negb_true_iff, bool_decide_eq_false.
      cbn. intros (_ & E & _). lia. }
    rewrite Hd.
    destruct (effect_arms_one
                (setCurrentSlideIndex (currentSlideIndex s + 1) (clearTimeout h s)))
      as (H1 & H2 & H3 & H4 & H5).
    + exact Hp.
    + cbn [slides setCurrentSlideIndex clearTimeout]. intros E. rewrite E in Hi.
      cbn in Hi. lia.
    + apply clearRef_armed. exact Hgone.
    + split; [exact H1|]. split; [|rewrite H4; exact Hl].
      unfold InBounds. rewrite H2, H3.
      cbn [slides currentSlideIndex setCurrentSlideIndex clearTimeout].
      split; [exact Hlen|]. split; [exact Hall|]. left. lia.
  - set (new := setCurrentSlideIndex 0 _).
    assert (Hn : isPlaying new = false /\ timeoutRef new = None /\ armed new = []
                 /\ slides new = slides s /\ currentSlideIndex new = 0%nat
                 /\ loading new = loading s).
    { subst new. unfold stopSlideshow. cbn [timeoutRef clearTimeout]. rewrite Hr.
      cbn -[js]. rewrite Ha. cbn -[js]. rewrite Pos.eqb_refl. cbn -[js].
      repeat split. }
    clearbody new. destruct Hn as (N1 & N2 & N3 & N4 & N5 & N6).
    assert (Hd : depsChanged s new = true).
    { unfold depsChanged. apply negb_true_iff, bool_decide_eq_false.
      rewrite Hp, N1. intros (E & _). discriminate. }
    rewrite Hd, (effect_rests _ N1 N2).
    split; [left; auto|]. split; [|congruence].
    unfold InBounds. rewrite N4, N5.
    split; [exact Hlen|]. split; [exact Hall|]. left. lia.
Qed.

(** X22.  Whatever the user does and whenever timers fire, the view
    has at most one timer armed: none at rest, and while playing exactly
    the one whose handle it holds, set to the slide duration.  It never
    holds more than six slides, none of them empty, the index stays
    within them, and no handler leaves the loading flag on. *)
Theorem view_keeps_one_timer (actions : list Action) :
  let s := run actions initial in
  OneTimer s /\ InBounds s /\ loading s = false.
Proof.
  cbn zeta. unfold run.
  assert (H0 : OneTimer initial /\ InBounds initial /\ loading initial = false).
  { split; [left; auto|]. split; [|reflexivity].
    split; [cbn; lia|]. split; [constructor|]. right. auto. }
  revert H0. generalize initial.
  induction actions as [|a actions IH]; intros s Hs; [exact Hs|].
  cbn [fold_left]. apply IH. destruct Hs as (Ho & Hb & Hl).
  unfold act. destruct (enabled a s) eqn:He; [|auto].
  destruct a as [text| | |h].
  - split; [exact Ho|]. split; [exact Hb|exact Hl].
  - now apply sound_generate.
  - now apply sound_clear.
  - now apply sound_fire.
Qed.


(** ** What is on the screen *)

Lemma ticks_rest (n : nat) (s : State) : timeoutRef s = None -> ticks n s = s.
Proof.
  intros Hr. induction n as [|n IH]; [reflexivity|]. cbn [ticks].
  unfold tick. rewrite Hr. exact IH.
Qed.

Lemma currentSlideText_nth (s : State) (k : nat) :
  currentSlideIndex s = k -> (k < length (slides s))%nat ->
  Forall (fun line => line <> []) (slides s) ->
  currentSlideText s = nth k (slides s) [].
Proof.
  intros Hk Hlt Hall. unfold currentSlideText. rewrite Hk.
  destruct (nth_error (slides s) k) as [t|] eqn:E.
  - rewrite (nth_error_nth _ _ _ E).
    assert (Ht : t <> []).
    { rewrite List.Forall_forall in Hall. apply Hall. eapply nth_error_In. exact E. }
    destruct t; [contradiction|reflexivity].
  - apply nth_error_None in E. lia.
Qed.

(** X23.  Generating from a text that is not blank shows its kept
    lines one after the other: after [k] timer advances the screen shows
    the line of rank [k], a trimmed non-empty line of the text; after as
    many advances as there are slides the player is idle and shows the
    first slide again, and further advances change nothing. *)
Theorem show_displays_each_line_in_turn (s : State) :
  isPlaying s = false -> ~ blank (inputText s) ->
  let kept := generatedSlides (inputText s) in
  let N := length kept in
  (1 <= N <= MAX_SLIDES)%nat
  /\ (forall k, (k < N)%nat ->
        isPlaying (ticks k (generate s)) = true
        /\ currentSlideText (ticks k (generate s)) = nth k kept []
        /\ In (currentSlideText (ticks k (generate s))) (trimmedLines (inputText s)))
  /\ Idle (ticks N (generate s))
  /\ currentSlideText (ticks N (generate s)) = nth 0 kept []
  /\ (forall m, ticks (N + m) (generate s) = ticks N (generate s)).
Proof.
  intros Hp Hb kept N.
  assert (Hne : kept <> []) by (intros E; apply Hb, generatedSlides_nil; exact E).
  destruct (generatedSlides_bounds (inputText s)) as [Hlen Hall]. fold kept in Hlen, Hall.
  destruct (generate_starts s Hne Hp) as [HP HS]. fold kept in HS.
  assert (HN : (1 <= N)%nat) by (subst N; destruct kept; [congruence|cbn; lia]).
  split; [fold N in Hlen; lia|].
  assert (Hrun : forall k, (k < N)%nat ->
            Playing (ticks k (generate s)) k /\ slides (ticks k (generate s)) = kept).
  { intros k Hk. destruct (playing_run k (generate s) 0 HP) as [H1 H2].
    - rewrite HS. fold N. lia.
    - split; [exact H1|congruence]. }
  split; [|split; [|split]].
  - intros k Hk. destruct (Hrun k Hk) as [(H1 & H2 & _) H3].
    split; [exact H1|].
    assert (Ht : currentSlideText (ticks k (generate s)) = nth k kept []).
    { rewrite <- H3. apply currentSlideText_nth; rewrite ?H3; auto. }
    split; [exact Ht|]. rewrite Ht.
    assert (Hsub : forall x, In x kept -> In x (trimmedLines (inputText s))).
    { intros x Hx. subst kept. unfold generatedSlides in Hx.
      rewrite rawLines_trimmedLines in Hx.
      rewrite <- (firstn_skipn MAX_SLIDES (trimmedLines (inputText s))).
      apply in_or_app. now left. }
    apply Hsub, nth_In. exact Hk.
  - destruct (Hrun (N - 1)%nat) as [HP' HS']; [lia|].
    destruct (tick_finishes _ _ HP') as (H1 & _); [rewrite HS'; fold N; lia|].
    replace N with ((N - 1) + 1)%nat at 1 by lia. rewrite ticks_add. exact H1.
  - destruct (Hrun (N - 1)%nat) as [HP' HS']; [lia|].
    destruct (tick_finishes _ _ HP') as (_ & H2 & H3); [rewrite HS'; fold N; lia|].
    replace N with ((N - 1) + 1)%nat at 1 by lia. rewrite ticks_add. cbn [ticks].
    rewrite <- HS', <- H3. apply currentSlideText_nth; rewrite ?H3, ?HS'; auto;
      fold N; lia.
  - intros m. rewrite ticks_add. apply ticks_rest.
    destruct (Hrun (N - 1)%nat) as [HP' HS']; [lia|].
    destruct (tick_finishes _ _ HP') as ((_ & H1) & _); [rewrite HS'; fold N; lia|].
    replace N with ((N - 1) + 1)%nat at 1 by lia. rewrite ticks_add. exact H1.
Qed.

Lemma show_displays_each_line_in_turn_witness :
  let s := setInputText (js "A" ++ [NL] ++ js " B " ++ [NL; NL] ++ js "C") initial in
  currentSlideText (ticks 1 (generate s)) = js "B"
  /\ Idle (ticks 3 (generate s))
  /\ ticks 5 (generate s) = ticks 3 (generate s).
Proof.
  intros s.
  destruct (show_displays_each_line_in_turn s) as (_ & H1 & H2 & _ & H3).
  - reflexivity.
  - intros Hb. apply generatedSlides_nil in Hb. vm_compute in Hb. discriminate Hb.
  - destruct (H1 1%nat) as (_ & G & _); [vm_compute; lia|].
    split; [rewrite G; vm_compute; reflexivity|].
    split; [exact H2|exact (H3 2%nat)].
Defined.

(** ** Clearing *)

Lemma state_eq (a b : State) :
  inputText a = inputText b -> slides a = slides b ->
  currentSlideIndex a = currentSlideIndex b -> isPlaying a = isPlaying b ->
  loading a = loading b -> error a = error b -> statusMessage a = statusMessage b ->
  timeoutRef a = timeoutRef b -> armed a = armed b -> nextHandle a = nextHandle b ->
  a = b.
Proof. destruct a, b; cbn; intros; subst; reflexivity. Qed.

(** X24.  Clear brings the player back to its initial state, whatever
    it was doing, up to the handles already used; after it no timer is
    left that could fire. *)
Theorem clear_returns_to_start (s : State) :
  OneTimer s ->
  clear s = {| inputText := []; slides := []; currentSlideIndex := 0; isPlaying := false;
               loading := false; error := None;
               statusMessage := js "Enter text to create your animated slideshow!";
               timeoutRef := None; armed := []; nextHandle := nextHandle s |}
  /\ (forall h, fire h (clear s) = clear s)
  /\ (forall n, ticks n (clear s) = clear s).
Proof.
  intros Ho.
  assert (Hc : handleClear s =
               {| inputText := []; slides := []; currentSlideIndex := 0; isPlaying := false;
                  loading := false; error := None;
                  statusMessage := js "Enter text to create your animated slideshow!";
                  timeoutRef := None; armed := []; nextHandle := nextHandle s |}).
  { apply state_eq; unfold handleClear, stopSlideshow;
      destruct Ho as [(Hp & Hr & Ha)|(Hp & h & Hr & Ha)]; rewrite Hr; cbn -[js];
      rewrite ?Ha, ?Hr; cbn -[js]; rewrite ?Pos.eqb_refl; reflexivity. }
  assert (He : clear s = handleClear s).
  { unfold clear, commit. destruct (depsChanged s (handleClear s)); [|reflexivity].
    apply effect_rests; rewrite Hc; reflexivity. }
  rewrite He, Hc. split; [reflexivity|]. split.
  - intros h. reflexivity.
  - intros n. now apply ticks_rest.
Qed.

Lemma clear_returns_to_start_witness :
  let s := generate (setInputText (js "A" ++ [NL] ++ js "B") initial) in
  isPlaying s = true /\ ticks 4 (clear s) = clear s /\ slides (clear s) = [].
Proof.
  intros s. split; [vm_compute; reflexivity|].
  destruct (clear_returns_to_start s) as (H1 & _ & H3).
  - right. split; [vm_compute; reflexivity|].
    exists 1%positive. split; vm_compute; reflexivity.
  - split; [exact (H3 4%nat)|]. rewrite H1. reflexivity.
Defined.

End SlideshowViewFacts.

(* ================================================================== *)
(** * The HD image view over the gateway *)
(* ================================================================== *)

Module HDViewFacts.
Import JS Types Constants Gemini Json HDView Conduct Examples Scenarios GeminiFacts ConductFacts StringFacts.

Lemma emits_attempt (P : Event -> Prop) {A} (m : M A) : emits P m -> emits P (attempt m).
Proof.
  intros H w o w' E. unfold attempt in E. destruct (m w) as [o1 w1] eqn:E1.
  inversion E; subst. exact (H _ _ _ E1).
Qed.


Lemma emits_console_error (P : Event -> Prop) label d :
  P (ConsoleError (js label) d) -> emits P (console_error label d).
Proof. intros H. unfold console_error. now apply emits_emit. Qed.


(** ** Validation *)


(** ** An accepted request *)

Lemma truthy_string_data (u : jsstring) :
  starts_with (js "data:") u = true -> truthy_string (Some u) = Some u.
Proof. destruct u; [discriminate|reflexivity]. Qed.

Lemma truthy_string_some (msg : jsstring) :
  msg <> [] -> truthy_string (Some msg) = Some msg.
Proof. destruct msg; [contradiction|reflexivity]. Qed.





(** ** A key the remote service no longer knows *)



End HDViewFacts.

(* ================================================================== *)
(** * The image editor view over the gateway *)
(* ================================================================== *)

Module EditorViewFacts.
Import JS Types Constants Gemini Json EditorView Conduct Examples Scenarios GeminiFacts ConductFacts StringFacts.

Lemma edit_settle_emits (P : Event -> Prop) s1 o :
  (forall label d, P (ConsoleError label d)) -> emits P (settle s1 o).
Proof.
  intros HP. unfold settle. destruct o as [r|e].
  - destruct (HDView.truthy_string (edit_imageUrl r)); [apply emits_ret|].
    destruct (HDView.truthy_string (edit_error r)); apply emits_ret.
  - apply emits_bind; [apply HDViewFacts.emits_console_error, HP|intros _; apply emits_ret].
Qed.

(** What the view makes of a completion of the gateway call. *)
Lemma edit_settle_outcome (s1 : State) (o : Outcome GeminiImageEditResponse) (w : World) :
  match o with
  | Ret r => pictured (edit_imageUrl r) (edit_error r)
  | Throw _ => True
  end ->
  exists s2 w',
    settle s1 o w = (Ret s2, w')
    /\ loading s2 = loading s1 /\ selectedFile s2 = selectedFile s1
    /\ imagePrompt s2 = imagePrompt s1 /\ originalImageUrl s2 = originalImageUrl s1
    /\ ((exists url, editedImageUrl s2 = Some url /\ error s2 = error s1)
        \/ (editedImageUrl s2 = editedImageUrl s1
            /\ exists msg, error s2 = Some msg /\ msg <> [])).
Proof.
  destruct o as [r|e]; unfold settle.
  - intros [(u & Hu & He & Hs)|(Hu & msg & He & Hm)].
    + rewrite Hu, (HDViewFacts.truthy_string_data _ Hs). do 2 eexists.
      split; [reflexivity|]. cbn. repeat split; eauto.
    + rewrite Hu, He, (HDViewFacts.truthy_string_some _ Hm). cbn [HDView.truthy_string].
      do 2 eexists. split; [reflexivity|]. cbn. repeat split; eauto.
  - intros _. rewrite bind_run, ChatFacts.console_error_run.
    do 2 eexists. split; [reflexivity|]. cbn -[js]. repeat split; auto.
    right. split; [reflexivity|]. eexists. split; [reflexivity|]. discriminate.
Qed.

Lemma handleEditImage_accepted env s w f :
  selectedFile s = Some f -> trim (imagePrompt s) <> [] ->
  handleEditImage env s w =
  (o ← attempt (editImageWithGemini env f (imagePrompt s));
   s2 ← settle (setEditedImageUrl None (setError None (setLoading true s))) o;
   mret (setLoading false s2)) w.
Proof.
  intros Hf Ht. unfold handleEditImage, str_eqb. rewrite Hf.
  rewrite bool_decide_eq_false_2 by exact Ht. reflexivity.
Qed.



(** ** Only images *)

Lemma handleEditImage_emits (P : Event -> Prop) env s :
  (forall label d, P (ConsoleError label d)) ->
  (forall f, selectedFile s = Some f ->
             emits P (editImageWithGemini env f (imagePrompt s))) ->
  emits P (handleEditImage env s).
Proof.
  intros HP Hg. unfold handleEditImage.
  destruct (selectedFile s) as [f|]; [|apply emits_ret].
  destruct (str_eqb _ _); [apply emits_ret|].
  apply emits_bind; [apply HDViewFacts.emits_attempt, Hg; reflexivity|intros o].
  apply emits_bind; [apply edit_settle_emits, HP|intros s2; apply emits_ret].
Qed.

Lemma handleEditImage_keeps_file env s w s' w' :
  handleEditImage env s w = (Ret s', w') ->
  selectedFile s' = selectedFile s /\ originalImageUrl s' = originalImageUrl s.
Proof.
  intros E. destruct (selectedFile s) as [f|] eqn:Hf.
  - destruct (bool_decide_reflect (trim (imagePrompt s) = [])) as [Hb|Ht].
    + unfold handleEditImage, str_eqb in E.
      rewrite Hf, Hb, bool_decide_eq_true_2 in E by reflexivity.
      inversion E; subst. cbn. auto.
    + rewrite (handleEditImage_accepted _ _ _ _ Hf Ht), bind_run in E.
      unfold attempt at 1 in E.
      destruct (editImageWithGemini env f (imagePrompt s) w) as [o w1] eqn:Eg.
      rewrite bind_run in E.
      destruct (edit_settle_outcome (setEditedImageUrl None (setError None (setLoading true s)))
                  o w1) as (s2 & w2 & Hs & _ & H2 & _ & H4 & _).
      { destruct o as [r|e]; [|exact I]. exact (edit_pictured _ _ _ _ _ _ Eg). }
      rewrite Hs in E. inversion E; subst. cbn in *. split; congruence.
  - unfold handleEditImage in E. rewrite Hf in E. inversion E; subst. cbn. auto.
Qed.

(** X28.  The editor only ever holds a file whose type starts with
    [image/], together with its preview: choosing a file, clearing,
    typing and editing all keep this.  So every request it sends has an
    image MIME type; the prompt goes out as typed. *)
Theorem editor_holds_images_only :
  holdsImage initial
  /\ (forall createObjectURL file s, holdsImage (handleFileChange createObjectURL file s))
  /\ (forall s, holdsImage (handleClear s))
  /\ (forall text s, holdsImage s -> holdsImage (setImagePrompt text s))
  /\ (forall env s w s' w',
        holdsImage s -> handleEditImage env s w = (Ret s', w') -> holdsImage s')
  /\ (forall env s w p,
        holdsImage s ->
        In (GenerateContent p) (emitted w (snd (handleEditImage env s w))) ->
        gc_prompt p = imagePrompt s
        /\ exists t, mimeType (inlineData (gc_image p)) = Some t
                     /\ starts_with (js "image/") t = true).
Proof.
  split; [reflexivity|]. split; [|split; [|split; [|split]]].
  - intros url [f|] s; unfold handleFileChange, holdsImage.
    + destruct (starts_with (js "image/") (file_type f)) eqn:Et; cbn -[js starts_with].
      * split; [exact Et|eauto].
      * reflexivity.
    + reflexivity.
  - intros s. unfold handleClear, holdsImage.
    cbn [fileInput setError setEditedImageUrl setOriginalImageUrl setImagePrompt
         setSelectedFile].
    destruct (fileInput s); reflexivity.
  - intros text s H. exact H.
  - intros env s w s' w' H E. unfold holdsImage in *.
    destruct (handleEditImage_keeps_file _ _ _ _ _ E) as [-> ->]. exact H.
  - intros env s w p H Hin.
    set (P := fun e : Event =>
                forall q, e = GenerateContent q ->
                  gc_prompt q = imagePrompt s
                  /\ exists t, mimeType (inlineData (gc_image q)) = Some t
                               /\ starts_with (js "image/") t = true).
    assert (Hm : emits P (handleEditImage env s)).
    { apply handleEditImage_emits.
      - intros label d q Eq. discriminate Eq.
      - intros f Hf w0 o w' E.
        destruct (edit_emits_request _ _ _ _ _ _ E) as (new & T & F).
        exists new. split; [exact T|]. eapply List.Forall_impl; [|exact F].
        intros e He q Eq. destruct (He q Eq) as (url & _ & ->).
        split; [reflexivity|]. exists (file_type f). split; [reflexivity|].
        unfold holdsImage in H. rewrite Hf in H. exact (proj1 H). }
    destruct (handleEditImage env s w) as [o w'] eqn:E.
    destruct (Hm _ _ _ E) as (new & T & F). cbn [snd] in Hin.
    rewrite (emitted_app _ _ _ T) in Hin.
    rewrite List.Forall_forall in F. exact (F _ Hin p eq_refl).
Qed.


(** ** Clearing the two views *)

Lemma hd_state_eq (a b : HDView.State) :
  HDView.prompt a = HDView.prompt b -> HDView.aspectRatio a = HDView.aspectRatio b ->
  HDView.generatedImageUrl a = HDView.generatedImageUrl b ->
  HDView.loading a = HDView.loading b ->
  HDView.statusMessage a = HDView.statusMessage b ->
  HDView.error a = HDView.error b ->
  HDView.apiKeySelected a = HDView.apiKeySelected b -> a = b.
Proof. destruct a, b; cbn; intros; subst; reflexivity. Qed.

Lemma editor_state_eq (a b : State) :
  selectedFile a = selectedFile b -> imagePrompt a = imagePrompt b ->
  originalImageUrl a = originalImageUrl b -> editedImageUrl a = editedImageUrl b ->
  loading a = loading b -> error a = error b -> fileInput a = fileInput b -> a = b.
Proof. destruct a, b; cbn; intros; subst; reflexivity. Qed.

(** X29.  Clearing the image view gives the state the view has after
    mounting with the same key selection.  Clearing the editor gives its
    initial state, with an emptied file input, except that it leaves the
    loading flag as it is.  Clearing twice is clearing once. *)
Theorem clear_returns_views_to_start :
  (forall s : HDView.State,
      HDView.handleClear s = HDView.checkApiKey (HDView.apiKeySelected s) HDView.initial
      /\ HDView.handleClear (HDView.handleClear s) = HDView.handleClear s)
  /\ (forall s : State,
      handleClear s
      = setLoading (loading s)
          (setFileInput (match fileInput s with Some _ => Some [] | None => None end)
             initial)
      /\ handleClear (handleClear s) = handleClear s
      /\ (is_Some (fileInput s) -> loading s = false -> handleClear s = initial)).
Proof.
  assert (H1 : forall s : HDView.State,
             HDView.handleClear s
             = HDView.checkApiKey (HDView.apiKeySelected s) HDView.initial).
  { intros s. unfold HDView.handleClear, HDView.checkApiKey.
    destruct (HDView.apiKeySelected s) eqn:Ek; apply hd_state_eq;
      first [reflexivity | exact Ek]. }
  assert (H2 : forall s : State,
             handleClear s
             = setLoading (loading s)
                 (setFileInput (match fileInput s with Some _ => Some [] | None => None end)
                    initial)).
  { intros s. unfold handleClear.
    cbn [fileInput setError setEditedImageUrl setOriginalImageUrl setImagePrompt
         setSelectedFile].
    destruct (fileInput s) eqn:Ef; apply editor_state_eq; cbn; auto. }
  split.
  - intros s. split; [apply H1|]. rewrite !H1.
    destruct (HDView.apiKeySelected s); reflexivity.
  - intros s. split; [apply H2|]. split.
    + rewrite !H2. destruct (fileInput s); reflexivity.
    + intros [v Hv] Hl. rewrite H2, Hv, Hl. reflexivity.
Qed.

Lemma editor_holds_images_only_witness :
  holdsImage
    (setImagePrompt (js "add a hat")
       (handleFileChange (fun f => js "blob:" ++ file_name f) (Some picture) initial)).
Proof.
  destruct editor_holds_images_only as (_ & G1 & _ & G2 & _).
  apply G2, G1.
Defined.

Lemma clear_returns_views_to_start_witness :
  handleClear (handleFileChange (fun f => js "blob:" ++ file_name f) (Some picture) initial)
  = initial.
Proof.
  destruct clear_returns_views_to_start as [_ G].
  apply (G (handleFileChange (fun f => js "blob:" ++ file_name f) (Some picture) initial)).
  - eexists. reflexivity.
  - reflexivity.
Defined.

End EditorViewFacts.
